(** * Paillier cryptosystem core: a shallow embedding of [paillier_core.py]

    Python integers are unbounded, so they are modelled as [Z]; [//] and [%]
    are floor division and the matching remainder, which is what [Z.div] and
    [Z.modulo] compute.  The two dictionaries of the class have a fixed set
    of keys and are modelled as records.  Exceptions are an explicit
    outcome, the [random] module is a stream of raw draws read through a
    cursor, and every [while] loop takes a budget of iterations so that a
    loop that is still running is a value of the model ([Diverge]).  The one
    recursive method, [_extended_gcd], takes the number of stack frames the
    interpreter has left, and raises [RecursionError] when they run out.

    Two callers of the class are embedded after it: the key-strength and
    input-validation tests of [paillier_security.py] and the transaction
    ledger of [paillier_demos.py], whose values are integers and strings. *)

From Stdlib Require Import String.
From Stdlib Require Import ZArith Lia List Bool Znumtheory.
From Stdlib Require Import Zmod.ZmodInv.
From Stdlib Require DecimalString.
From Bignums Require Import BigZ.
Import ListNotations.

#[local] Open Scope Z_scope.

(** ** Exceptions and outcomes *)

(** The messages of the [ValueError]s the module raises, and of those the
    builtins it calls can raise. *)
Inductive message : Type :=
| BitLengthTooSmall     (* "Bit length minimal 512 ..." *)
| BitLengthNotEven      (* "Bit length harus genap" *)
| NoModularInverse      (* "Modular inverse dari {a} mod {m} tidak ada ..." *)
| PublicKeyMissing      (* "Kunci publik belum dibuat", "Public key tidak tersedia" *)
| PrivateKeyMissing     (* "Private key tidak tersedia" *)
| KeysMissing           (* "Kunci belum dibuat" *)
| PlaintextNegative     (* "Plaintext harus bilangan non-negatif" *)
| PlaintextTooLarge     (* "Plaintext ({plaintext}) harus < n ({n})" *)
| ConstantNegative      (* "Konstanta harus non-negatif" *)
| PowZeroModulus        (* builtin pow: "pow() 3rd argument cannot be 0" *)
| PowNotInvertible      (* builtin pow: "base is not invertible for the given modulus" *)
| NegativeShift         (* builtin <<: "negative shift count" *)
| NegativeBits          (* random.getrandbits: "number of bits must be non-negative" *)
| EmptyRange.           (* random.randrange: "empty range for randrange()" *)

Inductive exn : Type :=
| ValueError (msg : message)
| ZeroDivisionError
| TypeError             (* arithmetic or subscript on [None] *)
| RecursionError.       (* "maximum recursion depth exceeded" *)

Inductive outcome (A : Type) : Type :=
| Done (a : A)
| Raise (e : exn)
| Diverge.

Arguments Done {A} a.
Arguments Raise {A} e.
Arguments Diverge {A}.

Definition obind {A B : Type} (x : outcome A) (k : A -> outcome B) : outcome B :=
  match x with
  | Done a => k a
  | Raise e => Raise e
  | Diverge => Diverge
  end.

(** Computations that draw from [random]: the state is the cursor into the
    stream of raw draws. *)
Definition M (A : Type) : Type := nat -> outcome A * nat.

Definition ret {A : Type} (a : A) : M A := fun s => (Done a, s).
Definition raise {A : Type} (e : exn) : M A := fun s => (Raise e, s).
Definition diverge {A : Type} : M A := fun s => (Diverge, s).
Definition lift {A : Type} (x : outcome A) : M A := fun s => (x, s).

Definition bind {A B : Type} (x : M A) (k : A -> M B) : M B :=
  fun s =>
    match x s with
    | (Done a, s') => k a s'
    | (Raise e, s') => (Raise e, s')
    | (Diverge, s') => (Diverge, s')
    end.

Declare Scope py_scope.
Delimit Scope py_scope with py.
Notation "x <- c ;; k" := (bind c (fun x => k))
  (at level 61, c at next level, right associativity) : py_scope.
Notation "x <~ c ;; k" := (obind c (fun x => k))
  (at level 61, c at next level, right associativity) : py_scope.
#[local] Open Scope py_scope.

(** ** Builtins *)

(** [a // b] and [a % b]. *)
Definition py_floordiv (a b : Z) : outcome Z :=
  if b =? 0 then Raise ZeroDivisionError else Done (a / b).

Definition py_mod (a b : Z) : outcome Z :=
  if b =? 0 then Raise ZeroDivisionError else Done (a mod b).

(** [1 << k]. *)
Definition py_shiftl (a k : Z) : outcome Z :=
  if k <? 0 then Raise (ValueError NegativeShift) else Done (Z.shiftl a k).

(** Three-argument [pow] is binary exponentiation on multi-word integers. *)
Fixpoint powmod_pos (b : bigZ) (e : positive) (m : bigZ) : bigZ :=
  match e with
  | xH => BigZ.modulo b m
  | xO e' =>
      let t := powmod_pos b e' m in
      BigZ.modulo (BigZ.mul t t) m
  | xI e' =>
      let t := powmod_pos b e' m in
      BigZ.modulo (BigZ.mul (BigZ.modulo (BigZ.mul t t) m) b) m
  end.

Definition powmod (b e m : Z) : Z :=
  match e with
  | Zpos e' => BigZ.to_Z (powmod_pos (BigZ.of_Z b) e' (BigZ.of_Z m))
  | _ => 1 mod m
  end.

Definition py_pow (b e m : Z) : outcome Z :=
  if m =? 0 then Raise (ValueError PowZeroModulus)
  else if e <? 0 then
    if Z.gcd b m =? 1 then Done (powmod (Z.invmod b m) (- e) m)
    else Raise (ValueError PowNotInvertible)
  else Done (powmod b e m).

(** ** The random source *)

Section Random.

(** The raw draws; [getrandbits] and [randrange] reduce a draw into their
    range, so every value of the range can come out. *)
Variable rnd : nat -> Z.

Definition getrandbits (k : Z) : M Z :=
  fun s =>
    if k <? 0 then (Raise (ValueError NegativeBits), s)
    else (Done (rnd s mod 2 ^ k), S s).

Definition randrange (lo hi : Z) : M Z :=
  fun s =>
    if hi <=? lo then (Raise (ValueError EmptyRange), s)
    else (Done (lo + rnd s mod (hi - lo)), S s).

(** ** Primality testing and prime generation *)

(** [while d % 2 == 0: r += 1; d //= 2], on the binary digits of [d]. *)
Fixpoint halve_while_even (d : positive) (r : Z) : Z * positive :=
  match d with
  | xO d' => halve_while_even d' (r + 1)
  | _ => (r, d)
  end.

(** The loop does not end on [d = 0]; a negative [d] is halved like a
    positive one.  The call site passes [n - 1 >= 4]. *)
Definition mr_decompose (d : Z) : outcome (Z * Z) :=
  match d with
  | Z0 => Diverge
  | Zpos d' => let '(r, o) := halve_while_even d' 0 in Done (r, Zpos o)
  | Zneg d' => let '(r, o) := halve_while_even d' 0 in Done (r, Zneg o)
  end.

(** [for _ in range(k): x = pow(x, 2, n); if x == n - 1: ... break];
    the result is [composite_found]. *)
Fixpoint mr_square_loop (k : nat) (x n : Z) : outcome bool :=
  match k with
  | O => Done true
  | S k' =>
      x' <~ py_pow x 2 n ;;
      if x' =? n - 1 then Done false else mr_square_loop k' x' n
  end.

(** [for _ in range(rounds): ...] *)
Fixpoint mr_rounds (k : nat) (n d r : Z) : M bool :=
  match k with
  | O => ret true
  | S k' =>
      a <- randrange 2 (n - 1) ;;
      x <- lift (py_pow a d n) ;;
      if (x =? 1) || (x =? n - 1) then mr_rounds k' n d r
      else
        composite_found <- lift (mr_square_loop (Z.to_nat (r - 1)) x n) ;;
        if (composite_found : bool) then ret false else mr_rounds k' n d r
  end.

Definition _miller_rabin_test (n rounds : Z) : M bool :=
  if n <? 2 then ret false
  else if (n =? 2) || (n =? 3) then ret true
  else if n mod 2 =? 0 then ret false
  else
    rd <- lift (mr_decompose (n - 1)) ;;
    mr_rounds (Z.to_nat rounds) n (snd rd) (fst rd).

Definition small_primes : list Z := [3; 5; 7; 11; 13; 17; 19; 23; 29; 31].

(** [any(candidate % p == 0 for p in small_primes if candidate != p)] *)
Definition has_small_factor (candidate : Z) : bool :=
  existsb (fun p => candidate mod p =? 0)
          (filter (fun p => negb (candidate =? p)) small_primes).

(** [while True: ...]; [fuel] bounds the iterations. *)
Fixpoint _generate_prime (fuel : nat) (bit_length : Z) : M Z :=
  match fuel with
  | O => diverge
  | S fuel' =>
      candidate <- getrandbits bit_length ;;
      top <- lift (py_shiftl 1 (bit_length - 1)) ;;
      let candidate := Z.lor candidate top in
      let candidate := Z.lor candidate 1 in
      if has_small_factor candidate then _generate_prime fuel' bit_length
      else
        is_prime <- _miller_rabin_test candidate 10 ;;
        if (is_prime : bool) then ret candidate
        else _generate_prime fuel' bit_length
  end.

End Random.

(** ** Arithmetic helpers of the class *)

Definition _compute_lcm (a b : Z) : outcome Z :=
  py_floordiv (Z.abs (a * b)) (Z.gcd a b).

(** [_extended_gcd] calls itself once for every division step, and every
    call takes a frame of the interpreter's stack.  [frames] is the number of
    frames that are left where it is called: the recursion limit less the
    calls that are already on the stack.  A call with no frame left raises
    [RecursionError]. *)
Fixpoint _extended_gcd (frames : nat) (a b : Z) : outcome (Z * Z * Z) :=
  match frames with
  | O => Raise RecursionError
  | S frames' =>
      if a =? 0 then Done (b, 0, 1)
      else
        r <~ _extended_gcd frames' (b mod a) a ;;
        let '(gcd, x1, y1) := r in
        let x := y1 - (b / a) * x1 in
        let y := x1 in
        Done (gcd, x, y)
  end.

(** The recursion limit of CPython when it starts, [sys.getrecursionlimit()];
    nothing in the package changes it. *)
Definition default_recursion_limit : nat := 1000.

(** Frames that are left for [_extended_gcd] under that limit when the
    constructor is called from a script: the module, [__init__],
    [_generate_keypair] and [_modular_inverse] are on the stack, and the
    interpreter may count some calls of its own. *)
Definition script_frames : nat := default_recursion_limit - 10.

(** The methods that call [_extended_gcd], directly or not, take the frames
    that are left for it; they do not recurse themselves. *)
Definition _modular_inverse (frames : nat) (a m : Z) : outcome Z :=
  am <~ py_mod a m ;;
  r <~ _extended_gcd frames am m ;;
  let '(gcd, x, _) := r in
  if negb (gcd =? 1) then Raise (ValueError NoModularInverse)
  else
    xm <~ py_mod x m ;;
    py_mod (xm + m) m.

(** ** The class *)

Record PublicKey : Type := { pk_n : Z; pk_g : Z }.

Record PrivateKey : Type := { sk_lambda : Z; sk_mu : Z; sk_n : Z }.

Record PaillierCore : Type := {
  bit_length : Z;
  public_key : option PublicKey;
  private_key : option PrivateKey;
  n_squared : option Z
}.

(** Reading [self.n_squared] as an operand of [%]. *)
Definition get_n_squared (self : PaillierCore) : outcome Z :=
  match n_squared self with
  | Some v => Done v
  | None => Raise TypeError
  end.

(** [pow(b, e, self.n_squared)].  While [n_squared] is [None] this is the
    two-argument [pow], the plain power.  For a negative exponent that one
    is a [float], for which the model has no value: the class never has a
    key without [n_squared], and its [lambda] is never negative. *)
Definition pow_n_squared (self : PaillierCore) (b e : Z) : outcome Z :=
  match n_squared self with
  | Some n_sq => py_pow b e n_sq
  | None => if e <? 0 then Raise TypeError else Done (b ^ e)
  end.

(** Steps 2 to 6 of [_generate_keypair], once [p] and [q] are drawn. *)
Definition keys_from_primes (frames : nat) (self : PaillierCore) (p q : Z)
    : outcome PaillierCore :=
  let n := p * q in
  let n_sq := n * n in
  lambda_n <~ _compute_lcm (p - 1) (q - 1) ;;
  let g := n + 1 in
  mu <~ _modular_inverse frames lambda_n n ;;
  Done {| bit_length := bit_length self;
          public_key := Some {| pk_n := n; pk_g := g |};
          private_key := Some {| sk_lambda := lambda_n; sk_mu := mu; sk_n := n |};
          n_squared := Some n_sq |}.

Section Keygen.

Variable rnd : nat -> Z.
Variable frames : nat.

(** [while p == q: q = self._generate_prime(...)] *)
Fixpoint redraw_while_equal (k fuel : nat) (bits p q : Z) : M Z :=
  if p =? q then
    match k with
    | O => diverge
    | S k' =>
        q' <- _generate_prime rnd fuel bits ;;
        redraw_while_equal k' fuel bits p q'
    end
  else ret q.

(** Step 1 of [_generate_keypair]. *)
Definition generate_primes (fuel : nat) (self : PaillierCore) : M (Z * Z) :=
  p <- _generate_prime rnd fuel (bit_length self / 2) ;;
  q <- _generate_prime rnd fuel (bit_length self / 2) ;;
  q <- redraw_while_equal fuel fuel (bit_length self / 2) p q ;;
  ret (p, q).

Definition _generate_keypair (fuel : nat) (self : PaillierCore) : M PaillierCore :=
  pq <- generate_primes fuel self ;;
  lift (keys_from_primes frames self (fst pq) (snd pq)).

Definition __init__ (fuel : nat) (bit_length : Z) : M PaillierCore :=
  if bit_length <? 512 then raise (ValueError BitLengthTooSmall)
  else
    let self := {| bit_length := bit_length;
                   public_key := None;
                   private_key := None;
                   n_squared := None |} in
    _generate_keypair fuel self.

Definition create_paillier_instance (fuel : nat) (bit_length : Z) : M PaillierCore :=
  if bit_length <? 512 then raise (ValueError BitLengthTooSmall)
  else if negb (bit_length mod 2 =? 0) then raise (ValueError BitLengthNotEven)
  else __init__ fuel bit_length.

(** ** Encryption *)

(** [while True: r = random.randrange(1, n); if math.gcd(r, n) == 1: break] *)
Fixpoint draw_blinding (fuel : nat) (n : Z) : M Z :=
  match fuel with
  | O => diverge
  | S fuel' =>
      r <- randrange rnd 1 n ;;
      if Z.gcd r n =? 1 then ret r else draw_blinding fuel' n
  end.

End Keygen.

(** The last three statements of [encrypt], for the blinding factor [r]. *)
Definition encrypt_with (self : PaillierCore) (n g plaintext r : Z) : outcome Z :=
  n_sq <~ get_n_squared self ;;
  g_power_m <~ py_pow g plaintext n_sq ;;
  r_power_n <~ py_pow r n n_sq ;;
  py_mod (g_power_m * r_power_n) n_sq.

Definition encrypt (rnd : nat -> Z) (fuel : nat) (self : PaillierCore)
    (plaintext : Z) : M Z :=
  match public_key self with
  | None => raise (ValueError PublicKeyMissing)
  | Some pk =>
      let n := pk_n pk in
      let g := pk_g pk in
      if plaintext <? 0 then raise (ValueError PlaintextNegative)
      else if plaintext >=? n then raise (ValueError PlaintextTooLarge)
      else
        r <- draw_blinding rnd fuel n ;;
        lift (encrypt_with self n g plaintext r)
  end.

(** ** Decryption and the homomorphic operations *)

Definition _L_function (self : PaillierCore) (x : Z) : outcome Z :=
  match public_key self with
  | None => Raise TypeError
  | Some pk => py_floordiv (x - 1) (pk_n pk)
  end.

Definition decrypt (self : PaillierCore) (ciphertext : Z) : outcome Z :=
  match private_key self with
  | None => Raise (ValueError PrivateKeyMissing)
  | Some sk =>
      let lambda_n := sk_lambda sk in
      let mu := sk_mu sk in
      let n := sk_n sk in
      c_lambda <~ pow_n_squared self ciphertext lambda_n ;;
      l_result <~ _L_function self c_lambda ;;
      py_mod (l_result * mu) n
  end.

Definition homomorphic_add (self : PaillierCore) (ciphertext1 ciphertext2 : Z)
    : outcome Z :=
  match public_key self with
  | None => Raise (ValueError PublicKeyMissing)
  | Some _ =>
      n_sq <~ get_n_squared self ;;
      py_mod (ciphertext1 * ciphertext2) n_sq
  end.

Definition homomorphic_multiply_constant (self : PaillierCore)
    (ciphertext constant : Z) : outcome Z :=
  match public_key self with
  | None => Raise (ValueError PublicKeyMissing)
  | Some _ =>
      if constant <? 0 then Raise (ValueError ConstantNegative)
      else pow_n_squared self ciphertext constant
  end.

(** [self.public_key.copy()]: a fresh dictionary with the same entries. *)
Definition get_public_key (self : PaillierCore) : outcome PublicKey :=
  match public_key self with
  | None => Raise (ValueError KeysMissing)
  | Some pk => Done {| pk_n := pk_n pk; pk_g := pk_g pk |}
  end.

(** [int.bit_length()] *)
Definition py_bit_length (x : Z) : Z :=
  if x =? 0 then 0 else Z.log2 (Z.abs x) + 1.

(** The dictionary [get_key_info] returns; [security_level] is the string
    made of the [bit_length] attribute followed by "-bit", kept here as
    that number. *)
Inductive key_info : Type :=
| KeysNotGenerated
| KeyInfo (info_bit_length n_bit_length security_level n_value g_value : Z).

Definition get_key_info (self : PaillierCore) : key_info :=
  match public_key self with
  | None => KeysNotGenerated
  | Some pk =>
      KeyInfo (bit_length self) (py_bit_length (pk_n pk)) (bit_length self)
              (pk_n pk) (pk_g pk)
  end.

(** ** The object across method calls

    A method receives the object and may assign its attributes; a call
    therefore yields the result together with the object afterwards.  Only
    [_generate_keypair], which the constructor runs, assigns any. *)

Inductive call : Type :=
| CallEncrypt (fuel : nat) (plaintext : Z)
| CallDecrypt (ciphertext : Z)
| CallHomomorphicAdd (ciphertext1 ciphertext2 : Z)
| CallHomomorphicMultiplyConstant (ciphertext constant : Z)
| CallGetPublicKey
| CallGetKeyInfo.

Inductive value : Type :=
| VInt (z : Z)
| VPublicKey (pk : PublicKey)
| VKeyInfo (i : key_info).

Definition omap {A B : Type} (f : A -> B) (x : outcome A) : outcome B :=
  match x with
  | Done a => Done (f a)
  | Raise e => Raise e
  | Diverge => Diverge
  end.

Definition invoke (rnd : nat -> Z) (self : PaillierCore) (c : call) (s : nat)
    : outcome value * PaillierCore * nat :=
  match c with
  | CallEncrypt fuel plaintext =>
      let '(r, s') := encrypt rnd fuel self plaintext s in (omap VInt r, self, s')
  | CallDecrypt ciphertext => (omap VInt (decrypt self ciphertext), self, s)
  | CallHomomorphicAdd c1 c2 => (omap VInt (homomorphic_add self c1 c2), self, s)
  | CallHomomorphicMultiplyConstant c1 k =>
      (omap VInt (homomorphic_multiply_constant self c1 k), self, s)
  | CallGetPublicKey => (omap VPublicKey (get_public_key self), self, s)
  | CallGetKeyInfo => (Done (VKeyInfo (get_key_info self)), self, s)
  end.

(** The object after a sequence of calls, whatever each of them returned
    or raised. *)
Fixpoint after_calls (rnd : nat -> Z) (self : PaillierCore) (cs : list call)
    (s : nat) : PaillierCore :=
  match cs with
  | [] => self
  | c :: cs' =>
      let '(_, self', s') := invoke rnd self c s in after_calls rnd self' cs' s'
  end.

(** ** Vocabulary of the specification *)

(** The key pair built from [p] and [q]. *)
Record key_of (self : PaillierCore) (p q : Z) : Prop := {
  key_public : public_key self = Some {| pk_n := p * q; pk_g := p * q + 1 |};
  key_private : exists mu,
      private_key self =
        Some {| sk_lambda := Z.lcm (p - 1) (q - 1); sk_mu := mu; sk_n := p * q |} /\
      0 <= mu < p * q /\
      (Z.lcm (p - 1) (q - 1) * mu) mod (p * q) = 1;
  key_n_squared : n_squared self = Some ((p * q) * (p * q));
  key_coprime : Z.gcd (Z.lcm (p - 1) (q - 1)) (p * q) = 1
}.

(** A ready object is one the constructor has returned. *)
Definition ready (pc : PaillierCore) : Prop :=
  exists rnd frames fuel bits s s', __init__ rnd frames fuel bits s = (Done pc, s').

(** The error kinds of the specification, as the [ValueError]s of the code. *)
Definition InvalidKeySizeError (e : exn) : Prop :=
  e = ValueError BitLengthTooSmall \/ e = ValueError BitLengthNotEven.

Definition InvalidPlaintextError (e : exn) : Prop :=
  e = ValueError PlaintextNegative \/ e = ValueError PlaintextTooLarge.

Definition InvalidConstantError (e : exn) : Prop :=
  e = ValueError ConstantNegative.


(** [encrypt] can return on [m]: some random source and loop budget make
    it return a ciphertext, which then lies in [[0, n * n)]. *)
Definition encrypt_succeeds (pc : PaillierCore) (m : Z) : Prop :=
  exists rnd fuel s c s' pk,
    public_key pc = Some pk /\
    encrypt rnd fuel pc m s = (Done c, s') /\
    0 <= c < pk_n pk * pk_n pk.

(** [encrypt] rejects [m]: it raises the plaintext error before any draw,
    whatever the random source. *)
Definition encrypt_rejects (pc : PaillierCore) (m : Z) : Prop :=
  forall rnd fuel s,
    exists e, encrypt rnd fuel pc m s = (Raise e, s) /\ InvalidPlaintextError e.

(** [c] is an encryption of [m] for the modulus [n]: the product of
    [(1 + n) ^ m] and the [n]-th power of a unit, modulo [n * n]. *)
Definition encrypts (n m c : Z) : Prop :=
  exists s, Z.gcd s n = 1 /\ c mod (n * n) = ((1 + n) ^ m * s ^ n) mod (n * n).

(** "The loop has an iteration cap": some number of iterations after which
    [_generate_prime] has returned or failed, whatever the random source. *)
Definition has_iteration_cap : Prop :=
  exists cap : nat, forall (rnd : nat -> Z) (bits : Z) (s : nat),
    1 <= bits -> fst (_generate_prime rnd cap bits s) <> Diverge.

(** ** Sample runs *)

Definition stream (draws : list Z) : nat -> Z := fun i => nth i draws 0.

(** A random source whose every draw is [0]. *)
Definition zero_rnd : nat -> Z := fun _ => 0.

(** A run of the constructor for 512 bits.  The first candidate is
    [2 ^ 255 + 1], a multiple of 3; the next two candidates are primes of
    256 bits and pass the filter and ten Miller-Rabin rounds each.  The
    base drawn in the rounds for [sample_p] is [3 ^ (2 ^ 246)], whose 467th
    power is [-1]; the one for [sample_q] is [7 ^ (2 ^ 246)], whose 351st
    power is [-1].  Two more draws serve as blinding factors, 6 and 11. *)
Definition sample_p : Z := 467 * 2 ^ 247 + 1.

Definition sample_q : Z := 351 * 2 ^ 247 + 1.

Definition sample_p_base : Z := Eval vm_compute in powmod 3 (2 ^ 246) sample_p.

Definition sample_q_base : Z := Eval vm_compute in powmod 7 (2 ^ 246) sample_q.

Definition sample_draws : list Z :=
  [0; sample_p] ++ repeat (sample_p_base - 2) 10 ++
  [sample_q] ++ repeat (sample_q_base - 2) 10 ++
  [5; 10].

Definition sample_rnd : nat -> Z := stream sample_draws.

Definition no_keys (bits : Z) : PaillierCore :=
  {| bit_length := bits; public_key := None; private_key := None; n_squared := None |}.

Definition sample_key :=
  Eval vm_compute in
    match __init__ sample_rnd script_frames 2 512 0%nat with
    | (Done pc, _) => pc
    | _ => no_keys 512
    end.

(** A run of the constructor in which the first number that passes the
    test is composite.  [pseudo_p] is [1972859 * 2 ^ 235 + 1], of 256 bits,
    and [pseudo_base] squares to [-1] modulo [pseudo_p], so that its
    1972859th power is itself or its opposite and one squaring gives [-1]:
    every round that draws it lets the number through.  The second number is
    a prime, and the base drawn for it is [5 ^ (2 ^ 247)], whose 207th power
    is [-1]. *)
Definition pseudo_p : Z :=
  37 * 149 * 19758639428235639228173038295949196672733165094470664464112290771108950201.

Definition pseudo_base : Z :=
  68408880683967857895298489473903204755486291641046608787394239742590227010126.

Definition pseudo_q : Z := 207 * 2 ^ 248 + 1.

Definition pseudo_q_base : Z := Eval vm_compute in powmod 5 (2 ^ 247) pseudo_q.

(** A unit modulo [pseudo_p * pseudo_q] that is [1] modulo every prime
    factor but 149, and of order 37 modulo 149. *)
Definition pseudo_unit : Z :=
  5270584194283427142905018910522455681251737559284103350545129936397317454247607176586887402565215057431720418923994178057792313625882500734347730274941658.

Definition pseudo_draws : list Z :=
  [pseudo_p] ++ repeat (pseudo_base - 2) 10 ++
  [pseudo_q] ++ repeat (pseudo_q_base - 2) 10 ++
  [1; 2; 0; pseudo_unit - 1].

Definition pseudo_rnd : nat -> Z := stream pseudo_draws.

Definition pseudo_key :=
  Eval vm_compute in
    match __init__ pseudo_rnd script_frames 1 512 0%nat with
    | (Done pc, _) => pc
    | _ => no_keys 512
    end.

Definition pseudo_n : Z := pseudo_p * pseudo_q.

(** ** Vocabulary for the properties of prime generation *)

(** The base [random.randrange(2, n - 1)] yields in round [i] of a test
    that starts at cursor [s]. *)
Definition mr_base (rnd : nat -> Z) (n : Z) (s i : nat) : Z :=
  2 + rnd (s + i)%nat mod (n - 1 - 2).

(** The body of one round for the base [a]: whether the loop over the
    rounds goes on. *)
Definition mr_round_passes (n d r a : Z) : outcome bool :=
  x <~ py_pow a d n ;;
  if (x =? 1) || (x =? n - 1) then Done true
  else
    composite_found <~ mr_square_loop (Z.to_nat (r - 1)) x n ;;
    Done (negb composite_found).

(** [a] does not show that [n] is composite, where [n - 1 = d * 2 ^ r]:
    [a ^ d] is [1], or one of [a ^ d], [a ^ (2 d)], ...,
    [a ^ (2 ^ (r - 1) d)] is [-1], modulo [n]. *)
Definition strong_liar (n d r a : Z) : Prop :=
  (a ^ d) mod n = 1 \/
  exists j, 0 <= j < r /\ (a ^ (d * 2 ^ j)) mod n = n - 1.

(** What [_generate_prime] hands over: an odd number of exactly [bits]
    bits that none of the small primes divides properly and that ten rounds
    of the test have let through. *)
Definition probable_prime (rnd : nat -> Z) (bits c : Z) : Prop :=
  2 ^ (bits - 1) <= c < 2 ^ bits /\ Z.odd c = true /\
  has_small_factor c = false /\
  exists s0 s1, _miller_rabin_test rnd c 10 s0 = (Done true, s1).

(** The Fibonacci numbers, on which Euclid's algorithm is slowest. *)
Fixpoint fib (k : nat) : Z :=
  match k with
  | O => 0
  | S k' =>
      match k' with
      | O => 1
      | S k'' => fib k' + fib k''
      end
  end.

(** [fib k] and [fib (k + 1)], by the linear recursion. *)
Fixpoint fib_pair (k : nat) : Z * Z :=
  match k with
  | O => (0, 1)
  | S k' => let '(x, y) := fib_pair k' in (y, x + y)
  end.

(** ** The callers of the class in the other modules

    What the callers print, and the counters they keep only to print them,
    are not part of the model. *)

(** [self.paillier.public_key['n']] *)
Definition public_n (self : PaillierCore) : outcome Z :=
  match public_key self with
  | None => Raise TypeError
  | Some pk => Done (pk_n pk)
  end.

(** [encrypt] on an argument that is not an [int], such as [3.14]: the
    first check of the input raises. *)
Definition encrypt_non_int (self : PaillierCore) : M Z :=
  match public_key self with
  | None => raise (ValueError PublicKeyMissing)
  | Some _ => raise (ValueError PlaintextNegative)
  end.

(** [str(x)] of an integer, and of a list of integers. *)
Definition py_str (x : Z) : string :=
  DecimalString.NilZero.string_of_int (Z.to_int x).

Definition py_str_list (xs : list Z) : string :=
  ("[" ++ String.concat ", " (map py_str xs) ++ "]")%string.

(** [except ValueError] and [except (ValueError, TypeError)]. *)
Definition is_ValueError (e : exn) : bool :=
  match e with
  | ValueError _ => true
  | _ => false
  end.

Definition is_ValueError_or_TypeError (e : exn) : bool :=
  match e with
  | ValueError _ | TypeError => true
  | ZeroDivisionError | RecursionError => false
  end.

(** A [dict] with string keys, in insertion order: assigning to a key that
    is present replaces its value where it stands. *)
Fixpoint dict_set {V : Type} (d : list (string * V)) (k : string) (v : V)
    : list (string * V) :=
  match d with
  | [] => [(k, v)]
  | (k', v') :: d' =>
      if String.eqb k' k then (k', v) :: d' else (k', v') :: dict_set d' k v
  end.

(** [d.get(k)] *)
Fixpoint dict_get {V : Type} (d : list (string * V)) (k : string) : option V :=
  match d with
  | [] => None
  | (k', v') :: d' => if String.eqb k' k then Some v' else dict_get d' k
  end.

(** *** The security analyzer of [paillier_security.py] *)

Module Security.

Record SecurityTestResult : Type := {
  test_name : string;
  passed : bool;
  details : string;
  risk_level : string;
  recommendation : string
}.

Record PaillierSecurityAnalyzer : Type := {
  paillier : PaillierCore;
  test_results : list SecurityTestResult
}.

(** [self.test_results.append(result); return result] *)
Definition record_result (self : PaillierSecurityAnalyzer) (result : SecurityTestResult)
    : SecurityTestResult * PaillierSecurityAnalyzer :=
  (result, {| paillier := paillier self; test_results := test_results self ++ [result] |}).

Definition small_primes : list Z :=
  [2; 3; 5; 7; 11; 13; 17; 19; 23; 29; 31; 37; 41; 43; 47].

Definition test_key_strength (self : PaillierSecurityAnalyzer)
    : outcome (SecurityTestResult * PaillierSecurityAnalyzer) :=
  n <~ public_n (paillier self) ;;
  let bit_length := py_bit_length n in
  let '(security_level, risk_level, recommendation) :=
    if bit_length >=? 3072 then
      ("VERY HIGH", "LOW", "Kunci sangat kuat untuk semua aplikasi")%string
    else if bit_length >=? 2048 then
      ("HIGH", "LOW", "Kunci memadai untuk aplikasi production")%string
    else if bit_length >=? 1024 then
      ("MEDIUM", "MEDIUM",
       "Kunci cukup untuk development, upgrade untuk production")%string
    else
      ("LOW", "HIGH",
       "PERINGATAN: Kunci terlalu lemah untuk penggunaan serius")%string in
  let small_factors := filter (fun p => n mod p =? 0) small_primes in
  let '(is_valid_composite, risk_level, recommendation) :=
    match small_factors with
    | [] => (true, risk_level, recommendation)
    | _ :: _ =>
        (false, "CRITICAL"%string,
         ("CRITICAL: n memiliki faktor kecil " ++ py_str_list small_factors)%string)
    end in
  Done (record_result self
          {| test_name := "Key Strength Analysis";
             passed := (bit_length >=? 1024) && is_valid_composite;
             details := (py_str bit_length ++ "-bit key, security level: "
                         ++ security_level)%string;
             risk_level := risk_level;
             recommendation := recommendation |}).

(** [try: body; validation_issues.append(issue)] followed by
    [except handled: pass]. *)
Definition try_append {A : Type} (body : M A) (handled : exn -> bool)
    (issue : string) (validation_issues : list string) : M (list string) :=
  fun s =>
    match body s with
    | (Done _, s') => (Done (validation_issues ++ [issue]), s')
    | (Raise e, s') =>
        if handled e then (Done validation_issues, s') else (Raise e, s')
    | (Diverge, s') => (Diverge, s')
    end.

(** [try: body] followed by [except handled: pass]. *)
Definition try_pass {A : Type} (body : M A) (handled : exn -> bool) : M unit :=
  fun s =>
    match body s with
    | (Done _, s') => (Done tt, s')
    | (Raise e, s') => if handled e then (Done tt, s') else (Raise e, s')
    | (Diverge, s') => (Diverge, s')
    end.

(** The last handler also names [OverflowError] and [MemoryError], which
    nothing in the model raises. *)
Definition test_input_validation (rnd : nat -> Z) (fuel : nat)
    (self : PaillierSecurityAnalyzer)
    : M (SecurityTestResult * PaillierSecurityAnalyzer) :=
  let validation_issues := [] in
  validation_issues <-
    try_append (encrypt rnd fuel (paillier self) (-1))
               is_ValueError "Accepts negative values" validation_issues ;;
  validation_issues <-
    try_append (n <- lift (public_n (paillier self)) ;;
                let large_value := n + 1 in
                encrypt rnd fuel (paillier self) large_value)
               is_ValueError "Accepts values >= n" validation_issues ;;
  validation_issues <-
    try_append (encrypt_non_int (paillier self))
               is_ValueError_or_TypeError "Accepts non-integer values"
               validation_issues ;;
  _ <-
    try_pass (let huge_value := 2 ^ 4096 in
              n <- lift (public_n (paillier self)) ;;
              if huge_value <? n then
                _ <- encrypt rnd fuel (paillier self) huge_value ;; ret tt
              else ret tt)
             is_ValueError ;;
  ret (record_result self
         match validation_issues with
         | [] =>
             {| test_name := "Input Validation";
                passed := true;
                details := "Semua input validation tests passed";
                risk_level := "LOW";
                recommendation := "Input validation implementation baik" |}
         | _ :: _ =>
             {| test_name := "Input Validation";
                passed := false;
                details := ("Issues found: "
                            ++ String.concat ", " validation_issues)%string;
                risk_level := "MEDIUM";
                recommendation :=
                  "Perbaiki input validation untuk mencegah serangan" |}
         end).

End Security.

(** *** The financial demonstration of [paillier_demos.py] *)

Module Financial.

Record FinancialComputation : Type := {
  paillier : PaillierCore;
  banks_data : list (string * list Z)
}.

(** How a call ends: like a call of the core, or with a [ValueError] that
    the demonstration raises itself, kept by its text. *)
Inductive result (A : Type) : Type :=
| Returned (a : A)
| Raised (e : exn)
| RaisedValueError (text : string)
| Running.

Arguments Returned {A} a.
Arguments Raised {A} e.
Arguments RaisedValueError {A} text.
Arguments Running {A}.

Definition of_outcome {A : Type} (x : outcome A) : result A :=
  match x with
  | Done a => Returned a
  | Raise e => Raised e
  | Diverge => Running
  end.

Definition __init__ (rnd : nat -> Z) (frames fuel : nat) (bit_length : Z)
    : M FinancialComputation :=
  pc <- __init__ rnd frames fuel bit_length ;;
  ret {| paillier := pc; banks_data := [] |}.

(** The loop of [add_bank_transactions]. *)
Fixpoint encrypt_transactions (rnd : nat -> Z) (fuel : nat) (pc : PaillierCore)
    (transactions encrypted_transactions : list Z) : M (list Z) :=
  match transactions with
  | [] => ret encrypted_transactions
  | amount :: rest =>
      if amount <? 0 then encrypt_transactions rnd fuel pc rest encrypted_transactions
      else
        encrypted_amount <- encrypt rnd fuel pc amount ;;
        encrypt_transactions rnd fuel pc rest
          (encrypted_transactions ++ [encrypted_amount])
  end.

(** The method returns nothing and assigns [self.banks_data[bank_name]]
    once, after the loop: a call yields how it ended together with the
    object afterwards, which an exception out of the loop leaves as it
    was. *)
Definition add_bank_transactions (rnd : nat -> Z) (fuel : nat)
    (self : FinancialComputation) (bank_name : string) (transactions : list Z)
    (s : nat) : outcome unit * FinancialComputation * nat :=
  match encrypt_transactions rnd fuel (paillier self) transactions [] s with
  | (Done encrypted_transactions, s') =>
      (Done tt,
       {| paillier := paillier self;
          banks_data := dict_set (banks_data self) bank_name encrypted_transactions |},
       s')
  | (Raise e, s') => (Raise e, self, s')
  | (Diverge, s') => (Diverge, self, s')
  end.

(** The inner and the outer loop of [calculate_total_transaction_volume];
    [None] is the total before the first transaction. *)
Fixpoint add_transactions (pc : PaillierCore) (transactions : list Z)
    (total_volume_encrypted : option Z) : outcome (option Z) :=
  match transactions with
  | [] => Done total_volume_encrypted
  | transaction :: rest =>
      match total_volume_encrypted with
      | None => add_transactions pc rest (Some transaction)
      | Some total =>
          total <~ homomorphic_add pc total transaction ;;
          add_transactions pc rest (Some total)
      end
  end.

Fixpoint add_banks (pc : PaillierCore) (banks : list (string * list Z))
    (total_volume_encrypted : option Z) : outcome (option Z) :=
  match banks with
  | [] => Done total_volume_encrypted
  | (_, transactions) :: rest =>
      total <~ add_transactions pc transactions total_volume_encrypted ;;
      add_banks pc rest total
  end.

Definition calculate_total_transaction_volume (self : FinancialComputation)
    : result Z :=
  match add_banks (paillier self) (banks_data self) None with
  | Done None => RaisedValueError "Tidak ada data transaksi tersedia"
  | Done (Some total_volume_encrypted) =>
      of_outcome (decrypt (paillier self) total_volume_encrypted)
  | Raise e => Raised e
  | Diverge => Running
  end.

End Financial.

(** The amounts [add_bank_transactions] keeps. *)
Definition kept_amounts (transactions : list Z) : list Z :=
  filter (fun amount => negb (amount <? 0)) transactions.

(** The encrypted store mirrors a ledger of plaintext amounts: the same
    banks in the same order, and every stored number an encryption of the
    amount at its place. *)
Definition mirrors (n : Z) (banks_data ledger : list (string * list Z)) : Prop :=
  Forall2 (fun bank entry =>
             fst bank = fst entry /\
             Forall2 (fun c m => 0 <= m /\ encrypts n m c) (snd bank) (snd entry))
          banks_data ledger.

Definition ledger_total (ledger : list (string * list Z)) : Z :=
  fold_right Z.add 0 (concat (map snd ledger)).

(** * Properties *)

(** ** The model on small inputs *)

(** [_extended_gcd(30, 12)] is four calls deep: on (30, 12), (12, 30),
    (6, 12) and (0, 6). *)
Example extended_gcd_30_12 :
  _extended_gcd 4 30 12 = Done (6, 1, -2) /\
  _extended_gcd 3 30 12 = Raise RecursionError.
Proof. split; reflexivity. Qed.

Example modular_inverse_3_7 : _modular_inverse script_frames 3 7 = Done 5.
Proof. reflexivity. Qed.

Example modular_inverse_4_6 :
  _modular_inverse script_frames 4 6 = Raise (ValueError NoModularInverse).
Proof. reflexivity. Qed.

Example compute_lcm_4_6 : _compute_lcm 4 6 = Done 12.
Proof. reflexivity. Qed.

Example pow_4_13_497 : py_pow 4 13 497 = Done 445.
Proof. vm_compute. reflexivity. Qed.

(** Base 2 proves 9 composite in the first round, and cannot tell 7 from a
    prime in any of the ten. *)
Example miller_rabin_9 : _miller_rabin_test zero_rnd 9 10 0%nat = (Done false, 1%nat).
Proof. vm_compute. reflexivity. Qed.

Example miller_rabin_7 : _miller_rabin_test zero_rnd 7 10 0%nat = (Done true, 10%nat).
Proof. vm_compute. reflexivity. Qed.

(** Three bits: the draw 0 gives the candidate 5. *)
Example generate_prime_3_bits : _generate_prime zero_rnd 1 3 0%nat = (Done 5, 11%nat).
Proof. vm_compute. reflexivity. Qed.

(** ** The builtin [pow] *)

Lemma powmod_pos_spec (b : bigZ) (e : positive) (m : bigZ) :
  BigZ.to_Z m <> 0 ->
  BigZ.to_Z (powmod_pos b e m) = (BigZ.to_Z b ^ Zpos e) mod BigZ.to_Z m.
Proof.
  intros Hm. induction e as [e IH | e IH | ]; simpl powmod_pos.
  - rewrite !BigZ.spec_modulo, !BigZ.spec_mul, BigZ.spec_modulo, BigZ.spec_mul, IH.
    replace (Zpos e~1) with (Zpos e + Zpos e + 1) by lia.
    rewrite !Z.pow_add_r, Z.pow_1_r by lia.
    rewrite Z.mul_mod_idemp_l by assumption.
    set (t := BigZ.to_Z b ^ Zpos e).
    rewrite (Z.mul_mod (t mod _ * (t mod _))) by assumption.
    rewrite <- (Z.mul_mod t t) by assumption.
    rewrite <- Z.mul_mod by assumption. reflexivity.
  - rewrite BigZ.spec_modulo, BigZ.spec_mul, IH.
    replace (Zpos e~0) with (Zpos e + Zpos e) by lia.
    rewrite Z.pow_add_r by lia.
    rewrite <- Z.mul_mod by assumption. reflexivity.
  - rewrite BigZ.spec_modulo, Z.pow_1_r. reflexivity.
Qed.

Lemma powmod_spec (b e m : Z) :
  0 <= e -> m <> 0 -> powmod b e m = (b ^ e) mod m.
Proof.
  intros He Hm. destruct e as [ | e | e]; simpl powmod.
  - reflexivity.
  - rewrite powmod_pos_spec; rewrite !BigZ.spec_of_Z; auto.
  - lia.
Qed.

Lemma py_pow_spec (b e m : Z) :
  0 <= e -> m <> 0 -> py_pow b e m = Done ((b ^ e) mod m).
Proof.
  intros He Hm. unfold py_pow.
  destruct (Z.eqb_spec m 0); [contradiction | ].
  destruct (Z.ltb_spec e 0); [lia | ].
  rewrite powmod_spec; auto.
Qed.

Lemma py_mod_spec (a b : Z) : b <> 0 -> py_mod a b = Done (a mod b).
Proof. intros Hb. unfold py_mod. destruct (Z.eqb_spec b 0); [contradiction | reflexivity]. Qed.

Lemma py_floordiv_spec (a b : Z) : b <> 0 -> py_floordiv a b = Done (a / b).
Proof.
  intros Hb. unfold py_floordiv.
  destruct (Z.eqb_spec b 0); [contradiction | reflexivity].
Qed.

(** ** The extended Euclidean algorithm *)

Lemma extended_gcd_rec_S (frames : nat) (a b : Z) :
  _extended_gcd (S frames) a b =
    if a =? 0 then Done (b, 0, 1)
    else
      r <~ _extended_gcd frames (b mod a) a ;;
      let '(gcd, x1, y1) := r in Done (gcd, y1 - (b / a) * x1, x1).
Proof. reflexivity. Qed.

(** Whatever the recursion returns is a Bezout triple. *)
Lemma extended_gcd_rec_bezout (frames : nat) :
  forall a b g x y,
    _extended_gcd frames a b = Done (g, x, y) -> a * x + b * y = g.
Proof.
  induction frames as [ | frames IH]; intros a b g x y H; simpl in H.
  - discriminate.
  - destruct (Z.eqb_spec a 0) as [Ha | Ha].
    + inversion H; subst. lia.
    + destruct (_extended_gcd frames (b mod a) a) as [[[g1 x1] y1] | | ] eqn:E;
        simpl in H; try discriminate.
      inversion H; subst. apply IH in E.
      pose proof (Z.div_mod b a Ha). nia.
Qed.

(** On non-negative arguments the first component is the gcd. *)
Lemma extended_gcd_rec_gcd (frames : nat) :
  forall a b g x y,
    0 <= a -> 0 <= b ->
    _extended_gcd frames a b = Done (g, x, y) -> g = Z.gcd a b.
Proof.
  induction frames as [ | frames IH]; intros a b g x y Ha Hb H; simpl in H.
  - discriminate.
  - destruct (Z.eqb_spec a 0) as [Ha0 | Ha0].
    + inversion H; subst. rewrite Z.gcd_0_l, Z.abs_eq; auto.
    + destruct (_extended_gcd frames (b mod a) a) as [[[g1 x1] y1] | | ] eqn:E;
        simpl in H; try discriminate.
      inversion H; subst. apply IH in E; [ | apply Z.mod_pos_bound; lia | lia ].
      rewrite E, Z.gcd_mod by assumption. reflexivity.
Qed.

(** The recursion raises nothing but [RecursionError], and it ends. *)
Lemma extended_gcd_rec_raise (frames : nat) :
  forall a b e, _extended_gcd frames a b = Raise e -> e = RecursionError.
Proof.
  induction frames as [ | frames IH]; intros a b e; simpl.
  - congruence.
  - destruct (Z.eqb_spec a 0); [discriminate | ].
    destruct (_extended_gcd frames (b mod a) a) as [[[g1 x1] y1] | e' | ] eqn:E;
      simpl; try discriminate.
    intros H. inversion H; subst e'. exact (IH _ _ _ E).
Qed.

Lemma extended_gcd_rec_ends (frames : nat) :
  forall a b, _extended_gcd frames a b <> Diverge.
Proof.
  induction frames as [ | frames IH]; intros a b; simpl.
  - discriminate.
  - destruct (Z.eqb_spec a 0); [discriminate | ].
    destruct (_extended_gcd frames (b mod a) a) as [[[g1 x1] y1] | e' | ] eqn:E;
      simpl; try discriminate.
    exfalso. exact (IH _ _ E).
Qed.

(** More frames do not change what is returned. *)
Lemma extended_gcd_rec_more (frames : nat) :
  forall a b r,
    _extended_gcd frames a b = Done r -> _extended_gcd (S frames) a b = Done r.
Proof.
  induction frames as [ | frames IH]; intros a b r H.
  - discriminate.
  - rewrite extended_gcd_rec_S in H. rewrite extended_gcd_rec_S.
    destruct (a =? 0); [assumption | ].
    destruct (_extended_gcd frames (b mod a) a) as [r1 | | ] eqn:E; try discriminate.
    rewrite (IH _ _ _ E). exact H.
Qed.

Lemma extended_gcd_rec_deeper (d1 d2 : nat) (a b : Z) (r : Z * Z * Z) :
  (d1 <= d2)%nat ->
  _extended_gcd d1 a b = Done r -> _extended_gcd d2 a b = Done r.
Proof.
  intros Hle H. induction Hle as [ | d2 Hle IH]; [assumption | ].
  apply extended_gcd_rec_more. assumption.
Qed.

(** A call that returns has a depth: the number of nested calls it makes,
    itself included.  With that many frames or more it returns the same
    triple, and with fewer it raises. *)
Lemma extended_gcd_rec_depth (frames : nat) :
  forall a b r,
    _extended_gcd frames a b = Done r ->
    exists d,
      (1 <= d <= frames)%nat /\
      (forall frames', (d <= frames')%nat -> _extended_gcd frames' a b = Done r) /\
      (forall frames', (frames' < d)%nat ->
         _extended_gcd frames' a b = Raise RecursionError).
Proof.
  induction frames as [ | frames IH]; intros a b r H.
  - discriminate.
  - rewrite extended_gcd_rec_S in H.
    destruct (Z.eqb_spec a 0) as [Ha | Ha].
    + exists 1%nat. split; [lia | split].
      * intros [ | f] Hf; [lia | ]. rewrite extended_gcd_rec_S.
        destruct (Z.eqb_spec a 0); [assumption | contradiction].
      * intros f Hf. replace f with 0%nat by lia. reflexivity.
    + destruct (_extended_gcd frames (b mod a) a) as [r1 | | ] eqn:E; try discriminate.
      destruct (IH _ _ _ E) as (d & Hd & Hge & Hlt).
      exists (S d). split; [lia | split].
      * intros [ | f] Hf; [lia | ]. rewrite extended_gcd_rec_S.
        destruct (Z.eqb_spec a 0); [contradiction | ].
        rewrite (Hge f) by lia. exact H.
      * intros [ | f] Hf; [reflexivity | ]. rewrite extended_gcd_rec_S.
        destruct (Z.eqb_spec a 0); [contradiction | ].
        rewrite (Hlt f) by lia. reflexivity.
Qed.

(** [2 k + 1] frames are enough for a first argument below [2 ^ k]. *)
Lemma extended_gcd_rec_enough (k : nat) :
  forall frames a b,
    0 <= a < 2 ^ Z.of_nat k -> (2 * k + 1 <= frames)%nat ->
    exists r, _extended_gcd frames a b = Done r.
Proof.
  induction k as [ | k IH]; intros frames a b Ha Hd.
  - destruct frames as [ | frames]; [lia | ]. simpl.
    change (2 ^ Z.of_nat 0) with 1 in Ha.
    destruct (Z.eqb_spec a 0); [eauto | lia].
  - destruct frames as [ | frames]; [lia | ]. simpl.
    destruct (Z.eqb_spec a 0) as [Ha0 | Ha0]; [eauto | ].
    destruct frames as [ | frames]; [lia | ].
    assert (Hc : 0 <= b mod a < a) by (apply Z.mod_pos_bound; lia).
    simpl.
    destruct (Z.eqb_spec (b mod a) 0) as [Hc0 | Hc0]; [simpl; eauto | ].
    assert (Hr : 0 <= a mod (b mod a) < b mod a) by (apply Z.mod_pos_bound; lia).
    assert (Hhalf : 0 <= a mod (b mod a) < 2 ^ Z.of_nat k).
    { split; [lia | ].
      pose proof (Z.div_mod a (b mod a) Hc0) as Hdm.
      assert (1 <= a / (b mod a)) by (apply Z.div_le_lower_bound; lia).
      rewrite Nat2Z.inj_succ, Z.pow_succ_r in Ha by lia. nia. }
    destruct (IH frames (a mod (b mod a)) (b mod a) Hhalf ltac:(lia)) as [[[g x] y] E].
    rewrite E. simpl. eauto.
Qed.

Lemma extended_gcd_total (frames : nat) (a b : Z) :
  0 <= a -> (2 * Z.to_nat (py_bit_length a) + 1 <= frames)%nat ->
  exists g x y, _extended_gcd frames a b = Done (g, x, y).
Proof.
  intros Ha Hf.
  destruct (extended_gcd_rec_enough (Z.to_nat (py_bit_length a)) frames a b)
    as [[[g x] y] E].
  - unfold py_bit_length. destruct (Z.eqb_spec a 0) as [-> | Hne].
    + simpl. lia.
    + rewrite Z2Nat.id by (pose proof (Z.log2_nonneg (Z.abs a)); lia).
      rewrite Z.abs_eq by assumption. split; [assumption | ].
      apply Z.log2_spec. lia.
  - assumption.
  - eauto.
Qed.

(** *** The bound of Lame *)

Lemma fib_step (k : nat) : fib (S (S k)) = fib (S k) + fib k.
Proof. reflexivity. Qed.

Lemma fib_pos (k : nat) : 0 <= fib k /\ 0 < fib (S k).
Proof.
  induction k as [ | k [IH1 IH2]].
  - simpl. lia.
  - split; [lia | ]. rewrite fib_step. lia.
Qed.

Lemma fib_mod (k : nat) : (2 <= k)%nat -> fib (S (S k)) mod fib (S k) = fib k.
Proof.
  intros Hk. rewrite fib_step.
  assert (Hlt : 0 <= fib k < fib (S k)).
  { destruct k as [ | [ | k]]; try lia.
    pose proof (fib_pos (S k)) as [H1 H2]. pose proof (fib_pos k) as [H3 H4].
    rewrite (fib_step (S k)). lia. }
  replace (fib (S k) + fib k) with (fib k + 1 * fib (S k)) by ring.
  rewrite Z.mod_add by lia. apply Z.mod_small. assumption.
Qed.

(** The pair computed by the linear recursion. *)
Lemma fib_pair_spec (k : nat) : fib_pair k = (fib k, fib (S k)).
Proof.
  induction k as [ | k IH]; [reflexivity | ].
  cbn [fib_pair]. rewrite IH, fib_step. f_equal. ring.
Qed.

Lemma fib_mono (k : nat) : fib k <= fib (S k).
Proof.
  destruct k as [ | k]; [simpl; lia | ].
  rewrite fib_step. pose proof (fib_pos k). lia.
Qed.

(** Three more steps multiply a Fibonacci number by four at least. *)
Lemma fib_growth (j : nat) : 4 ^ Z.of_nat j <= fib (3 * j + 2).
Proof.
  induction j as [ | j IH]; [simpl; lia | ].
  replace (3 * S j + 2)%nat with (S (S (S (S (S (3 * j)))))) by lia.
  replace (3 * j + 2)%nat with (S (S (3 * j))) in IH by lia.
  rewrite Nat2Z.inj_succ, Z.pow_succ_r by lia.
  generalize dependent (3 * j)%nat. intros n IH.
  pose proof (fib_step n). pose proof (fib_step (S n)).
  pose proof (fib_step (S (S n))). pose proof (fib_step (S (S (S n)))).
  pose proof (fib_mono n).
  lia.
Qed.

(** On the consecutive Fibonacci numbers [fib k] and [fib (k + 1)] the
    recursion is [k] calls deep. *)
Lemma extended_gcd_rec_fib (k : nat) :
  (2 <= k)%nat ->
  forall frames,
    (frames < k)%nat ->
    _extended_gcd frames (fib k) (fib (S k)) = Raise RecursionError.
Proof.
  intros Hk. induction k as [ | k IH]; [lia | ].
  intros frames Hd. destruct frames as [ | frames]; [reflexivity | ].
  rewrite extended_gcd_rec_S.
  pose proof (fib_pos k) as [_ Hpos].
  destruct (Z.eqb_spec (fib (S k)) 0); [lia | ].
  destruct (Nat.eq_dec k 1) as [-> | Hk1].
  - assert (frames = 0)%nat by lia. subst frames. reflexivity.
  - rewrite fib_mod by lia. rewrite IH by lia. reflexivity.
Qed.

(** And no pair is deeper: a call on [0 <= a < b] that runs out of
    [frames + 1] frames has [a] and [b] at least as large as [fib] of
    [frames + 2] and [frames + 3]. *)
Lemma extended_gcd_rec_lame (frames : nat) :
  forall a b,
    0 <= a < b ->
    _extended_gcd (S frames) a b = Raise RecursionError ->
    fib (S (S frames)) <= a /\ fib (S (S (S frames))) <= b.
Proof.
  induction frames as [ | frames IH]; intros a b Hab H;
    rewrite extended_gcd_rec_S in H;
    destruct (Z.eqb_spec a 0) as [Ha | Ha]; try discriminate.
  - change (fib 2) with 1. change (fib 3) with 2. lia.
  - destruct (_extended_gcd (S frames) (b mod a) a) as [[[g1 x1] y1] | e | ] eqn:E;
      simpl in H; try discriminate.
    inversion H; subst e.
    assert (Hc : 0 <= b mod a < a) by (apply Z.mod_pos_bound; lia).
    destruct (IH _ _ Hc E) as [H1 H2].
    split; [assumption | ].
    rewrite (fib_step (S (S frames))).
    pose proof (Z.div_mod b a Ha) as Hdm.
    assert (1 <= b / a) by (apply Z.div_le_lower_bound; lia).
    nia.
Qed.

(** Hence the recursion fits in [frames] frames whenever the larger
    argument is below [fib (frames + 2)]. *)
Lemma extended_gcd_fits (frames : nat) (a b : Z) :
  0 <= a < b -> b < fib (S (S frames)) ->
  exists x y,
    _extended_gcd frames a b = Done (Z.gcd a b, x, y) /\ a * x + b * y = Z.gcd a b.
Proof.
  intros Hab Hb.
  destruct (_extended_gcd frames a b) as [[[g x] y] | e | ] eqn:E.
  - pose proof (extended_gcd_rec_gcd frames a b g x y ltac:(lia) ltac:(lia) E) as Hg.
    pose proof (extended_gcd_rec_bezout _ _ _ _ _ _ E) as Hbz.
    subst g. eauto.
  - pose proof (extended_gcd_rec_raise _ _ _ _ E). subst e.
    destruct frames as [ | frames].
    + change (fib 2) with 1 in Hb. lia.
    + destruct (extended_gcd_rec_lame _ _ _ Hab E) as [_ H2]. lia.
  - destruct (extended_gcd_rec_ends _ _ _ E).
Qed.

(** ** The modular inverse *)

(** For a positive modulus: a returned value is the inverse, the no-inverse
    error means that there is none, and the only other way out is
    [RecursionError], for a modulus of [fib (frames + 2)] or more. *)
Lemma modular_inverse_outcome (frames : nat) (a m : Z) :
  0 < m ->
  match _modular_inverse frames a m with
  | Done x => Z.gcd a m = 1 /\ 0 <= x < m /\ (a * x) mod m = 1 mod m
  | Raise e =>
      e = ValueError NoModularInverse /\ Z.gcd a m <> 1 \/
      e = RecursionError /\ fib (S (S frames)) <= m
  | Diverge => False
  end.
Proof.
  intros Hm. unfold _modular_inverse.
  rewrite py_mod_spec by lia. simpl obind.
  assert (Ham : 0 <= a mod m < m) by (apply Z.mod_pos_bound; lia).
  assert (Hg' : Z.gcd (a mod m) m = Z.gcd a m).
  { rewrite Z.gcd_mod by lia. apply Z.gcd_comm. }
  destruct (_extended_gcd frames (a mod m) m) as [[[g x] y] | e | ] eqn:E; simpl obind.
  - pose proof (extended_gcd_rec_gcd frames (a mod m) m g x y
                  ltac:(lia) ltac:(lia) E) as Hg.
    pose proof (extended_gcd_rec_bezout _ _ _ _ _ _ E) as Hbz.
    rewrite Hg' in Hg. subst g.
    destruct (Z.eqb_spec (Z.gcd a m) 1) as [H1 | H1]; simpl.
    + rewrite !py_mod_spec by lia. simpl obind. rewrite py_mod_spec by lia.
      split; [assumption | ].
      split; [apply Z.mod_pos_bound; lia | ].
      replace (x mod m + m) with (x mod m + 1 * m) by lia.
      rewrite Z.mod_add, Z.mod_mod by lia.
      rewrite Z.mul_mod_idemp_r by lia.
      rewrite <- Z.mul_mod_idemp_l by lia.
      replace (a mod m * x) with (1 + (- y) * m) by lia.
      rewrite Z.mod_add by lia. reflexivity.
    + left. split; [reflexivity | assumption].
  - right. pose proof (extended_gcd_rec_raise _ _ _ _ E). subst e.
    split; [reflexivity | ].
    destruct frames as [ | frames].
    + change (fib 2) with 1. lia.
    + destruct (extended_gcd_rec_lame _ _ _ Ham E) as [_ H2]. exact H2.
  - destruct (extended_gcd_rec_ends _ _ _ E).
Qed.

Lemma modular_inverse_coprime (frames : nat) (a m : Z) :
  0 < m -> m < fib (S (S frames)) -> Z.gcd a m = 1 ->
  exists x,
    _modular_inverse frames a m = Done x /\ 0 <= x < m /\ (a * x) mod m = 1 mod m.
Proof.
  intros Hm Hf Hg. pose proof (modular_inverse_outcome frames a m Hm) as Ho.
  destruct (_modular_inverse frames a m) as [x | e | ].
  - exists x. split; [reflexivity | apply Ho].
  - destruct Ho as [[_ Hne] | [_ Hbig]]; [contradiction | lia].
  - contradiction.
Qed.

Lemma modular_inverse_not_coprime (frames : nat) (a m : Z) :
  0 < m -> m < fib (S (S frames)) -> Z.gcd a m <> 1 ->
  _modular_inverse frames a m = Raise (ValueError NoModularInverse).
Proof.
  intros Hm Hf Hg. pose proof (modular_inverse_outcome frames a m Hm) as Ho.
  destruct (_modular_inverse frames a m) as [x | e | ].
  - destruct Ho as [H1 _]. contradiction.
  - destruct Ho as [[-> _] | [_ Hbig]]; [reflexivity | lia].
  - contradiction.
Qed.

(** Consecutive Fibonacci numbers are coprime, and their inverse is out of
    reach: the recursion is one call deeper than the frames. *)
Lemma fib_coprime (k : nat) : Z.gcd (fib k) (fib (S k)) = 1.
Proof.
  induction k as [ | k IH]; [reflexivity | ].
  rewrite fib_step, Z.add_comm, Z.gcd_add_diag_r, Z.gcd_comm. exact IH.
Qed.

Lemma modular_inverse_fib_deeper (frames k : nat) :
  (frames <= k)%nat ->
  _modular_inverse frames (fib (S k)) (fib (S (S k))) = Raise RecursionError.
Proof.
  intros Hle. destruct k as [ | k].
  - replace frames with 0%nat by lia. reflexivity.
  - pose proof (fib_pos k) as [_ H1]. pose proof (fib_pos (S k)) as [_ H2].
    pose proof (fib_step (S k)) as H3.
    unfold _modular_inverse. rewrite py_mod_spec by lia. cbn [obind].
    rewrite Z.mod_small by lia.
    rewrite extended_gcd_rec_fib by lia. reflexivity.
Qed.

Lemma modular_inverse_fib (frames : nat) :
  _modular_inverse frames (fib (S frames)) (fib (S (S frames))) = Raise RecursionError.
Proof. apply modular_inverse_fib_deeper. lia. Qed.

(** ** Arithmetic modulo [n] and [n * n] *)

Lemma divide_mul_coprime (p q x : Z) :
  Z.gcd p q = 1 -> (p | x) -> (q | x) -> (p * q | x).
Proof.
  intros Hg Hp [y ->].
  assert (Hpy : (p | y)).
  { apply Z.gauss with (m := q); [ | assumption]. rewrite Z.mul_comm. assumption. }
  destruct Hpy as [z ->]. exists z. ring.
Qed.

Lemma mod_one_divide (x m : Z) : 1 < m -> x mod m = 1 -> (m | x - 1).
Proof.
  intros Hm Hx. apply Z.mod_divide; [lia | ].
  apply Z.cong_iff_0. rewrite Hx. symmetry. apply Z.mod_small. lia.
Qed.

Lemma divide_mod_one (x m : Z) : 1 < m -> (m | x - 1) -> x mod m = 1.
Proof.
  intros Hm [k Hk]. replace x with (1 + k * m) by lia.
  rewrite Z.mod_add by lia. apply Z.mod_small. lia.
Qed.

(** [(1 + t n) ^ k = 1 + k t n] modulo [n * n]. *)
Lemma one_plus_multiple_pow (n t k : Z) :
  n <> 0 -> 0 <= k ->
  ((1 + t * n) ^ k) mod (n * n) = (1 + k * t * n) mod (n * n).
Proof.
  intros Hn Hk. pattern k. apply natlike_ind; [ | | assumption].
  - reflexivity.
  - intros j Hj IH. rewrite Z.pow_succ_r by assumption.
    rewrite Z.mul_mod, IH, <- Z.mul_mod by nia.
    replace ((1 + t * n) * (1 + j * t * n))
      with (1 + Z.succ j * t * n + (j * t * t) * (n * n)) by ring.
    apply Z.mod_add. nia.
Qed.

(** Powers of a residue that is [1]. *)
Lemma pow_mod_one (x m k : Z) :
  1 < m -> 0 <= k -> x mod m = 1 -> (x ^ k) mod m = 1.
Proof.
  intros Hm Hk Hx. pattern k. apply natlike_ind; [ | | assumption].
  - apply Z.mod_small. lia.
  - intros j Hj IH. rewrite Z.pow_succ_r by assumption.
    rewrite Z.mul_mod, Hx, IH by lia. apply Z.mod_small. lia.
Qed.

(** Fermat's little theorem, for an exponent that [p - 1] divides. *)
Lemma fermat_multiple (p r e : Z) :
  Z.prime p -> Z.gcd r p = 1 -> 0 <= e -> (p - 1 | e) -> (r ^ e) mod p = 1.
Proof.
  intros Hp Hr He [k Hk].
  pose proof (Z.prime_ge_2 p Hp) as Hp2.
  assert (Hnz : r mod p <> 0).
  { intros H0. apply Z.mod_divide in H0; [ | lia].
    assert (Hd : (p | Z.gcd r p))
      by (apply Z.gcd_divide_iff; split; [assumption | apply Z.divide_refl]).
    rewrite Hr in Hd. apply Z.divide_1_r in Hd. lia. }
  pose proof (Z.fermat_nz p r Hp Hnz) as Hf.
  destruct (Z.eq_dec p 2) as [-> | Hp3].
  - change (2 - 1) with 1 in *. rewrite Z.pow_1_r in Hf.
    apply pow_mod_one; [lia | assumption | assumption].
  - assert (0 <= k) by nia.
    subst e. rewrite Z.mul_comm, Z.pow_mul_r by lia.
    apply pow_mod_one; [lia | assumption | assumption].
Qed.

Lemma gcd_factor_l (r p q : Z) : Z.gcd r (p * q) = 1 -> Z.gcd r p = 1.
Proof.
  intros H. apply Z.divide_1_r_nonneg; [apply Z.gcd_nonneg | ].
  rewrite <- H. apply Z.gcd_divide_iff. split; [apply Z.gcd_divide_l | ].
  apply Z.divide_trans with p; [apply Z.gcd_divide_r | apply Z.divide_factor_l].
Qed.

(** The exponent [lambda] kills every unit modulo [p * q]. *)
Lemma carmichael_two_primes (p q r e : Z) :
  Z.prime p -> Z.prime q -> p <> q ->
  Z.gcd r (p * q) = 1 -> 0 <= e -> (p - 1 | e) -> (q - 1 | e) ->
  (r ^ e) mod (p * q) = 1.
Proof.
  intros Hp Hq Hpq Hr He Hdp Hdq.
  pose proof (Z.prime_ge_2 p Hp) as Hp2. pose proof (Z.prime_ge_2 q Hq) as Hq2.
  assert (Hrp : Z.gcd r p = 1) by (apply gcd_factor_l with q; assumption).
  assert (Hrq : Z.gcd r q = 1)
    by (apply gcd_factor_l with p; rewrite Z.mul_comm; assumption).
  assert (Hcop : Z.gcd p q = 1).
  { apply Z.coprime_prime_l; [assumption | ].
    intros Hd. apply Hpq. apply Z.divide_prime_prime; assumption. }
  apply divide_mod_one; [nia | ].
  apply divide_mul_coprime; [assumption | | ].
  - apply mod_one_divide; [lia | ]. apply fermat_multiple; assumption.
  - apply mod_one_divide; [lia | ]. apply fermat_multiple; assumption.
Qed.

(** ** What decryption computes on a well-formed ciphertext *)

Section Decryption.

Variables n lam mu : Z.
Hypothesis n_gt_1 : 1 < n.
Hypothesis lam_nonneg : 0 <= lam.
Hypothesis lam_kills_units : forall s, Z.gcd s n = 1 -> (s ^ lam) mod n = 1.
Hypothesis mu_inverse : (lam * mu) mod n = 1.

(** The [n]-th power of a unit, raised to [lambda], is [1] modulo [n * n]. *)
Lemma blinding_vanishes (s : Z) :
  Z.gcd s n = 1 -> ((s ^ n) ^ lam) mod (n * n) = 1.
Proof.
  intros Hs. rewrite <- Z.pow_mul_r, Z.mul_comm, Z.pow_mul_r by lia.
  pose proof (lam_kills_units s Hs) as H1.
  pose proof (Z.div_mod (s ^ lam) n ltac:(lia)) as Hdm. rewrite H1 in Hdm.
  replace (s ^ lam) with (1 + (s ^ lam / n) * n) by lia.
  rewrite one_plus_multiple_pow by lia.
  replace (1 + n * (s ^ lam / n) * n) with (1 + (s ^ lam / n) * (n * n)) by ring.
  rewrite Z.mod_add by nia. apply Z.mod_small. nia.
Qed.

(** [L(c ^ lambda mod n * n) * mu mod n] on [c = (1 + n) ^ m * s ^ n]. *)
Lemma decrypt_formula (c m s : Z) :
  0 <= m -> Z.gcd s n = 1 ->
  c mod (n * n) = ((1 + n) ^ m * s ^ n) mod (n * n) ->
  (((c ^ lam) mod (n * n) - 1) / n * mu) mod n = m mod n.
Proof.
  intros Hm Hs Hc.
  assert (Hnn : n * n <> 0) by nia.
  assert (Hu : (c ^ lam) mod (n * n) = 1 + ((m * lam) mod n) * n).
  { rewrite <- Z.mod_pow_l, Hc, Z.mod_pow_l.
    rewrite Z.pow_mul_l, <- Z.pow_mul_r by lia.
    rewrite Z.mul_mod, blinding_vanishes, Z.mul_1_r, Z.mod_mod by assumption.
    replace (1 + n) with (1 + 1 * n) by ring.
    rewrite one_plus_multiple_pow by nia.
    pose proof (Z.div_mod (m * lam) n ltac:(lia)) as Hdm.
    pose proof (Z.mod_pos_bound (m * lam) n ltac:(lia)) as Hb.
    replace (1 + m * lam * 1 * n)
      with (1 + (m * lam) mod n * n + (m * lam / n) * (n * n)) by nia.
    rewrite Z.mod_add by assumption. apply Z.mod_small. nia. }
  rewrite Hu.
  replace (1 + (m * lam) mod n * n - 1) with ((m * lam) mod n * n) by ring.
  rewrite Z.div_mul by lia.
  rewrite Z.mul_mod_idemp_l by lia.
  rewrite <- Z.mul_assoc, <- Z.mul_mod_idemp_r, mu_inverse, Z.mul_1_r by lia.
  reflexivity.
Qed.

(** Modulo [n] the factor [(1 + n) ^ m] of a ciphertext disappears. *)
Lemma plaintext_factor_mod_n (m x : Z) :
  0 <= m -> (((1 + n) ^ m * x) mod (n * n)) mod n = x mod n.
Proof.
  intros Hm.
  rewrite Z.mod_mod_divide by (exists n; reflexivity).
  rewrite Z.mul_mod by lia.
  rewrite (pow_mod_one (1 + n) n m); [ | lia | lia | ].
  - rewrite Z.mul_1_l, Z.mod_mod by lia. reflexivity.
  - replace (1 + n) with (1 + 1 * n) by ring.
    rewrite Z.mod_add by lia. apply Z.mod_small. lia.
Qed.

(** Taking [n]-th powers is injective on the units below [n]:
    [lam * mu = 1 + t * n], and [r ^ (lam * mu)] is both [1] and
    [r * (r ^ n) ^ t] modulo [n]. *)
Lemma nth_power_injective (r1 r2 : Z) :
  0 <= mu ->
  1 <= r1 < n -> 1 <= r2 < n -> Z.gcd r1 n = 1 -> Z.gcd r2 n = 1 ->
  (r1 ^ n) mod n = (r2 ^ n) mod n ->
  r1 = r2.
Proof.
  intros Hmu Hr1 Hr2 Hg1 Hg2 Hpow.
  pose proof (Z.div_mod (lam * mu) n ltac:(lia)) as Hdm.
  rewrite mu_inverse in Hdm.
  assert (Ht : 0 <= lam * mu / n) by (apply Z.div_pos; nia).
  set (t := lam * mu / n) in *.
  assert (Hone : forall r, Z.gcd r n = 1 -> (r * (r ^ n) ^ t) mod n = 1).
  { intros r Hr.
    replace (r * (r ^ n) ^ t) with (r ^ (lam * mu)).
    - rewrite Z.pow_mul_r by lia.
      apply pow_mod_one; [lia | lia | apply lam_kills_units; assumption].
    - rewrite Hdm, Z.pow_add_r, Z.pow_1_r, Z.pow_mul_r by nia. ring. }
  assert (Hy : ((r1 ^ n) ^ t) mod n = ((r2 ^ n) ^ t) mod n).
  { rewrite <- Z.mod_pow_l, Hpow, Z.mod_pow_l. reflexivity. }
  pose proof (Hone r1 Hg1) as H1. pose proof (Hone r2 Hg2) as H2.
  rewrite <- Z.mul_mod_idemp_r, Hy, Z.mul_mod_idemp_r in H1 by lia.
  set (y := (r2 ^ n) ^ t) in *.
  assert (Heq : r1 mod n = r2 mod n).
  { transitivity ((r1 * (r2 * y)) mod n).
    - rewrite <- Z.mul_mod_idemp_r, H2, Z.mul_1_r by lia. reflexivity.
    - replace (r1 * (r2 * y)) with (r2 * (r1 * y)) by ring.
      rewrite <- Z.mul_mod_idemp_r, H1, Z.mul_1_r by lia. reflexivity. }
  rewrite !Z.mod_small in Heq by lia. assumption.
Qed.

End Decryption.

(** ** Reasoning about the two monads *)

Lemma obind_Done_inv {A B : Type} (x : outcome A) (k : A -> outcome B) (b : B) :
  obind x k = Done b -> exists a, x = Done a /\ k a = Done b.
Proof. destruct x; simpl; intros H; try discriminate. eauto. Qed.

Lemma bind_Done_inv {A B : Type} (x : M A) (k : A -> M B) (s s' : nat) (b : B) :
  bind x k s = (Done b, s') ->
  exists a s1, x s = (Done a, s1) /\ k a s1 = (Done b, s').
Proof.
  unfold bind. destruct (x s) as [[a | e | ] s1]; intros H; try discriminate. eauto.
Qed.

Lemma lift_Done_inv {A : Type} (x : outcome A) (s s' : nat) (a : A) :
  lift x s = (Done a, s') -> x = Done a /\ s' = s.
Proof. unfold lift. intros H. inversion H. auto. Qed.

Lemma ret_Done_inv {A : Type} (a b : A) (s s' : nat) :
  ret a s = (Done b, s') -> a = b /\ s' = s.
Proof. unfold ret. intros H. inversion H. auto. Qed.

(** ** The Miller-Rabin test always answers *)

Lemma halve_while_even_pos (d : positive) (r : Z) :
  0 <= r -> 0 <= fst (halve_while_even d r).
Proof.
  revert r. induction d as [d IH | d IH | ]; intros r Hr; simpl; try lia.
  apply IH. lia.
Qed.

Lemma mr_decompose_pos (d : Z) :
  0 < d -> exists r o, mr_decompose d = Done (r, o) /\ 0 < o.
Proof.
  intros Hd. destruct d as [ | d | d]; try lia. simpl.
  destruct (halve_while_even d 0) as [r o]. exists r, (Zpos o). split; [reflexivity | lia].
Qed.

Lemma mr_square_loop_total (k : nat) :
  forall x n, n <> 0 -> exists b, mr_square_loop k x n = Done b.
Proof.
  induction k as [ | k IH]; intros x n Hn; simpl.
  - eauto.
  - rewrite py_pow_spec by lia. simpl.
    destruct (_ =? _); [eauto | apply IH; assumption].
Qed.

Lemma mr_rounds_total (rnd : nat -> Z) (k : nat) :
  forall n d r s, 5 <= n -> 0 <= d ->
    exists b s', mr_rounds rnd k n d r s = (Done b, s') /\ (s <= s' <= s + k)%nat.
Proof.
  induction k as [ | k IH]; intros n d r s Hn Hd; simpl.
  - exists true, s. unfold ret. split; [reflexivity | lia].
  - unfold bind at 1. unfold randrange.
    destruct (Z.leb_spec (n - 1) 2); [lia | ].
    unfold bind at 1. unfold lift at 1. rewrite py_pow_spec by lia.
    destruct (IH n d r (S s) Hn Hd) as (b1 & s1 & E1 & Hs1).
    destruct (_ || _); [exists b1, s1; split; [assumption | lia] | ].
    unfold bind at 1. unfold lift at 1.
    destruct (mr_square_loop_total (Z.to_nat (r - 1))
                ((2 + rnd s mod (n - 1 - 2)) ^ d mod n) n ltac:(lia)) as [b ->].
    destruct b.
    + exists false, (S s). unfold ret. split; [reflexivity | lia].
    + exists b1, s1. split; [assumption | lia].
Qed.

Lemma miller_rabin_test_total (rnd : nat -> Z) (n rounds : Z) (s : nat) :
  exists b s', _miller_rabin_test rnd n rounds s = (Done b, s') /\ (s <= s')%nat.
Proof.
  unfold _miller_rabin_test.
  destruct (Z.ltb_spec n 2); [exists false, s; split; [reflexivity | lia] | ].
  destruct (Z.eqb_spec n 2); [exists true, s; split; [reflexivity | lia] | ].
  destruct (Z.eqb_spec n 3); [exists true, s; split; [reflexivity | lia] | ].
  simpl orb. cbv iota.
  destruct (Z.eqb_spec (n mod 2) 0) as [He | Ho];
    [exists false, s; split; [reflexivity | lia] | ].
  assert (Hn : 5 <= n).
  { destruct (Z.eq_dec n 4) as [-> | ]; [exfalso; apply Ho; reflexivity | lia]. }
  destruct (mr_decompose_pos (n - 1) ltac:(lia)) as (r & o & E & Ho').
  unfold bind, lift. rewrite E. simpl fst. simpl snd.
  destruct (mr_rounds_total rnd (Z.to_nat rounds) n o r s Hn ltac:(lia))
    as (b & s' & E' & Hs').
  exists b, s'. split; [assumption | lia].
Qed.

Lemma miller_rabin_test_true_ge_2 (rnd : nat -> Z) (n rounds : Z) (s s' : nat) :
  _miller_rabin_test rnd n rounds s = (Done true, s') -> 2 <= n.
Proof.
  unfold _miller_rabin_test. destruct (Z.ltb_spec n 2); [ | lia].
  unfold ret. intros Hr. inversion Hr.
Qed.

(** ** The candidates of the prime generator *)

(** Forcing the top and the bottom bit gives an odd number of exactly
    [bits] bits. *)
Lemma candidate_shape (x bits : Z) :
  1 <= bits -> 0 <= x < 2 ^ bits ->
  let c := Z.lor (Z.lor x (Z.shiftl 1 (bits - 1))) 1 in
  2 ^ (bits - 1) <= c < 2 ^ bits /\ Z.odd c = true.
Proof.
  intros Hb Hx c.
  assert (Htop : Z.shiftl 1 (bits - 1) = 2 ^ (bits - 1))
    by (rewrite Z.shiftl_1_l; reflexivity).
  assert (Hpow : 0 < 2 ^ (bits - 1)) by (apply Z.pow_pos_nonneg; lia).
  assert (Hc0 : 0 <= c).
  { unfold c. apply Z.lor_nonneg. split; [ | lia].
    apply Z.lor_nonneg. split; [lia | rewrite Htop; lia]. }
  assert (Hbit : Z.testbit c (bits - 1) = true).
  { unfold c. rewrite !Z.lor_spec, Htop, Z.pow2_bits_true by lia.
    rewrite orb_true_r. reflexivity. }
  assert (Hhigh : forall i, bits <= i -> Z.testbit c i = false).
  { intros i Hi. unfold c. rewrite !Z.lor_spec, Htop.
    rewrite Z.pow2_bits_false by lia.
    replace (Z.testbit 1 i) with false
      by (symmetry; apply Z.bits_above_log2; simpl; lia).
    rewrite !orb_false_r.
    destruct (Z.eq_dec x 0) as [-> | Hx0]; [apply Z.bits_0 | ].
    apply Z.bits_above_log2; [lia | ].
    apply Z.lt_le_trans with bits; [apply Z.log2_lt_pow2; lia | assumption]. }
  assert (Hcpos : 0 < c).
  { destruct (Z.eq_dec c 0) as [Hz | ]; [ | lia].
    rewrite Hz, Z.bits_0 in Hbit. discriminate. }
  split; [split | ].
  - destruct (Z.lt_ge_cases c (2 ^ (bits - 1))) as [Hlt | ]; [ | assumption].
    apply Z.log2_lt_pow2 in Hlt; [ | assumption].
    rewrite Z.bits_above_log2 in Hbit by lia. discriminate.
  - apply Z.log2_lt_pow2; [assumption | ].
    destruct (Z.lt_ge_cases (Z.log2 c) bits) as [ | Hge]; [assumption | ].
    pose proof (Z.bit_log2 c Hcpos) as Hl. rewrite Hhigh in Hl by assumption.
    discriminate.
  - unfold c. rewrite <- Z.bit0_odd, Z.lor_spec. apply orb_true_r.
Qed.

(** What [_generate_prime] has done after [fuel] iterations: it is still
    looping, or it has returned a candidate that went through the filter and
    the test.  It has no way to fail. *)
Lemma generate_prime_outcome (rnd : nat -> Z) (bits : Z) (fuel : nat) :
  1 <= bits ->
  forall s,
    match _generate_prime rnd fuel bits s with
    | (Done c, s') =>
        2 ^ (bits - 1) <= c < 2 ^ bits /\ Z.odd c = true /\
        has_small_factor c = false /\
        exists s0, _miller_rabin_test rnd c 10 s0 = (Done true, s')
    | (Raise _, _) => False
    | (Diverge, _) => True
    end.
Proof.
  intros Hb. induction fuel as [ | fuel IH]; intros s; simpl.
  - exact I.
  - unfold bind at 1. unfold getrandbits.
    destruct (Z.ltb_spec bits 0); [lia | ].
    unfold bind at 1. unfold lift at 1, py_shiftl.
    destruct (Z.ltb_spec (bits - 1) 0); [lia | ].
    set (c := Z.lor (Z.lor (rnd s mod 2 ^ bits) (Z.shiftl 1 (bits - 1))) 1).
    destruct (has_small_factor c) eqn:Hsf; [apply IH | ].
    unfold bind.
    destruct (miller_rabin_test_total rnd c 10 (S s)) as (b & s' & E & _).
    rewrite E. destruct b; [ | apply IH].
    unfold ret.
    pose proof (candidate_shape (rnd s mod 2 ^ bits) bits Hb) as Hshape.
    destruct Hshape as [Hr Ho].
    { apply Z.mod_pos_bound. apply Z.pow_pos_nonneg; lia. }
    repeat split; try apply Hr; try assumption. eauto.
Qed.

Lemma generate_prime_Done (rnd : nat -> Z) (bits : Z) (fuel : nat) (s s' : nat) (c : Z) :
  1 <= bits ->
  _generate_prime rnd fuel bits s = (Done c, s') ->
  2 ^ (bits - 1) <= c < 2 ^ bits /\ Z.odd c = true.
Proof.
  intros Hb E. pose proof (generate_prime_outcome rnd bits fuel Hb s) as H.
  rewrite E in H. tauto.
Qed.

Lemma redraw_while_equal_Done (rnd : nat -> Z) (bits p : Z) (fuel : nat) (k : nat) :
  1 <= bits ->
  forall q s s' q',
    2 ^ (bits - 1) <= q < 2 ^ bits ->
    redraw_while_equal rnd k fuel bits p q s = (Done q', s') ->
    p <> q' /\ 2 ^ (bits - 1) <= q' < 2 ^ bits.
Proof.
  intros Hb. induction k as [ | k IH]; intros q s s' q' Hq E; simpl in E.
  - destruct (Z.eqb_spec p q); [discriminate | ].
    apply ret_Done_inv in E. destruct E as [-> _]. auto.
  - destruct (Z.eqb_spec p q).
    + apply bind_Done_inv in E. destruct E as (q1 & s1 & E1 & E2).
      apply generate_prime_Done in E1; [ | assumption].
      apply IH in E2; [assumption | apply E1].
    + apply ret_Done_inv in E. destruct E as [-> _]. auto.
Qed.

Lemma generate_primes_Done (rnd : nat -> Z) (fuel : nat) (self : PaillierCore)
    (s s' : nat) (p q : Z) :
  1 <= bit_length self / 2 ->
  generate_primes rnd fuel self s = (Done (p, q), s') ->
  p <> q /\
  2 ^ (bit_length self / 2 - 1) <= p < 2 ^ (bit_length self / 2) /\
  2 ^ (bit_length self / 2 - 1) <= q < 2 ^ (bit_length self / 2).
Proof.
  intros Hb E. unfold generate_primes in E.
  apply bind_Done_inv in E. destruct E as (p1 & s1 & E1 & E).
  apply bind_Done_inv in E. destruct E as (q1 & s2 & E2 & E).
  apply bind_Done_inv in E. destruct E as (q2 & s3 & E3 & E).
  apply ret_Done_inv in E. destruct E as [E _]. inversion E; subst.
  apply generate_prime_Done in E1; [ | assumption].
  apply generate_prime_Done in E2; [ | assumption].
  apply redraw_while_equal_Done in E3; [ | assumption | apply E2].
  tauto.
Qed.

(** ** The key material *)

Lemma compute_lcm_spec (a b : Z) :
  Z.gcd a b <> 0 -> _compute_lcm a b = Done (Z.lcm a b).
Proof.
  intros Hg. unfold _compute_lcm. rewrite py_floordiv_spec by assumption.
  f_equal. unfold Z.lcm.
  destruct (Z.gcd_divide_r a b) as [k Hk].
  pose proof (Z.gcd_nonneg a b) as Hnn.
  rewrite Hk at 3. rewrite Z.div_mul by assumption.
  replace (a * b) with (a * k * Z.gcd a b) by (rewrite Hk at 2; ring).
  rewrite Z.abs_mul, (Z.abs_eq (Z.gcd a b)) by assumption.
  apply Z.div_mul. assumption.
Qed.

Lemma keys_from_primes_Done (frames : nat) (self pc : PaillierCore) (p q : Z) :
  2 <= p -> 2 <= q ->
  keys_from_primes frames self p q = Done pc ->
  key_of pc p q /\ bit_length pc = bit_length self.
Proof.
  intros Hp Hq E. unfold keys_from_primes in E.
  assert (Hg : Z.gcd (p - 1) (q - 1) <> 0).
  { intros H0. apply Z.gcd_eq_0_l in H0. lia. }
  rewrite compute_lcm_spec in E by assumption. simpl obind in E.
  assert (Hn : 0 < p * q) by nia.
  pose proof (modular_inverse_outcome frames (Z.lcm (p - 1) (q - 1)) (p * q) Hn) as Ho.
  destruct (_modular_inverse frames (Z.lcm (p - 1) (q - 1)) (p * q)) as [mu | e | ];
    simpl in E; try discriminate.
  destruct Ho as (Hc & Hmu & Hinv).
  inversion E; subst pc. simpl.
  split; [ | reflexivity].
  constructor; simpl; try reflexivity; try assumption.
  exists mu. split; [reflexivity | split; [assumption | ]].
  rewrite Hinv. apply Z.mod_small. nia.
Qed.

Lemma init_Done (rnd : nat -> Z) (frames fuel : nat) (bits : Z) (s s' : nat)
    (pc : PaillierCore) :
  __init__ rnd frames fuel bits s = (Done pc, s') ->
  512 <= bits /\ bit_length pc = bits /\
  exists p q,
    p <> q /\
    2 ^ (bits / 2 - 1) <= p < 2 ^ (bits / 2) /\
    2 ^ (bits / 2 - 1) <= q < 2 ^ (bits / 2) /\
    key_of pc p q.
Proof.
  unfold __init__. destruct (Z.ltb_spec bits 512) as [ | Hb]; [discriminate | ].
  intros E. unfold _generate_keypair in E.
  apply bind_Done_inv in E. destruct E as ([p q] & s1 & E1 & E2).
  apply lift_Done_inv in E2. destruct E2 as [E2 _]. simpl in E2.
  assert (Hbits : 256 <= bits / 2) by (apply Z.div_le_lower_bound; lia).
  apply generate_primes_Done in E1; [ | simpl; lia]. simpl in E1.
  destruct E1 as (Hpq & Hp & Hq).
  assert (Hpow : 2 <= 2 ^ (bits / 2 - 1)).
  { change 2 with (2 ^ 1) at 1. apply Z.pow_le_mono_r; lia. }
  apply keys_from_primes_Done in E2; [ | lia | lia]. simpl in E2.
  destruct E2 as [Hk Hbl]. split; [assumption | split; [assumption | ]].
  exists p, q. auto.
Qed.

Lemma ready_key (pc : PaillierCore) :
  ready pc ->
  exists p q, 2 <= p /\ 2 <= q /\ p <> q /\ key_of pc p q.
Proof.
  intros (rnd & frames & fuel & bits & s & s' & E).
  apply init_Done in E. destruct E as (Hb & _ & p & q & Hpq & Hp & Hq & Hk).
  assert (Hbits : 256 <= bits / 2) by (apply Z.div_le_lower_bound; lia).
  assert (Hpow : 2 <= 2 ^ (bits / 2 - 1)).
  { change 2 with (2 ^ 1) at 1. apply Z.pow_le_mono_r; lia. }
  exists p, q. split; [lia | split; [lia | split; assumption]].
Qed.

Lemma after_calls_same (rnd : nat -> Z) (cs : list call) :
  forall self s, after_calls rnd self cs s = self.
Proof.
  induction cs as [ | c cs IH]; intros self s; simpl.
  - reflexivity.
  - destruct c; simpl; try apply IH.
    destruct (encrypt rnd fuel self plaintext s). apply IH.
Qed.

(** ** The blinding factor *)

Lemma draw_blinding_outcome (rnd : nat -> Z) (n : Z) (fuel : nat) :
  1 < n ->
  forall s,
    match draw_blinding rnd fuel n s with
    | (Done r, _) => 1 <= r < n /\ Z.gcd r n = 1
    | (Raise _, _) => False
    | (Diverge, _) => True
    end.
Proof.
  intros Hn. induction fuel as [ | fuel IH]; intros s; simpl.
  - exact I.
  - unfold bind, randrange. destruct (Z.leb_spec n 1); [lia | ].
    destruct (Z.eqb_spec (Z.gcd (1 + rnd s mod (n - 1)) n) 1) as [Hg | Hg].
    + unfold ret. split; [ | assumption].
      pose proof (Z.mod_pos_bound (rnd s) (n - 1) ltac:(lia)). lia.
    + apply IH.
Qed.

Lemma draw_blinding_enough (rnd : nat -> Z) (n : Z) (k : nat) :
  1 < n ->
  forall s,
    Z.gcd (1 + rnd (s + k)%nat mod (n - 1)) n = 1 ->
    exists r s', draw_blinding rnd (S k) n s = (Done r, s').
Proof.
  intros Hn. induction k as [ | k IH]; intros s Hg.
  - simpl. unfold bind, randrange. destruct (Z.leb_spec n 1); [lia | ].
    replace (s + 0)%nat with s in Hg by lia.
    rewrite Hg. simpl. unfold ret. eauto.
  - cbn [draw_blinding]. unfold bind at 1. unfold randrange at 1.
    destruct (Z.leb_spec n 1); [lia | ].
    destruct (Z.gcd (1 + rnd s mod (n - 1)) n =? 1); [unfold ret; eauto | ].
    apply IH. replace (S s + k)%nat with (s + S k)%nat by lia. assumption.
Qed.

Lemma encrypt_with_spec (pc : PaillierCore) (p q m r : Z) :
  2 <= p -> 2 <= q -> key_of pc p q -> 0 <= m ->
  encrypt_with pc (p * q) (p * q + 1) m r =
    Done ((((p * q + 1) ^ m) mod (p * q * (p * q)) *
           ((r ^ (p * q)) mod (p * q * (p * q)))) mod (p * q * (p * q))).
Proof.
  intros Hp Hq Hk Hm. unfold encrypt_with, get_n_squared.
  rewrite (key_n_squared _ _ _ Hk). simpl obind.
  assert (Hn : p * q * (p * q) <> 0) by nia.
  rewrite !py_pow_spec by nia. simpl obind.
  rewrite py_mod_spec by assumption. reflexivity.
Qed.

Lemma encrypt_outcome (rnd : nat -> Z) (pc : PaillierCore) (p q m : Z)
    (fuel : nat) (s : nat) :
  2 <= p -> 2 <= q -> key_of pc p q -> 0 <= m < p * q ->
  match encrypt rnd fuel pc m s with
  | (Done c, _) =>
      0 <= c < p * q * (p * q) /\
      exists r, 1 <= r < p * q /\ Z.gcd r (p * q) = 1 /\
                encrypt_with pc (p * q) (p * q + 1) m r = Done c
  | (Raise _, _) => False
  | (Diverge, _) => True
  end.
Proof.
  intros Hp Hq Hk Hm. unfold encrypt. rewrite (key_public _ _ _ Hk). simpl.
  destruct (Z.ltb_spec m 0); [lia | ].
  destruct (Z.geb_spec m (p * q)); [lia | ].
  unfold bind.
  pose proof (draw_blinding_outcome rnd (p * q) fuel ltac:(nia) s) as Hd.
  destruct (draw_blinding rnd fuel (p * q) s) as [[r | e | ] s1]; try assumption.
  unfold lift. rewrite encrypt_with_spec by (assumption || lia).
  split; [apply Z.mod_pos_bound; nia | ].
  exists r. split; [apply Hd | split; [apply Hd | ]].
  apply encrypt_with_spec; assumption || lia.
Qed.

Lemma encrypt_enough (rnd : nat -> Z) (pc : PaillierCore) (p q m : Z)
    (k : nat) (s : nat) :
  2 <= p -> 2 <= q -> key_of pc p q -> 0 <= m < p * q ->
  Z.gcd (1 + rnd (s + k)%nat mod (p * q - 1)) (p * q) = 1 ->
  exists c s', encrypt rnd (S k) pc m s = (Done c, s') /\ 0 <= c < p * q * (p * q).
Proof.
  intros Hp Hq Hk Hm Hg.
  unfold encrypt. rewrite (key_public _ _ _ Hk). cbn [pk_n pk_g].
  destruct (Z.ltb_spec m 0); [lia | ].
  destruct (Z.geb_spec m (p * q)); [lia | ].
  destruct (draw_blinding_enough rnd (p * q) k ltac:(nia) s Hg) as (r & s1 & E).
  unfold bind. rewrite E. unfold lift.
  rewrite encrypt_with_spec by (assumption || lia).
  eexists. eexists. split; [reflexivity | apply Z.mod_pos_bound; nia].
Qed.

Lemma encrypt_invalid (rnd : nat -> Z) (pc : PaillierCore) (p q m : Z)
    (fuel : nat) (s : nat) :
  key_of pc p q -> m < 0 \/ p * q <= m ->
  exists e, encrypt rnd fuel pc m s = (Raise e, s) /\ InvalidPlaintextError e.
Proof.
  intros Hk Hm. unfold encrypt. rewrite (key_public _ _ _ Hk). cbn [pk_n pk_g].
  destruct (Z.ltb_spec m 0).
  - eexists. split; [reflexivity | left; reflexivity].
  - destruct (Z.geb_spec m (p * q)); [ | lia].
    eexists. split; [reflexivity | right; reflexivity].
Qed.

(** ** Decryption on a ready object *)

Lemma decrypt_spec (pc : PaillierCore) (p q c : Z) :
  2 <= p -> 2 <= q -> key_of pc p q ->
  exists mu,
    private_key pc =
      Some {| sk_lambda := Z.lcm (p - 1) (q - 1); sk_mu := mu; sk_n := p * q |} /\
    (Z.lcm (p - 1) (q - 1) * mu) mod (p * q) = 1 /\
    decrypt pc c =
      Done ((((c ^ Z.lcm (p - 1) (q - 1)) mod (p * q * (p * q)) - 1) / (p * q) * mu)
              mod (p * q)).
Proof.
  intros Hp Hq Hk. destruct (key_private _ _ _ Hk) as (mu & Hsk & Hmu & Hinv).
  exists mu. split; [assumption | split; [assumption | ]].
  unfold decrypt, pow_n_squared, _L_function.
  rewrite Hsk, (key_n_squared _ _ _ Hk), (key_public _ _ _ Hk).
  cbn [obind sk_lambda sk_mu sk_n pk_n].
  rewrite py_pow_spec by (try apply Z.lcm_nonneg; nia). cbn [obind].
  rewrite py_floordiv_spec by nia. cbn [obind].
  rewrite py_mod_spec by nia. reflexivity.
Qed.

(** ** A primality certificate for numbers [k * 2 ^ s + 1] *)

Lemma prime_factor_exists (d : Z) :
  1 < d -> exists l, Z.prime l /\ (l | d).
Proof.
  intros Hd. assert (H0 : 0 <= d) by lia. revert Hd.
  pattern d. apply Z_lt_induction; [ | assumption].
  clear d H0. intros x IH Hx.
  destruct (prime_dec x) as [Hp | Hnp].
  - exists x. split; [apply prime_alt; assumption | apply Z.divide_refl].
  - destruct (not_prime_divide x Hx Hnp) as (n & Hn & Hdiv).
    destruct (IH n ltac:(lia) ltac:(lia)) as (l & Hl & Hln).
    exists l. split; [assumption | apply Z.divide_trans with n; assumption].
Qed.

(** An odd power of a residue that is [-1] is [-1]. *)
Lemma pow_mod_minus_one (x m e : Z) :
  2 < m -> 0 <= e -> Z.odd e = true -> x mod m = m - 1 -> (x ^ e) mod m = m - 1.
Proof.
  intros Hm He Ho Hx.
  rewrite (Z.div_mod e 2) by lia.
  rewrite Zmod_odd, Ho.
  assert (Hf : 0 <= e / 2) by (apply Z.div_pos; lia).
  rewrite Z.pow_add_r, Z.pow_1_r, Z.pow_mul_r by lia.
  assert (Hsq : (x ^ 2) mod m = 1).
  { rewrite Z.pow_2_r, Z.mul_mod, Hx by lia.
    replace ((m - 1) * (m - 1)) with (1 + (m - 2) * m) by ring.
    rewrite Z.mod_add by lia. apply Z.mod_small. lia. }
  rewrite Z.mul_mod, (pow_mod_one (x ^ 2) m (e / 2)), Hx by (assumption || lia).
  rewrite Z.mul_1_l. apply Z.mod_small. lia.
Qed.

(** If [b ^ (2 ^ (s - 1))] is [-1] modulo an odd prime [l], then [2 ^ s]
    divides [l - 1]. *)
Lemma two_power_divides_pred (l b s : Z) :
  Z.prime l -> 2 < l -> 1 <= s ->
  (b ^ (2 ^ (s - 1))) mod l = l - 1 ->
  (2 ^ s | l - 1).
Proof.
  intros Hl Hl2 Hs Hb.
  assert (Hbnz : b mod l <> 0).
  { intros H0. rewrite <- Z.mod_pow_l, H0 in Hb.
    rewrite Z.pow_0_l in Hb by (apply Z.pow_pos_nonneg; lia).
    rewrite Z.mod_0_l in Hb by lia. lia. }
  pose proof (Z.fermat_nz l b Hl Hbnz) as Hf.
  assert (Hall : forall j, 0 <= j -> j <= s -> (2 ^ j | l - 1)).
  { intros j Hj. pattern j. apply natlike_ind; [ | | assumption].
    - intros _. apply Z.divide_1_l.
    - intros i Hi IH His. destruct (IH ltac:(lia)) as [e He].
      destruct (Z.odd e) eqn:Hodd.
      + exfalso.
        assert (He0 : 0 <= e) by (pose proof (Z.pow_pos_nonneg 2 i); nia).
        pose proof (pow_mod_minus_one _ l e Hl2 He0 Hodd Hb) as Hm1.
        rewrite <- Z.pow_mul_r in Hm1 by (try apply Z.pow_nonneg; lia).
        replace (2 ^ (s - 1) * e) with ((l - 1) * 2 ^ (s - 1 - i)) in Hm1.
        * rewrite Z.pow_mul_r in Hm1 by (try apply Z.pow_nonneg; lia).
          rewrite (pow_mod_one (b ^ (l - 1)) l) in Hm1;
            [lia | lia | apply Z.pow_nonneg; lia | assumption].
        * rewrite He. replace (s - 1) with (i + (s - 1 - i)) at 2 by lia.
          rewrite Z.pow_add_r by lia. ring.
      + rewrite <- Z.negb_even in Hodd. apply negb_false_iff in Hodd.
        apply Z.even_spec in Hodd. destruct Hodd as [f ->].
        exists f. rewrite Z.pow_succ_r by assumption. lia. }
  apply Hall; lia.
Qed.

(** Proth's criterion, with the power computed by [powmod]. *)
Lemma proth_criterion (k s a : Z) :
  1 <= s -> 0 < k < 2 ^ s ->
  powmod a (k * 2 ^ (s - 1)) (k * 2 ^ s + 1) = k * 2 ^ s ->
  Z.prime (k * 2 ^ s + 1).
Proof.
  intros Hs Hk Hpow.
  assert (H2s : 2 ^ s = 2 * 2 ^ (s - 1)).
  { replace s with (Z.succ (s - 1)) at 1 by lia. apply Z.pow_succ_r. lia. }
  assert (Hhalf : 0 < 2 ^ (s - 1)) by (apply Z.pow_pos_nonneg; lia).
  set (N := k * 2 ^ s + 1) in *.
  assert (HN : 2 < N) by (unfold N; nia).
  rewrite powmod_spec in Hpow by nia.
  assert (Hfactor : forall l, Z.prime l -> (l | N) -> 2 ^ s < l).
  { intros l Hl Hdiv.
    pose proof (Z.prime_ge_2 l Hl) as Hl2.
    assert (Hodd : 2 < l).
    { destruct (Z.eq_dec l 2) as [-> | ]; [ | lia].
      exfalso. destruct Hdiv as [c Hc]. unfold N in Hc. lia. }
    assert (Hm1 : (a ^ (k * 2 ^ (s - 1))) mod l = l - 1).
    { rewrite <- (Z.mod_mod_divide _ N l Hdiv), Hpow.
      destruct Hdiv as [c Hc].
      replace (k * 2 ^ s) with (l - 1 + (c - 1) * l) by (unfold N in Hc; lia).
      rewrite Z.mod_add by lia. apply Z.mod_small. lia. }
    rewrite Z.pow_mul_r in Hm1 by lia.
    pose proof (two_power_divides_pred l (a ^ k) s Hl Hodd Hs Hm1) as Hd.
    apply Z.divide_pos_le in Hd; lia. }
  split; [lia | ].
  intros d Hd [e He].
  assert (He1 : 1 < e) by nia.
  destruct (prime_factor_exists d ltac:(lia)) as (l1 & Hl1 & Hd1).
  destruct (prime_factor_exists e He1) as (l2 & Hl2 & Hd2).
  assert (Hb1 : 2 ^ s < l1).
  { apply Hfactor; [assumption | ].
    apply Z.divide_trans with d; [assumption | exists e; assumption]. }
  assert (Hb2 : 2 ^ s < l2).
  { apply Hfactor; [assumption | ].
    apply Z.divide_trans with e; [assumption | exists d; lia]. }
  apply Z.divide_pos_le in Hd1; [ | lia].
  apply Z.divide_pos_le in Hd2; [ | lia].
  assert (Hprod : (2 ^ s + 1) * (2 ^ s + 1) <= e * d) by nia.
  unfold N in He. nia.
Qed.

Lemma sample_p_prime : Z.prime sample_p.
Proof.
  apply (proth_criterion 467 247 3); [lia | split; [lia | vm_compute; reflexivity] | ].
  vm_compute. reflexivity.
Qed.

Lemma sample_q_prime : Z.prime sample_q.
Proof.
  apply (proth_criterion 351 247 7); [lia | split; [lia | vm_compute; reflexivity] | ].
  vm_compute. reflexivity.
Qed.

(** ** Encryptions and the operations on them *)

Lemma encrypts_product (n a b c1 c2 : Z) :
  0 < n -> 0 <= a -> 0 <= b ->
  encrypts n a c1 -> encrypts n b c2 ->
  encrypts n (a + b) ((c1 * c2) mod (n * n)).
Proof.
  intros Hn Ha Hb (s1 & Hg1 & Hw1) (s2 & Hg2 & Hw2).
  assert (Hnn : n * n <> 0) by nia.
  exists (s1 * s2). split; [apply Z.coprime_mul_l; assumption | ].
  rewrite Z.mod_mod by assumption.
  rewrite Z.mul_mod, Hw1, Hw2, <- Z.mul_mod by assumption.
  f_equal. rewrite Z.pow_add_r, Z.pow_mul_l by lia. ring.
Qed.

Lemma encrypts_power (n a k c : Z) :
  0 < n -> 0 <= a -> 0 <= k ->
  encrypts n a c ->
  encrypts n (a * k) ((c ^ k) mod (n * n)).
Proof.
  intros Hn Ha Hk (s & Hg & Hw).
  assert (Hnn : n * n <> 0) by nia.
  exists (s ^ k). split; [apply Z.coprime_pow_l; assumption | ].
  rewrite Z.mod_mod by assumption.
  rewrite <- Z.mod_pow_l, Hw, Z.mod_pow_l.
  f_equal. rewrite Z.pow_mul_l, <- !Z.pow_mul_r by lia.
  f_equal. f_equal. ring.
Qed.

(** ** Decryption of well-formed ciphertexts under a key built from primes *)

Section PrimeKey.

Variables (pc : PaillierCore) (p q : Z).
Hypothesis p_prime : Z.prime p.
Hypothesis q_prime : Z.prime q.
Hypothesis p_neq_q : p <> q.
Hypothesis pc_key : key_of pc p q.

Lemma prime_key_bounds : 2 <= p /\ 2 <= q /\ 1 < p * q.
Proof.
  pose proof (Z.prime_ge_2 p p_prime). pose proof (Z.prime_ge_2 q q_prime).
  repeat split; nia.
Qed.

Lemma lambda_kills_units (s : Z) :
  Z.gcd s (p * q) = 1 -> (s ^ Z.lcm (p - 1) (q - 1)) mod (p * q) = 1.
Proof.
  intros Hs. apply carmichael_two_primes; try assumption.
  - apply Z.lcm_nonneg.
  - apply Z.divide_lcm_l.
  - apply Z.divide_lcm_r.
Qed.

Lemma decrypt_well_formed (c m s : Z) :
  0 <= m -> Z.gcd s (p * q) = 1 ->
  c mod (p * q * (p * q))
    = ((1 + p * q) ^ m * s ^ (p * q)) mod (p * q * (p * q)) ->
  decrypt pc c = Done (m mod (p * q)).
Proof.
  intros Hm Hs Hc. destruct prime_key_bounds as (Hp & Hq & Hn).
  destruct (decrypt_spec pc p q c Hp Hq pc_key) as (mu & _ & Hinv & E).
  rewrite E. f_equal.
  apply decrypt_formula with (s := s); try assumption.
  - apply Z.lcm_nonneg.
  - apply lambda_kills_units.
Qed.

Lemma encrypt_with_well_formed (m r : Z) :
  0 <= m ->
  exists c,
    encrypt_with pc (p * q) (p * q + 1) m r = Done c /\
    0 <= c < p * q * (p * q) /\
    c mod (p * q * (p * q))
      = ((1 + p * q) ^ m * r ^ (p * q)) mod (p * q * (p * q)).
Proof.
  intros Hm. destruct prime_key_bounds as (Hp & Hq & Hn).
  rewrite encrypt_with_spec by assumption.
  eexists. split; [reflexivity | ].
  assert (Hnn : p * q * (p * q) <> 0) by nia.
  split; [apply Z.mod_pos_bound; nia | ].
  rewrite Z.mod_mod, <- Z.mul_mod by assumption.
  rewrite (Z.add_comm (p * q) 1). reflexivity.
Qed.

(** Equal ciphertexts of one plaintext have equal blinding factors. *)
Lemma blinding_determined (m r1 r2 c : Z) :
  0 <= m ->
  1 <= r1 < p * q -> Z.gcd r1 (p * q) = 1 ->
  1 <= r2 < p * q -> Z.gcd r2 (p * q) = 1 ->
  encrypt_with pc (p * q) (p * q + 1) m r1 = Done c ->
  encrypt_with pc (p * q) (p * q + 1) m r2 = Done c ->
  r1 = r2.
Proof.
  intros Hm Hr1 Hg1 Hr2 Hg2 E1 E2.
  destruct prime_key_bounds as (Hp & Hq & Hn).
  destruct (encrypt_with_well_formed m r1 Hm) as (c1 & E1' & _ & Hc1).
  destruct (encrypt_with_well_formed m r2 Hm) as (c2 & E2' & _ & Hc2).
  rewrite E1 in E1'. rewrite E2 in E2'.
  inversion E1'; inversion E2'; subst c1 c2. clear E1' E2'.
  rewrite Hc1 in Hc2.
  destruct (key_private _ _ _ pc_key) as (mu & _ & Hmu & Hinv).
  apply (nth_power_injective (p * q) (Z.lcm (p - 1) (q - 1)) mu Hn
           (Z.lcm_nonneg _ _) lambda_kills_units Hinv);
    try assumption; try lia.
  rewrite <- (plaintext_factor_mod_n (p * q) Hn m (r1 ^ (p * q)) Hm).
  rewrite <- (plaintext_factor_mod_n (p * q) Hn m (r2 ^ (p * q)) Hm).
  rewrite Hc2. reflexivity.
Qed.

Lemma decrypt_encrypts (c m : Z) :
  0 <= m -> encrypts (p * q) m c -> decrypt pc c = Done (m mod (p * q)).
Proof.
  intros Hm (s & Hs & Hc). apply decrypt_well_formed with s; assumption.
Qed.

Lemma encrypt_with_encrypts (m r : Z) :
  0 <= m -> Z.gcd r (p * q) = 1 ->
  exists c,
    encrypt_with pc (p * q) (p * q + 1) m r = Done c /\ encrypts (p * q) m c.
Proof.
  intros Hm Hg. destruct (encrypt_with_well_formed m r Hm) as (c & E & _ & Hw).
  exists c. split; [assumption | exists r; split; assumption].
Qed.

Lemma encrypt_run_encrypts (rnd : nat -> Z) (fuel : nat) (m : Z) (s s' : nat) (c : Z) :
  0 <= m < p * q ->
  encrypt rnd fuel pc m s = (Done c, s') -> encrypts (p * q) m c.
Proof.
  intros Hm E. destruct prime_key_bounds as (Hp & Hq & Hn).
  pose proof (encrypt_outcome rnd pc p q m fuel s Hp Hq pc_key Hm) as Ho.
  rewrite E in Ho. destruct Ho as (_ & r & _ & Hg & Ew).
  destruct (encrypt_with_encrypts m r ltac:(lia) Hg) as (c' & E' & He).
  rewrite Ew in E'. inversion E'; subst c'. assumption.
Qed.

End PrimeKey.

(** ** Two runs of the constructor *)

Lemma sample_run :
  __init__ sample_rnd script_frames 2 512 0%nat = (Done sample_key, 23%nat).
Proof. vm_compute. reflexivity. Qed.

Lemma sample_key_of : key_of sample_key sample_p sample_q.
Proof.
  apply (keys_from_primes_Done script_frames (no_keys 512) sample_key sample_p sample_q).
  - vm_compute. discriminate.
  - vm_compute. discriminate.
  - vm_compute. reflexivity.
Qed.

Lemma sample_primes_differ : sample_p <> sample_q.
Proof. vm_compute. discriminate. Qed.

Lemma pseudo_run :
  __init__ pseudo_rnd script_frames 1 512 0%nat = (Done pseudo_key, 22%nat).
Proof. vm_compute. reflexivity. Qed.

Lemma pseudo_public_key :
  public_key pseudo_key = Some {| pk_n := pseudo_n; pk_g := pseudo_n + 1 |}.
Proof. vm_compute. reflexivity. Qed.

Lemma pseudo_prime_draws :
  generate_primes pseudo_rnd 1 (no_keys 512) 0%nat = (Done (pseudo_p, pseudo_q), 22%nat).
Proof. vm_compute. reflexivity. Qed.

(** The number that went through ten rounds is composite. *)
Lemma pseudo_p_composite : ~ Z.prime pseudo_p.
Proof.
  intros [_ H]. apply (H 37); [vm_compute; split; reflexivity | ].
  exists (149 * 19758639428235639228173038295949196672733165094470664464112290771108950201).
  vm_compute. reflexivity.
Qed.

Lemma pseudo_q_prime : Z.prime pseudo_q.
Proof.
  apply (proth_criterion 207 248 5); [lia | split; [lia | vm_compute; reflexivity] | ].
  vm_compute. reflexivity.
Qed.

(** ** The prime-generation loop *)

Lemma generate_prime_zero_diverges (fuel : nat) :
  forall s, fst (_generate_prime zero_rnd fuel 256 s) = Diverge.
Proof.
  induction fuel as [ | fuel IH]; intros s.
  - reflexivity.
  - cbn [_generate_prime]. unfold bind at 1. unfold getrandbits.
    change (256 <? 0) with false. cbv iota.
    unfold bind at 1. unfold lift at 1, py_shiftl.
    change (256 - 1 <? 0) with false. cbv iota.
    replace (has_small_factor
               (Z.lor (Z.lor (zero_rnd s mod 2 ^ 256) (Z.shiftl 1 (256 - 1))) 1))
      with true by (vm_compute; reflexivity).
    apply IH.
Qed.

(** ** The runs of the constructor *)

Lemma generate_prime_probable (rnd : nat -> Z) (bits : Z) (fuel : nat) (s s' : nat) (c : Z) :
  1 <= bits ->
  _generate_prime rnd fuel bits s = (Done c, s') -> probable_prime rnd bits c.
Proof.
  intros Hb E. pose proof (generate_prime_outcome rnd bits fuel Hb s) as H.
  rewrite E in H. destruct H as (H1 & H2 & H3 & s0 & H4).
  repeat split; try apply H1; try assumption. eauto.
Qed.

Lemma redraw_while_equal_probable (rnd : nat -> Z) (bits p : Z) (fuel : nat) (k : nat) :
  1 <= bits ->
  forall q s s' q',
    probable_prime rnd bits q ->
    redraw_while_equal rnd k fuel bits p q s = (Done q', s') ->
    p <> q' /\ probable_prime rnd bits q'.
Proof.
  intros Hb. induction k as [ | k IH]; intros q s s' q' Hq E; simpl in E.
  - destruct (Z.eqb_spec p q); [discriminate | ].
    apply ret_Done_inv in E. destruct E as [-> _]. auto.
  - destruct (Z.eqb_spec p q).
    + apply bind_Done_inv in E. destruct E as (q1 & s1 & E1 & E2).
      apply generate_prime_probable in E1; [ | assumption].
      apply IH in E2; assumption.
    + apply ret_Done_inv in E. destruct E as [-> _]. auto.
Qed.

Lemma generate_primes_probable (rnd : nat -> Z) (fuel : nat) (self : PaillierCore)
    (s s' : nat) (p q : Z) :
  1 <= bit_length self / 2 ->
  generate_primes rnd fuel self s = (Done (p, q), s') ->
  p <> q /\
  probable_prime rnd (bit_length self / 2) p /\
  probable_prime rnd (bit_length self / 2) q.
Proof.
  intros Hb E. unfold generate_primes in E.
  apply bind_Done_inv in E. destruct E as (p1 & s1 & E1 & E).
  apply bind_Done_inv in E. destruct E as (q1 & s2 & E2 & E).
  apply bind_Done_inv in E. destruct E as (q2 & s3 & E3 & E).
  apply ret_Done_inv in E. destruct E as [E _]. inversion E; subst.
  apply generate_prime_probable in E1; [ | assumption].
  apply generate_prime_probable in E2; [ | assumption].
  apply redraw_while_equal_probable in E3; [ | assumption | assumption].
  tauto.
Qed.

Lemma half_bits (bits : Z) : 512 <= bits -> 256 <= bits / 2.
Proof. intros H. apply Z.div_le_lower_bound; lia. Qed.

Lemma init_probable_primes (rnd : nat -> Z) (frames fuel : nat) (bits : Z)
    (s s' : nat) (pc : PaillierCore) :
  __init__ rnd frames fuel bits s = (Done pc, s') ->
  512 <= bits /\ bit_length pc = bits /\
  exists p q,
    p <> q /\
    probable_prime rnd (bits / 2) p /\ probable_prime rnd (bits / 2) q /\
    key_of pc p q.
Proof.
  unfold __init__. destruct (Z.ltb_spec bits 512) as [ | Hb]; [discriminate | ].
  intros E. unfold _generate_keypair in E.
  apply bind_Done_inv in E. destruct E as ([p q] & s1 & E1 & E2).
  apply lift_Done_inv in E2. destruct E2 as [E2 _]. simpl in E2.
  pose proof (half_bits bits Hb) as Hbits.
  apply generate_primes_probable in E1; [ | simpl; lia]. simpl in E1.
  destruct E1 as (Hpq & Hp & Hq).
  assert (Hpow : 2 <= 2 ^ (bits / 2 - 1)).
  { change 2 with (2 ^ 1) at 1. apply Z.pow_le_mono_r; lia. }
  assert (Hp2 : 2 <= p) by (destruct Hp as (Hp1 & _); lia).
  assert (Hq2 : 2 <= q) by (destruct Hq as (Hq1 & _); lia).
  apply keys_from_primes_Done in E2; [ | lia | lia]. simpl in E2.
  destruct E2 as [Hk Hbl]. split; [assumption | split; [assumption | ]].
  exists p, q. split; [assumption | split; [assumption | split; assumption]].
Qed.





Lemma keys_from_primes_outcome (frames : nat) (self : PaillierCore) (p q : Z) :
  2 <= p -> 2 <= q ->
  match keys_from_primes frames self p q with
  | Done pc => key_of pc p q /\ bit_length pc = bit_length self
  | Raise e =>
      e = ValueError NoModularInverse /\
      Z.gcd (Z.lcm (p - 1) (q - 1)) (p * q) <> 1 \/
      e = RecursionError /\ fib (S (S frames)) <= p * q
  | Diverge => False
  end.
Proof.
  intros Hp Hq.
  destruct (keys_from_primes frames self p q) as [pc | e | ] eqn:E.
  - apply (keys_from_primes_Done frames self); assumption.
  - unfold keys_from_primes in E.
    assert (Hg : Z.gcd (p - 1) (q - 1) <> 0).
    { intros H0. apply Z.gcd_eq_0_l in H0. lia. }
    rewrite compute_lcm_spec in E by assumption. simpl obind in E.
    assert (Hn : 0 < p * q) by nia.
    pose proof (modular_inverse_outcome frames (Z.lcm (p - 1) (q - 1)) (p * q) Hn) as Ho.
    destruct (_modular_inverse frames (Z.lcm (p - 1) (q - 1)) (p * q)) as [mu | e' | ];
      simpl in E; try discriminate.
    inversion E; subst e'. exact Ho.
  - unfold keys_from_primes in E.
    assert (Hg : Z.gcd (p - 1) (q - 1) <> 0).
    { intros H0. apply Z.gcd_eq_0_l in H0. lia. }
    rewrite compute_lcm_spec in E by assumption. simpl obind in E.
    assert (Hn : 0 < p * q) by nia.
    pose proof (modular_inverse_outcome frames (Z.lcm (p - 1) (q - 1)) (p * q) Hn) as Ho.
    destruct (_modular_inverse frames (Z.lcm (p - 1) (q - 1)) (p * q)) as [mu | e' | ];
      simpl in E; try discriminate.
    exact Ho.
Qed.

(** The loops of key generation never raise. *)
Lemma redraw_while_equal_no_raise (rnd : nat -> Z) (bits p : Z) (fuel : nat) (k : nat) :
  1 <= bits ->
  forall q s e s', redraw_while_equal rnd k fuel bits p q s <> (Raise e, s').
Proof.
  intros Hb. induction k as [ | k IH]; intros q s e s'; simpl.
  - destruct (p =? q); unfold diverge, ret; discriminate.
  - destruct (p =? q); [ | unfold ret; discriminate].
    unfold bind.
    pose proof (generate_prime_outcome rnd bits fuel Hb s) as H.
    destruct (_generate_prime rnd fuel bits s) as [[q1 | e1 | ] s1];
      [apply IH | contradiction | discriminate].
Qed.

Lemma generate_primes_no_raise (rnd : nat -> Z) (fuel : nat) (self : PaillierCore)
    (s : nat) (e : exn) (s' : nat) :
  1 <= bit_length self / 2 ->
  generate_primes rnd fuel self s <> (Raise e, s').
Proof.
  intros Hb. unfold generate_primes, bind.
  pose proof (generate_prime_outcome rnd _ fuel Hb s) as H1.
  destruct (_generate_prime rnd fuel (bit_length self / 2) s) as [[p | e1 | ] s1];
    [ | contradiction | discriminate].
  pose proof (generate_prime_outcome rnd _ fuel Hb s1) as H2.
  destruct (_generate_prime rnd fuel (bit_length self / 2) s1) as [[q | e2 | ] s2];
    [ | contradiction | discriminate].
  pose proof (redraw_while_equal_no_raise rnd _ p fuel fuel Hb q s2) as H3.
  destruct (redraw_while_equal rnd fuel fuel (bit_length self / 2) p q s2)
    as [[q' | e3 | ] s3]; [unfold ret; discriminate | | discriminate].
  exfalso. exact (H3 e3 s3 eq_refl).
Qed.

(** A run of the constructor for a bit length of 512 or more: the two
    numbers are those [generate_primes] returns, and the run ends with the
    key built from them, or with an exception of [_modular_inverse]. *)
Lemma init_outcome (rnd : nat -> Z) (frames fuel : nat) (bits : Z) (s : nat) :
  512 <= bits ->
  match __init__ rnd frames fuel bits s with
  | (Done pc, s') =>
      bit_length pc = bits /\
      exists p q,
        generate_primes rnd fuel (no_keys bits) s = (Done (p, q), s') /\
        p <> q /\
        probable_prime rnd (bits / 2) p /\ probable_prime rnd (bits / 2) q /\
        key_of pc p q
  | (Raise e, s') =>
      exists p q,
        generate_primes rnd fuel (no_keys bits) s = (Done (p, q), s') /\
        p <> q /\
        probable_prime rnd (bits / 2) p /\ probable_prime rnd (bits / 2) q /\
        (e = ValueError NoModularInverse /\
         Z.gcd (Z.lcm (p - 1) (q - 1)) (p * q) <> 1 \/
         e = RecursionError /\ fib (S (S frames)) <= p * q)
  | (Diverge, _) => True
  end.
Proof.
  intros Hb. pose proof (half_bits bits Hb) as Hbits.
  unfold __init__. destruct (Z.ltb_spec bits 512); [lia | ].
  unfold _generate_keypair, bind. fold (no_keys bits).
  destruct (generate_primes rnd fuel (no_keys bits) s) as [[[p q] | e1 | ] s1] eqn:E1.
  - pose proof E1 as E1'.
    apply generate_primes_probable in E1'; [ | simpl; lia]. simpl in E1'.
    destruct E1' as (Hpq & Hp & Hq).
    assert (Hpow : 2 <= 2 ^ (bits / 2 - 1)).
    { change 2 with (2 ^ 1) at 1. apply Z.pow_le_mono_r; lia. }
    assert (Hp2 : 2 <= p) by (destruct Hp as (Hp1 & _); lia).
    assert (Hq2 : 2 <= q) by (destruct Hq as (Hq1 & _); lia).
    unfold lift. cbn [fst snd].
    pose proof (keys_from_primes_outcome frames (no_keys bits) p q Hp2 Hq2) as Ho.
    destruct (keys_from_primes frames (no_keys bits) p q) as [pc | e | ].
    + destruct Ho as [Hk Hbl]. split; [exact Hbl | ].
      exists p, q. split; [reflexivity | tauto].
    + exists p, q. split; [reflexivity | tauto].
    + contradiction.
  - exfalso. apply (generate_primes_no_raise rnd fuel (no_keys bits) s e1 s1);
      [simpl; lia | assumption].
  - exact I.
Qed.


(** The constructor reads the bit length through its half only: for an odd
    bit length it does what it does for the even number below it, and
    stores the odd one. *)
Lemma init_odd_bit_length (rnd : nat -> Z) (frames fuel : nat) (bits : Z) (s : nat) :
  512 <= bits -> bits mod 2 <> 0 ->
  match __init__ rnd frames fuel (bits - 1) s with
  | (Done pc, s') =>
      exists pc',
        __init__ rnd frames fuel bits s = (Done pc', s') /\
        bit_length pc = bits - 1 /\ bit_length pc' = bits /\
        public_key pc' = public_key pc /\
        private_key pc' = private_key pc /\
        n_squared pc' = n_squared pc
  | (Raise e, s') => __init__ rnd frames fuel bits s = (Raise e, s')
  | (Diverge, s') => __init__ rnd frames fuel bits s = (Diverge, s')
  end.
Proof.
  intros Hb Hodd.
  assert (Hne : bits <> 512) by (intros ->; apply Hodd; reflexivity).
  assert (Hhalf : (bits - 1) / 2 = bits / 2).
  { pose proof (Z.mod_pos_bound bits 2 ltac:(lia)) as Hm.
    pose proof (Z.div_mod bits 2 ltac:(lia)) as Hdm.
    symmetry. apply Z.div_unique with 0; lia. }
  unfold __init__.
  destruct (Z.ltb_spec (bits - 1) 512); [lia | ].
  destruct (Z.ltb_spec bits 512); [lia | ].
  unfold _generate_keypair, bind, generate_primes, keys_from_primes, lift.
  cbn [bit_length]. rewrite Hhalf.
  destruct (bind (_generate_prime rnd fuel (bits / 2)) _ s) as [[[p q] | e | ] s'];
    [ | reflexivity | reflexivity].
  cbn [fst snd].
  destruct (_compute_lcm (p - 1) (q - 1)) as [lambda_n | e | ];
    cbn [obind]; [ | reflexivity | reflexivity].
  destruct (_modular_inverse frames lambda_n (p * q)) as [mu | e | ];
    cbn [obind]; [ | reflexivity | reflexivity].
  eexists. split; [reflexivity | ]. cbn. repeat split; reflexivity.
Qed.

(** * The claims *)

(** C1, as amended.  Under a key pair built from two different numbers [p]
    and [q] that are prime, and for every [m] with [0 <= m < n], decrypting
    the encryption of [m] returns [m], for every blinding factor in
    [[1, n - 1]] coprime to [n] and for every run of [encrypt] that
    returns. *)
Theorem roundtrip_under_prime_key (pc : PaillierCore) (p q : Z) :
  Z.prime p -> Z.prime q -> p <> q -> key_of pc p q ->
  forall m, 0 <= m < p * q ->
    (forall r, 1 <= r < p * q -> Z.gcd r (p * q) = 1 ->
       exists c, encrypt_with pc (p * q) (p * q + 1) m r = Done c /\
                 decrypt pc c = Done m) /\
    (forall rnd fuel s c s',
       encrypt rnd fuel pc m s = (Done c, s') -> decrypt pc c = Done m).
Proof.
  intros Hp Hq Hpq Hk m Hm.
  assert (Hfactor : forall r c, Z.gcd r (p * q) = 1 ->
            encrypt_with pc (p * q) (p * q + 1) m r = Done c ->
            decrypt pc c = Done m).
  { intros r c Hg E.
    destruct (encrypt_with_well_formed pc p q Hp Hq Hpq Hk m r ltac:(lia))
      as (c' & E' & _ & Hwf).
    rewrite E in E'. inversion E'; subst c'.
    rewrite (decrypt_well_formed pc p q Hp Hq Hpq Hk c m r) by (assumption || lia).
    f_equal. apply Z.mod_small. assumption. }
  split.
  - intros r Hr Hg.
    destruct (encrypt_with_well_formed pc p q Hp Hq Hpq Hk m r ltac:(lia))
      as (c & E & _ & _).
    exists c. split; [assumption | apply Hfactor with r; assumption].
  - intros rnd fuel s c s' E.
    pose proof (Z.prime_ge_2 p Hp) as Hp2. pose proof (Z.prime_ge_2 q Hq) as Hq2.
    pose proof (encrypt_outcome rnd pc p q m fuel s Hp2 Hq2 Hk Hm) as Ho.
    rewrite E in Ho. destruct Ho as (_ & r & _ & Hg & Ew).
    apply Hfactor with r; assumption.
Qed.

Lemma roundtrip_under_prime_key_witness :
  Z.prime sample_p /\ Z.prime sample_q /\ sample_p <> sample_q /\
  key_of sample_key sample_p sample_q /\
  0 <= 42 < sample_p * sample_q /\
  exists c,
    encrypt sample_rnd 1 sample_key 42 23%nat = (Done c, 24%nat) /\
    decrypt sample_key c = Done 42.
Proof.
  assert (Hm : 0 <= 42 < sample_p * sample_q)
    by (vm_compute; split; [discriminate | reflexivity]).
  assert (E : exists c, encrypt sample_rnd 1 sample_key 42 23%nat = (Done c, 24%nat))
    by (eexists; vm_compute; reflexivity).
  destruct E as [c E].
  split; [exact sample_p_prime | ].
  split; [exact sample_q_prime | ].
  split; [exact sample_primes_differ | ].
  split; [exact sample_key_of | ].
  split; [exact Hm | ].
  exists c. split; [exact E | ].
  exact (proj2 (roundtrip_under_prime_key sample_key sample_p sample_q
                  sample_p_prime sample_q_prime sample_primes_differ sample_key_of
                  42 Hm) sample_rnd 1%nat 23%nat c 24%nat E).
Defined.

(** C1 as stated fails: the constructor can return a key pair whose [p] is
    composite, and under it the encryption of 42 with the blinding factor 2
    does not decrypt to 42. *)
Lemma roundtrip_fails_under_pseudo_key :
  __init__ pseudo_rnd script_frames 1 512 0%nat = (Done pseudo_key, 22%nat) /\
  public_key pseudo_key = Some {| pk_n := pseudo_n; pk_g := pseudo_n + 1 |} /\
  0 <= 42 < pseudo_n /\
  draw_blinding pseudo_rnd 1 pseudo_n 22%nat = (Done 2, 23%nat) /\
  exists c,
    encrypt pseudo_rnd 1 pseudo_key 42 22%nat = (Done c, 23%nat) /\
    decrypt pseudo_key c <> Done 42.
Proof.
  split; [exact pseudo_run | ].
  split; [exact pseudo_public_key | ].
  split; [vm_compute; split; [discriminate | reflexivity] | ].
  split; [vm_compute; reflexivity | ].
  eexists. split; [vm_compute; reflexivity | ].
  vm_compute. discriminate.
Qed.

(** C2, as amended.  Under every key pair [homomorphic_add] returns
    [(c1 * c2) mod n * n]; when the [p] and [q] of the key pair are prime,
    the sum of the encryptions of [a] and [b] in [[0, n)] decrypts to
    [(a + b) mod n], for every pair of blinding factors coprime to [n] and
    for every two runs of [encrypt] that return. *)
Theorem homomorphic_addition_law (pc : PaillierCore) (p q : Z) :
  2 <= p -> 2 <= q -> key_of pc p q ->
  (forall c1 c2,
     homomorphic_add pc c1 c2 = Done ((c1 * c2) mod (p * q * (p * q)))) /\
  (Z.prime p -> Z.prime q -> p <> q ->
   forall a b, 0 <= a < p * q -> 0 <= b < p * q ->
     (forall r1 r2,
        1 <= r1 < p * q -> Z.gcd r1 (p * q) = 1 ->
        1 <= r2 < p * q -> Z.gcd r2 (p * q) = 1 ->
        exists c1 c2 c3,
          encrypt_with pc (p * q) (p * q + 1) a r1 = Done c1 /\
          encrypt_with pc (p * q) (p * q + 1) b r2 = Done c2 /\
          homomorphic_add pc c1 c2 = Done c3 /\
          decrypt pc c3 = Done ((a + b) mod (p * q))) /\
     (forall rnd1 fuel1 s1 c1 s1' rnd2 fuel2 s2 c2 s2',
        encrypt rnd1 fuel1 pc a s1 = (Done c1, s1') ->
        encrypt rnd2 fuel2 pc b s2 = (Done c2, s2') ->
        exists c3,
          homomorphic_add pc c1 c2 = Done c3 /\
          decrypt pc c3 = Done ((a + b) mod (p * q)))).
Proof.
  intros Hp2 Hq2 Hk.
  assert (Hnn : p * q * (p * q) <> 0) by nia.
  assert (Hadd : forall c1 c2,
             homomorphic_add pc c1 c2 = Done ((c1 * c2) mod (p * q * (p * q)))).
  { intros c1 c2. unfold homomorphic_add, get_n_squared.
    rewrite (key_public _ _ _ Hk), (key_n_squared _ _ _ Hk). cbn [obind].
    apply py_mod_spec. assumption. }
  split; [exact Hadd | ].
  intros Hp Hq Hpq a b Ha Hb.
  assert (Hsum : forall c1 c2,
             encrypts (p * q) a c1 -> encrypts (p * q) b c2 ->
             decrypt pc ((c1 * c2) mod (p * q * (p * q)))
               = Done ((a + b) mod (p * q))).
  { intros c1 c2 H1 H2.
    apply (decrypt_encrypts pc p q Hp Hq Hpq Hk); [lia | ].
    apply encrypts_product; assumption || nia. }
  split.
  - intros r1 r2 Hr1 Hg1 Hr2 Hg2.
    destruct (encrypt_with_encrypts pc p q Hp Hq Hpq Hk a r1 ltac:(lia) Hg1)
      as (c1 & E1 & H1).
    destruct (encrypt_with_encrypts pc p q Hp Hq Hpq Hk b r2 ltac:(lia) Hg2)
      as (c2 & E2 & H2).
    exists c1, c2, ((c1 * c2) mod (p * q * (p * q))).
    split; [assumption | split; [assumption | split; [apply Hadd | ]]].
    apply Hsum; assumption.
  - intros rnd1 fuel1 s1 c1 s1' rnd2 fuel2 s2 c2 s2' E1 E2.
    exists ((c1 * c2) mod (p * q * (p * q))). split; [apply Hadd | ].
    apply Hsum.
    + apply (encrypt_run_encrypts pc p q Hp Hq Hpq Hk _ _ _ _ _ _ Ha E1).
    + apply (encrypt_run_encrypts pc p q Hp Hq Hpq Hk _ _ _ _ _ _ Hb E2).
Qed.

Lemma homomorphic_addition_law_witness :
  2 <= sample_p /\ 2 <= sample_q /\ key_of sample_key sample_p sample_q /\
  Z.prime sample_p /\ Z.prime sample_q /\ sample_p <> sample_q /\
  0 <= 150 < sample_p * sample_q /\ 0 <= 250 < sample_p * sample_q /\
  exists c1 c2 c3,
    encrypt sample_rnd 1 sample_key 150 23%nat = (Done c1, 24%nat) /\
    encrypt sample_rnd 1 sample_key 250 24%nat = (Done c2, 25%nat) /\
    homomorphic_add sample_key c1 c2 = Done c3 /\
    decrypt sample_key c3 = Done ((150 + 250) mod (sample_p * sample_q)).
Proof.
  assert (Hp : 2 <= sample_p) by (vm_compute; discriminate).
  assert (Hq : 2 <= sample_q) by (vm_compute; discriminate).
  assert (Ha : 0 <= 150 < sample_p * sample_q)
    by (vm_compute; split; [discriminate | reflexivity]).
  assert (Hb : 0 <= 250 < sample_p * sample_q)
    by (vm_compute; split; [discriminate | reflexivity]).
  assert (E1 : exists c, encrypt sample_rnd 1 sample_key 150 23%nat = (Done c, 24%nat))
    by (eexists; vm_compute; reflexivity).
  assert (E2 : exists c, encrypt sample_rnd 1 sample_key 250 24%nat = (Done c, 25%nat))
    by (eexists; vm_compute; reflexivity).
  destruct E1 as [c1 E1]. destruct E2 as [c2 E2].
  split; [exact Hp | ].
  split; [exact Hq | ].
  split; [exact sample_key_of | ].
  split; [exact sample_p_prime | ].
  split; [exact sample_q_prime | ].
  split; [exact sample_primes_differ | ].
  split; [exact Ha | ].
  split; [exact Hb | ].
  destruct (proj2 (proj2 (homomorphic_addition_law sample_key sample_p sample_q
                            Hp Hq sample_key_of)
                     sample_p_prime sample_q_prime sample_primes_differ
                     150 250 Ha Hb)
              sample_rnd 1%nat 23%nat c1 24%nat sample_rnd 1%nat 24%nat c2 25%nat
              E1 E2) as (c3 & E3 & D3).
  exists c1, c2, c3. split; [exact E1 | split; [exact E2 | split; [exact E3 | exact D3]]].
Defined.

(** C2 as stated fails under the key pair with a composite [p]: the
    product of the encryptions of 150 and 250 does not decrypt to 400. *)
Lemma addition_fails_under_pseudo_key :
  __init__ pseudo_rnd script_frames 1 512 0%nat = (Done pseudo_key, 22%nat) /\
  0 <= 150 < pseudo_n /\ 0 <= 250 < pseudo_n /\
  exists c1 c2 c3,
    encrypt pseudo_rnd 1 pseudo_key 150 22%nat = (Done c1, 23%nat) /\
    encrypt pseudo_rnd 1 pseudo_key 250 23%nat = (Done c2, 24%nat) /\
    homomorphic_add pseudo_key c1 c2 = Done c3 /\
    c3 = (c1 * c2) mod (pseudo_n * pseudo_n) /\
    decrypt pseudo_key c3 <> Done ((150 + 250) mod pseudo_n).
Proof.
  split; [exact pseudo_run | ].
  split; [vm_compute; split; [discriminate | reflexivity] | ].
  split; [vm_compute; split; [discriminate | reflexivity] | ].
  eexists. eexists. eexists.
  split; [vm_compute; reflexivity | ].
  split; [vm_compute; reflexivity | ].
  split; [vm_compute; reflexivity | ].
  split; [vm_compute; reflexivity | ].
  vm_compute. discriminate.
Qed.

(** C3, as amended.  Under every key pair [homomorphic_multiply_constant]
    returns [c ^ k mod n * n] for [k >= 0] and raises the constant error,
    returning nothing, for [k < 0]; when the [p] and [q] of the key pair are
    prime, the [k]-th power of an encryption of [a] in [[0, n)] decrypts to
    [(a * k) mod n], for every blinding factor coprime to [n] and for every
    run of [encrypt] that returns. *)
Theorem homomorphic_scaling_law (pc : PaillierCore) (p q : Z) :
  2 <= p -> 2 <= q -> key_of pc p q ->
  (forall c k, 0 <= k ->
     homomorphic_multiply_constant pc c k = Done ((c ^ k) mod (p * q * (p * q)))) /\
  (forall c k, k < 0 ->
     exists e, homomorphic_multiply_constant pc c k = Raise e /\
               InvalidConstantError e) /\
  (Z.prime p -> Z.prime q -> p <> q ->
   forall a k, 0 <= a < p * q -> 0 <= k ->
     (forall r, 1 <= r < p * q -> Z.gcd r (p * q) = 1 ->
        exists c c',
          encrypt_with pc (p * q) (p * q + 1) a r = Done c /\
          homomorphic_multiply_constant pc c k = Done c' /\
          decrypt pc c' = Done ((a * k) mod (p * q))) /\
     (forall rnd fuel s c s',
        encrypt rnd fuel pc a s = (Done c, s') ->
        exists c',
          homomorphic_multiply_constant pc c k = Done c' /\
          decrypt pc c' = Done ((a * k) mod (p * q)))).
Proof.
  intros Hp2 Hq2 Hk.
  assert (Hnn : p * q * (p * q) <> 0) by nia.
  assert (Hpow : forall c k, 0 <= k ->
     homomorphic_multiply_constant pc c k = Done ((c ^ k) mod (p * q * (p * q)))).
  { intros c k Hk0. unfold homomorphic_multiply_constant, pow_n_squared.
    rewrite (key_public _ _ _ Hk), (key_n_squared _ _ _ Hk).
    destruct (Z.ltb_spec k 0); [lia | ]. cbn [obind].
    apply py_pow_spec; assumption. }
  split; [exact Hpow | split].
  - intros c k Hneg. unfold homomorphic_multiply_constant.
    rewrite (key_public _ _ _ Hk). destruct (Z.ltb_spec k 0); [ | lia].
    eexists. split; reflexivity.
  - intros Hp Hq Hpq a k Ha Hk0.
    assert (Hscale : forall c,
               encrypts (p * q) a c ->
               decrypt pc ((c ^ k) mod (p * q * (p * q)))
                 = Done ((a * k) mod (p * q))).
    { intros c Hc.
      apply (decrypt_encrypts pc p q Hp Hq Hpq Hk); [nia | ].
      apply encrypts_power; assumption || nia. }
    split.
    + intros r Hr Hg.
      destruct (encrypt_with_encrypts pc p q Hp Hq Hpq Hk a r ltac:(lia) Hg)
        as (c & E & Hc).
      exists c, ((c ^ k) mod (p * q * (p * q))).
      split; [assumption | split; [apply Hpow; assumption | ]].
      apply Hscale; assumption.
    + intros rnd fuel s c s' E.
      exists ((c ^ k) mod (p * q * (p * q))).
      split; [apply Hpow; assumption | ].
      apply Hscale.
      apply (encrypt_run_encrypts pc p q Hp Hq Hpq Hk _ _ _ _ _ _ Ha E).
Qed.

Lemma homomorphic_scaling_law_witness :
  2 <= sample_p /\ 2 <= sample_q /\ key_of sample_key sample_p sample_q /\
  Z.prime sample_p /\ Z.prime sample_q /\ sample_p <> sample_q /\
  0 <= 100 < sample_p * sample_q /\ 0 <= 5 /\
  (exists e, homomorphic_multiply_constant sample_key 7 (-1) = Raise e /\
             InvalidConstantError e) /\
  exists c c',
    encrypt sample_rnd 1 sample_key 100 23%nat = (Done c, 24%nat) /\
    homomorphic_multiply_constant sample_key c 5 = Done c' /\
    decrypt sample_key c' = Done ((100 * 5) mod (sample_p * sample_q)).
Proof.
  assert (Hp : 2 <= sample_p) by (vm_compute; discriminate).
  assert (Hq : 2 <= sample_q) by (vm_compute; discriminate).
  assert (Ha : 0 <= 100 < sample_p * sample_q)
    by (vm_compute; split; [discriminate | reflexivity]).
  assert (Hk : 0 <= 5) by lia.
  assert (E : exists c, encrypt sample_rnd 1 sample_key 100 23%nat = (Done c, 24%nat))
    by (eexists; vm_compute; reflexivity).
  destruct E as [c E].
  split; [exact Hp | ].
  split; [exact Hq | ].
  split; [exact sample_key_of | ].
  split; [exact sample_p_prime | ].
  split; [exact sample_q_prime | ].
  split; [exact sample_primes_differ | ].
  split; [exact Ha | ].
  split; [exact Hk | ].
  split.
  - apply (proj1 (proj2 (homomorphic_scaling_law sample_key sample_p sample_q
                           Hp Hq sample_key_of)) 7 (-1)).
    lia.
  - destruct (proj2 (proj2 (proj2 (homomorphic_scaling_law sample_key sample_p
                                     sample_q Hp Hq sample_key_of))
                       sample_p_prime sample_q_prime sample_primes_differ
                       100 5 Ha Hk)
                sample_rnd 1%nat 23%nat c 24%nat E) as (c' & E' & D').
    exists c, c'. split; [exact E | split; [exact E' | exact D']].
Defined.

(** C3 as stated fails under the key pair with a composite [p]: the fifth
    power of the encryption of 100 does not decrypt to 500. *)
Lemma scaling_fails_under_pseudo_key :
  __init__ pseudo_rnd script_frames 1 512 0%nat = (Done pseudo_key, 22%nat) /\
  0 <= 100 < pseudo_n /\
  exists c c',
    encrypt pseudo_rnd 1 pseudo_key 100 22%nat = (Done c, 23%nat) /\
    homomorphic_multiply_constant pseudo_key c 5 = Done c' /\
    decrypt pseudo_key c' <> Done ((100 * 5) mod pseudo_n).
Proof.
  split; [exact pseudo_run | ].
  split; [vm_compute; split; [discriminate | reflexivity] | ].
  eexists. eexists.
  split; [vm_compute; reflexivity | ].
  split; [vm_compute; reflexivity | ].
  vm_compute. discriminate.
Qed.

(** C4. On a ready object of modulus [n], [encrypt] returns for a plaintext
    exactly when [0 <= m < n], the ciphertext then lying in [[0, n * n)],
    and raises the plaintext error, before any draw, exactly when [m < 0] or
    [m >= n]; so [0] and [n - 1] are accepted and [-1] and [n] are refused.
    On a valid plaintext the call never raises, and it returns as soon as
    one draw of the rejection loop is coprime to [n]. *)
Theorem encrypt_accepts_exactly_the_plaintexts (pc : PaillierCore) :
  ready pc ->
  exists pk,
    public_key pc = Some pk /\
    (forall m, encrypt_succeeds pc m <-> 0 <= m < pk_n pk) /\
    (forall m, encrypt_rejects pc m <-> m < 0 \/ pk_n pk <= m) /\
    encrypt_succeeds pc 0 /\ encrypt_succeeds pc (pk_n pk - 1) /\
    encrypt_rejects pc (-1) /\ encrypt_rejects pc (pk_n pk) /\
    (forall m rnd fuel s, 0 <= m < pk_n pk ->
       match encrypt rnd fuel pc m s with
       | (Done c, _) => 0 <= c < pk_n pk * pk_n pk
       | (Raise _, _) => False
       | (Diverge, _) => True
       end) /\
    (forall m rnd k s, 0 <= m < pk_n pk ->
       Z.gcd (1 + rnd (s + k)%nat mod (pk_n pk - 1)) (pk_n pk) = 1 ->
       exists c s', encrypt rnd (S k) pc m s = (Done c, s') /\
                    0 <= c < pk_n pk * pk_n pk).
Proof.
  intros Hr. destruct (ready_key pc Hr) as (p & q & Hp & Hq & Hpq & Hk).
  exists {| pk_n := p * q; pk_g := p * q + 1 |}. cbn [pk_n].
  assert (Hn : 1 < p * q) by nia.
  assert (Hsucc : forall m, 0 <= m < p * q -> encrypt_succeeds pc m).
  { intros m Hm.
    destruct (encrypt_enough zero_rnd pc p q m 0 0 Hp Hq Hk Hm) as (c & s' & E & Hc).
    { unfold zero_rnd. rewrite Z.mod_0_l by lia. apply Z.gcd_1_l. }
    exists zero_rnd, 1%nat, 0%nat, c, s', {| pk_n := p * q; pk_g := p * q + 1 |}.
    split; [apply (key_public _ _ _ Hk) | split; assumption]. }
  assert (Hrej : forall m, m < 0 \/ p * q <= m -> encrypt_rejects pc m).
  { intros m Hm rnd fuel s. apply encrypt_invalid with p q; assumption. }
  split; [apply (key_public _ _ _ Hk) | ].
  split; [ | split; [ | split; [ | split; [ | split; [ | split; [ | split]]]]]].
  - intros m. split; [ | apply Hsucc].
    intros (rnd & fuel & s & c & s' & pk & _ & E & _).
    destruct (Z.lt_ge_cases m 0) as [Hneg | Hnn];
      [ | destruct (Z.lt_ge_cases m (p * q)) as [ | Hbig]; [lia | ] ].
    + destruct (encrypt_invalid rnd pc p q m fuel s Hk (or_introl Hneg)) as (e & E' & _).
      rewrite E' in E. discriminate.
    + destruct (encrypt_invalid rnd pc p q m fuel s Hk (or_intror Hbig)) as (e & E' & _).
      rewrite E' in E. discriminate.
  - intros m. split; [ | apply Hrej].
    intros Hall.
    destruct (Z.lt_ge_cases m 0) as [ | Hnn]; [left; assumption | ].
    destruct (Z.lt_ge_cases m (p * q)) as [Hlt | ]; [ | right; assumption].
    destruct (Hsucc m (conj Hnn Hlt)) as (rnd & fuel & s & c & s' & pk & _ & E & _).
    destruct (Hall rnd fuel s) as (e & E' & _). rewrite E' in E. discriminate.
  - apply Hsucc. lia.
  - apply Hsucc. lia.
  - apply Hrej. lia.
  - apply Hrej. lia.
  - intros m rnd fuel s Hm.
    pose proof (encrypt_outcome rnd pc p q m fuel s Hp Hq Hk Hm) as Ho.
    destruct (encrypt rnd fuel pc m s) as [[c | e | ] s1]; tauto.
  - intros m rnd k s Hm Hg. apply encrypt_enough; assumption.
Qed.

Lemma encrypt_accepts_exactly_the_plaintexts_witness :
  ready sample_key /\
  exists pk,
    public_key sample_key = Some pk /\
    (forall m, encrypt_succeeds sample_key m <-> 0 <= m < pk_n pk) /\
    (forall m, encrypt_rejects sample_key m <-> m < 0 \/ pk_n pk <= m) /\
    encrypt_succeeds sample_key 0 /\ encrypt_succeeds sample_key (pk_n pk - 1) /\
    encrypt_rejects sample_key (-1) /\ encrypt_rejects sample_key (pk_n pk) /\
    (forall m rnd fuel s, 0 <= m < pk_n pk ->
       match encrypt rnd fuel sample_key m s with
       | (Done c, _) => 0 <= c < pk_n pk * pk_n pk
       | (Raise _, _) => False
       | (Diverge, _) => True
       end) /\
    (forall m rnd k s, 0 <= m < pk_n pk ->
       Z.gcd (1 + rnd (s + k)%nat mod (pk_n pk - 1)) (pk_n pk) = 1 ->
       exists c s', encrypt rnd (S k) sample_key m s = (Done c, s') /\
                    0 <= c < pk_n pk * pk_n pk).
Proof.
  assert (Hr : ready sample_key).
  { exists sample_rnd, script_frames, 2%nat, 512, 0%nat, 23%nat. vm_compute. reflexivity. }
  split; [exact Hr | exact (encrypt_accepts_exactly_the_plaintexts sample_key Hr)].
Defined.




(** C6, on the run of the constructor.  A returned object holds
    [n = p * q] for the two numbers [p] and [q] that the prime generator
    returned in that run, which differ, [n_squared = n * n], [g = n + 1],
    [lambda = lcm(p - 1, q - 1)] with [gcd(lambda, n) = 1], and a [mu] in
    [[0, n)] with [(lambda * mu) mod n = 1]; no sequence of method calls
    changes the object. *)
Theorem ready_key_invariants (rnd : nat -> Z) (frames fuel : nat) (bits : Z)
    (s s' : nat) (pc : PaillierCore) :
  __init__ rnd frames fuel bits s = (Done pc, s') ->
  exists p q mu,
    generate_primes rnd fuel (no_keys bits) s = (Done (p, q), s') /\
    p <> q /\
    public_key pc = Some {| pk_n := p * q; pk_g := p * q + 1 |} /\
    private_key pc =
      Some {| sk_lambda := Z.lcm (p - 1) (q - 1); sk_mu := mu; sk_n := p * q |} /\
    n_squared pc = Some (p * q * (p * q)) /\
    Z.gcd (Z.lcm (p - 1) (q - 1)) (p * q) = 1 /\
    0 <= mu < p * q /\
    (Z.lcm (p - 1) (q - 1) * mu) mod (p * q) = 1 /\
    forall rnd' calls s0, after_calls rnd' pc calls s0 = pc.
Proof.
  intros E.
  assert (Hb : 512 <= bits).
  { apply init_Done in E. tauto. }
  pose proof (init_outcome rnd frames fuel bits s Hb) as Ho.
  rewrite E in Ho. destruct Ho as (_ & p & q & Eg & Hpq & _ & _ & Hk).
  destruct (key_private _ _ _ Hk) as (mu & Hsk & Hmu & Hinv).
  exists p, q, mu.
  split; [exact Eg | ].
  split; [assumption | ].
  split; [apply (key_public _ _ _ Hk) | ].
  split; [assumption | ].
  split; [apply (key_n_squared _ _ _ Hk) | ].
  split; [apply (key_coprime _ _ _ Hk) | ].
  split; [assumption | ].
  split; [assumption | ].
  intros rnd' calls s0. apply after_calls_same.
Qed.

Lemma ready_key_invariants_witness :
  __init__ sample_rnd script_frames 2 512 0%nat = (Done sample_key, 23%nat) /\
  exists p q mu,
    generate_primes sample_rnd 2 (no_keys 512) 0%nat = (Done (p, q), 23%nat) /\
    p <> q /\
    public_key sample_key = Some {| pk_n := p * q; pk_g := p * q + 1 |} /\
    private_key sample_key =
      Some {| sk_lambda := Z.lcm (p - 1) (q - 1); sk_mu := mu; sk_n := p * q |} /\
    n_squared sample_key = Some (p * q * (p * q)) /\
    Z.gcd (Z.lcm (p - 1) (q - 1)) (p * q) = 1 /\
    0 <= mu < p * q /\
    (Z.lcm (p - 1) (q - 1) * mu) mod (p * q) = 1 /\
    forall rnd' calls s0, after_calls rnd' sample_key calls s0 = sample_key.
Proof.
  split; [exact sample_run | ].
  exact (ready_key_invariants sample_rnd script_frames 2 512 0%nat 23%nat
           sample_key sample_run).
Defined.

(** C7 fails on the constructor.  [create_paillier_instance] checks that the
    bit length is even, and the constructor, which it calls and which the
    other modules call directly, does not: on the odd bit length 513 the
    constructor raises nothing and returns an object, with the key of the
    run for 512 bits. *)
Theorem constructor_accepts_odd_bit_length :
  513 mod 2 <> 0 /\
  create_paillier_instance sample_rnd script_frames 2 513 0%nat
    = (Raise (ValueError BitLengthNotEven), 0%nat) /\
  exists pc,
    __init__ sample_rnd script_frames 2 513 0%nat = (Done pc, 23%nat) /\
    bit_length pc = 513 /\
    public_key pc = public_key sample_key /\
    private_key pc = private_key sample_key.
Proof.
  assert (Hodd : 513 mod 2 <> 0) by (vm_compute; discriminate).
  split; [exact Hodd | ].
  split; [reflexivity | ].
  pose proof (init_odd_bit_length sample_rnd script_frames 2 513 0%nat
                ltac:(lia) Hodd) as H.
  change (513 - 1) with 512 in H. rewrite sample_run in H.
  destruct H as (pc' & E & _ & Hb & Hpk & Hsk & _).
  exists pc'. split; [exact E | split; [exact Hb | split; assumption]].
Qed.

(** C8, as amended.  The prime-generation loop has no iteration cap and no
    failure outcome: for every bit length of at least 1, after any number
    of iterations it is either still sampling or has returned an odd number
    of exactly that many bits which has none of the small primes as a
    proper factor and has passed ten Miller-Rabin rounds. *)
Theorem generate_prime_returns_or_keeps_sampling (rnd : nat -> Z) (bits : Z)
    (fuel : nat) (s : nat) :
  1 <= bits ->
  match _generate_prime rnd fuel bits s with
  | (Done c, s') =>
      2 ^ (bits - 1) <= c < 2 ^ bits /\ Z.odd c = true /\
      has_small_factor c = false /\
      exists s0, _miller_rabin_test rnd c 10 s0 = (Done true, s')
  | (Raise _, _) => False
  | (Diverge, _) => True
  end.
Proof.
  intros Hb. apply generate_prime_outcome. assumption.
Qed.

Lemma generate_prime_returns_or_keeps_sampling_witness :
  1 <= 256 /\
  _generate_prime sample_rnd 1 256 0%nat = (Diverge, 1%nat) /\
  _generate_prime sample_rnd 2 256 0%nat = (Done sample_p, 12%nat) /\
  2 ^ (256 - 1) <= sample_p < 2 ^ 256 /\ Z.odd sample_p = true /\
  has_small_factor sample_p = false /\
  exists s0, _miller_rabin_test sample_rnd sample_p 10 s0 = (Done true, 12%nat).
Proof.
  assert (Hb : 1 <= 256) by lia.
  assert (E1 : _generate_prime sample_rnd 1 256 0%nat = (Diverge, 1%nat))
    by (vm_compute; reflexivity).
  assert (E2 : _generate_prime sample_rnd 2 256 0%nat = (Done sample_p, 12%nat))
    by (vm_compute; reflexivity).
  split; [exact Hb | ].
  split; [exact E1 | ].
  split; [exact E2 | ].
  pose proof (generate_prime_returns_or_keeps_sampling sample_rnd 256 2 0%nat Hb) as H.
  rewrite E2 in H. exact H.
Defined.

(** C8 as stated fails: the loop has no cap.  On the random source that
    only ever draws 0 the candidate is always [2 ^ 255 + 1], a multiple of
    3, and the loop is still running after any number of iterations. *)
Lemma generate_prime_has_no_iteration_cap : ~ has_iteration_cap.
Proof.
  intros [cap H]. apply (H zero_rnd 256 0%nat); [lia | ].
  apply generate_prime_zero_diverges.
Qed.

(** C9. On a ready object [decrypt] is total: for every integer, negative
    or beyond [n * n] or never produced by [encrypt], it raises nothing and
    returns an integer in [[0, n)]. *)
Theorem decrypt_total (pc : PaillierCore) :
  ready pc ->
  exists sk,
    private_key pc = Some sk /\
    forall c, exists m, decrypt pc c = Done m /\ 0 <= m < sk_n sk.
Proof.
  intros Hr. destruct (ready_key pc Hr) as (p & q & Hp & Hq & Hpq & Hk).
  destruct (key_private _ _ _ Hk) as (mu & Hsk & _).
  eexists. split; [exact Hsk | ]. cbn [sk_n].
  intros c. destruct (decrypt_spec pc p q c Hp Hq Hk) as (mu' & _ & _ & E).
  eexists. split; [exact E | apply Z.mod_pos_bound; nia].
Qed.

Lemma decrypt_total_witness :
  ready sample_key /\
  exists sk,
    private_key sample_key = Some sk /\
    forall c, exists m, decrypt sample_key c = Done m /\ 0 <= m < sk_n sk.
Proof.
  assert (Hr : ready sample_key).
  { exists sample_rnd, script_frames, 2%nat, 512, 0%nat, 23%nat. vm_compute. reflexivity. }
  split; [exact Hr | exact (decrypt_total sample_key Hr)].
Defined.

(** C10, as amended.  Under a key pair built from two different numbers
    [p] and [q] that are prime, encryption is injective in its blinding
    factor: for [m] in [[0, n)] and two different factors in [[1, n - 1]]
    coprime to [n] the ciphertexts differ, and so do the results of two runs
    of [encrypt] whose rejection loops end on different draws. *)
Theorem blinding_injective_under_prime_key (pc : PaillierCore) (p q : Z) :
  Z.prime p -> Z.prime q -> p <> q -> key_of pc p q ->
  forall m, 0 <= m < p * q ->
    (forall r1 r2,
       1 <= r1 < p * q -> Z.gcd r1 (p * q) = 1 ->
       1 <= r2 < p * q -> Z.gcd r2 (p * q) = 1 ->
       r1 <> r2 ->
       exists c1 c2,
         encrypt_with pc (p * q) (p * q + 1) m r1 = Done c1 /\
         encrypt_with pc (p * q) (p * q + 1) m r2 = Done c2 /\
         c1 <> c2) /\
    (forall rnd1 fuel1 s1 s1' r1 rnd2 fuel2 s2 s2' r2,
       draw_blinding rnd1 fuel1 (p * q) s1 = (Done r1, s1') ->
       draw_blinding rnd2 fuel2 (p * q) s2 = (Done r2, s2') ->
       r1 <> r2 ->
       exists c1 c2,
         encrypt rnd1 fuel1 pc m s1 = (Done c1, s1') /\
         encrypt rnd2 fuel2 pc m s2 = (Done c2, s2') /\
         c1 <> c2).
Proof.
  intros Hp Hq Hpq Hk m Hm.
  pose proof (Z.prime_ge_2 p Hp) as Hp2. pose proof (Z.prime_ge_2 q Hq) as Hq2.
  assert (Hinj : forall r1 r2,
       1 <= r1 < p * q -> Z.gcd r1 (p * q) = 1 ->
       1 <= r2 < p * q -> Z.gcd r2 (p * q) = 1 ->
       r1 <> r2 ->
       exists c1 c2,
         encrypt_with pc (p * q) (p * q + 1) m r1 = Done c1 /\
         encrypt_with pc (p * q) (p * q + 1) m r2 = Done c2 /\
         c1 <> c2).
  { intros r1 r2 Hr1 Hg1 Hr2 Hg2 Hne.
    destruct (encrypt_with_well_formed pc p q Hp Hq Hpq Hk m r1 ltac:(lia))
      as (c1 & E1 & _ & _).
    destruct (encrypt_with_well_formed pc p q Hp Hq Hpq Hk m r2 ltac:(lia))
      as (c2 & E2 & _ & _).
    exists c1, c2. split; [assumption | split; [assumption | ]].
    intros Heq. subst c2. apply Hne.
    apply (blinding_determined pc p q Hp Hq Hpq Hk m r1 r2 c1);
      assumption || lia. }
  split; [exact Hinj | ].
  intros rnd1 fuel1 s1 s1' r1 rnd2 fuel2 s2 s2' r2 D1 D2 Hne.
  pose proof (draw_blinding_outcome rnd1 (p * q) fuel1 ltac:(nia) s1) as O1.
  pose proof (draw_blinding_outcome rnd2 (p * q) fuel2 ltac:(nia) s2) as O2.
  rewrite D1 in O1. rewrite D2 in O2.
  destruct (Hinj r1 r2 (proj1 O1) (proj2 O1) (proj1 O2) (proj2 O2) Hne)
    as (c1 & c2 & E1 & E2 & Hc).
  exists c1, c2.
  unfold encrypt. rewrite (key_public _ _ _ Hk). cbn [pk_n pk_g].
  destruct (Z.ltb_spec m 0); [lia | ].
  destruct (Z.geb_spec m (p * q)); [lia | ].
  unfold bind, lift. rewrite D1, D2, E1, E2. auto.
Qed.

Lemma blinding_injective_under_prime_key_witness :
  Z.prime sample_p /\ Z.prime sample_q /\ sample_p <> sample_q /\
  key_of sample_key sample_p sample_q /\
  0 <= 42 < sample_p * sample_q /\
  draw_blinding sample_rnd 1 (sample_p * sample_q) 23%nat = (Done 6, 24%nat) /\
  draw_blinding sample_rnd 1 (sample_p * sample_q) 24%nat = (Done 11, 25%nat) /\
  6 <> 11 /\
  exists c1 c2,
    encrypt sample_rnd 1 sample_key 42 23%nat = (Done c1, 24%nat) /\
    encrypt sample_rnd 1 sample_key 42 24%nat = (Done c2, 25%nat) /\
    c1 <> c2.
Proof.
  assert (Hm : 0 <= 42 < sample_p * sample_q)
    by (vm_compute; split; [discriminate | reflexivity]).
  assert (D1 : draw_blinding sample_rnd 1 (sample_p * sample_q) 23%nat
               = (Done 6, 24%nat)) by (vm_compute; reflexivity).
  assert (D2 : draw_blinding sample_rnd 1 (sample_p * sample_q) 24%nat
               = (Done 11, 25%nat)) by (vm_compute; reflexivity).
  assert (Hne : 6 <> 11) by lia.
  split; [exact sample_p_prime | ].
  split; [exact sample_q_prime | ].
  split; [exact sample_primes_differ | ].
  split; [exact sample_key_of | ].
  split; [exact Hm | ].
  split; [exact D1 | ].
  split; [exact D2 | ].
  split; [exact Hne | ].
  exact (proj2 (blinding_injective_under_prime_key sample_key sample_p sample_q
                  sample_p_prime sample_q_prime sample_primes_differ sample_key_of
                  42 Hm)
           sample_rnd 1%nat 23%nat 24%nat 6 sample_rnd 1%nat 24%nat 25%nat 11
           D1 D2 Hne).
Defined.

(** C10 as stated fails under the key pair with a composite [p]: 149
    divides [n] and 37, which also divides [n], divides 148, so there is a
    unit of order 37, and it blinds 42 to the same ciphertext as the
    factor 1 does. *)
Lemma blinding_collides_under_pseudo_key :
  __init__ pseudo_rnd script_frames 1 512 0%nat = (Done pseudo_key, 22%nat) /\
  0 <= 42 < pseudo_n /\
  1 <= 1 < pseudo_n /\ Z.gcd 1 pseudo_n = 1 /\
  1 <= pseudo_unit < pseudo_n /\ Z.gcd pseudo_unit pseudo_n = 1 /\
  1 <> pseudo_unit /\
  draw_blinding pseudo_rnd 1 pseudo_n 24%nat = (Done 1, 25%nat) /\
  draw_blinding pseudo_rnd 1 pseudo_n 25%nat = (Done pseudo_unit, 26%nat) /\
  exists c,
    encrypt pseudo_rnd 1 pseudo_key 42 24%nat = (Done c, 25%nat) /\
    encrypt pseudo_rnd 1 pseudo_key 42 25%nat = (Done c, 26%nat).
Proof.
  split; [exact pseudo_run | ].
  split; [vm_compute; split; [discriminate | reflexivity] | ].
  split; [vm_compute; split; [discriminate | reflexivity] | ].
  split; [vm_compute; reflexivity | ].
  split; [vm_compute; split; [discriminate | reflexivity] | ].
  split; [vm_compute; reflexivity | ].
  split; [vm_compute; discriminate | ].
  split; [vm_compute; reflexivity | ].
  split; [vm_compute; reflexivity | ].
  eexists. split; vm_compute; reflexivity.
Qed.

(** * Further properties of the code *)

Lemma sample_ready : ready sample_key.
Proof.
  exists sample_rnd, script_frames, 2%nat, 512, 0%nat, 23%nat. vm_compute. reflexivity.
Qed.

(** ** The Miller-Rabin test *)

Lemma halve_while_even_spec (d : positive) :
  forall r0 r o,
    halve_while_even d r0 = (r, o) ->
    r0 <= r /\ Zpos d = Zpos o * 2 ^ (r - r0) /\ Z.odd (Zpos o) = true.
Proof.
  induction d as [d IH | d IH | ]; intros r0 r o H; simpl in H.
  - inversion H; subst. rewrite Z.sub_diag. split; [lia | split; [lia | reflexivity]].
  - apply IH in H. destruct H as (Hr & Hd & Ho).
    split; [lia | split; [ | assumption]].
    replace (r - r0) with (Z.succ (r - (r0 + 1))) by lia.
    rewrite Z.pow_succ_r by lia. lia.
  - inversion H; subst. rewrite Z.sub_diag. split; [lia | split; reflexivity].
Qed.

Lemma mr_decompose_spec (m : Z) :
  0 < m ->
  exists r d, mr_decompose m = Done (r, d) /\
              0 <= r /\ 0 < d /\ Z.odd d = true /\ m = d * 2 ^ r.
Proof.
  intros Hm. destruct m as [ | m | m]; try lia. simpl.
  destruct (halve_while_even m 0) as [r o] eqn:E.
  apply halve_while_even_spec in E. destruct E as (Hr & Hd & Ho).
  exists r, (Zpos o). rewrite Z.sub_0_r in Hd.
  split; [reflexivity | split; [assumption | split; [lia | split; assumption]]].
Qed.

(** The squaring loop finds [-1] exactly when one of [x ^ 2], [x ^ 4],
    ..., [x ^ (2 ^ k)] is [-1] modulo [n]. *)
Lemma mr_square_loop_false (k : nat) :
  forall x n, n <> 0 ->
    (mr_square_loop k x n = Done false <->
     exists j, 1 <= j <= Z.of_nat k /\ (x ^ (2 ^ j)) mod n = n - 1).
Proof.
  induction k as [ | k IH]; intros x n Hn.
  - simpl. split; [discriminate | intros (j & Hj & _); lia].
  - cbn [mr_square_loop]. rewrite py_pow_spec by lia. cbn [obind].
    destruct (Z.eqb_spec (x ^ 2 mod n) (n - 1)) as [He | Hne].
    + split; [intros _ | reflexivity].
      exists 1. split; [lia | ]. exact He.
    + rewrite IH by assumption. split.
      * intros (j & Hj & Hp). exists (j + 1). split; [lia | ].
        rewrite Z.mod_pow_l in Hp.
        rewrite <- Z.pow_mul_r in Hp by (try apply Z.pow_nonneg; lia).
        rewrite Z.pow_add_r, Z.pow_1_r, Z.mul_comm by lia. exact Hp.
      * intros (j & Hj & Hp).
        assert (Hj1 : j <> 1).
        { intros ->. apply Hne. exact Hp. }
        exists (j - 1). split; [lia | ].
        rewrite Z.mod_pow_l.
        rewrite <- Z.pow_mul_r by (try apply Z.pow_nonneg; lia).
        replace (2 * 2 ^ (j - 1)) with (2 ^ j); [exact Hp | ].
        replace j with (Z.succ (j - 1)) at 1 by lia.
        rewrite Z.pow_succ_r by lia. reflexivity.
Qed.

(** A round goes on exactly for the strong liars. *)
Lemma mr_round_liar (n d r a : Z) :
  2 < n -> 0 <= d -> 1 <= r ->
  exists b, mr_round_passes n d r a = Done b /\ (b = true <-> strong_liar n d r a).
Proof.
  intros Hn Hd Hr. unfold mr_round_passes, strong_liar.
  rewrite py_pow_spec by lia. cbn [obind].
  assert (Hsq : forall j, 0 <= j ->
            ((a ^ d mod n) ^ (2 ^ j)) mod n = (a ^ (d * 2 ^ j)) mod n).
  { intros j Hj. rewrite Z.mod_pow_l, <- Z.pow_mul_r by (try apply Z.pow_nonneg; lia).
    reflexivity. }
  destruct (Z.eqb_spec (a ^ d mod n) 1) as [H1 | H1].
  - exists true. simpl. split; [reflexivity | tauto].
  - destruct (Z.eqb_spec (a ^ d mod n) (n - 1)) as [Hm | Hm].
    + exists true. simpl. split; [reflexivity | ]. split; [intros _ | reflexivity].
      right. exists 0. split; [lia | ]. rewrite Z.mul_1_r. exact Hm.
    + simpl orb. cbv iota.
      destruct (mr_square_loop_total (Z.to_nat (r - 1)) (a ^ d mod n) n ltac:(lia))
        as [b Eb].
      rewrite Eb. cbn [obind]. exists (negb b). split; [reflexivity | ].
      pose proof (mr_square_loop_false (Z.to_nat (r - 1)) (a ^ d mod n) n ltac:(lia))
        as Hf.
      rewrite Z2Nat.id in Hf by lia.
      destruct b; simpl.
      * split; [discriminate | ]. intros [Hone | (j & Hj & Hp)]; [contradiction | ].
        exfalso.
        destruct (Z.eq_dec j 0) as [-> | Hj0].
        { rewrite Z.mul_1_r in Hp. contradiction. }
        assert (Hex : exists j, 1 <= j <= r - 1 /\
                                (a ^ d mod n) ^ 2 ^ j mod n = n - 1).
        { exists j. split; [lia | ]. rewrite Hsq by lia. exact Hp. }
        apply Hf in Hex. rewrite Eb in Hex. discriminate.
      * split; [intros _ | reflexivity].
        destruct (proj1 Hf Eb) as (j & Hj & Hp).
        right. exists j. split; [lia | ]. rewrite <- Hsq by lia. exact Hp.
Qed.

(** The loop over the rounds, in terms of [mr_round_passes]. *)
Lemma mr_rounds_step (rnd : nat -> Z) (k : nat) (n d r : Z) (s : nat) :
  5 <= n ->
  mr_rounds rnd (S k) n d r s =
    match mr_round_passes n d r (mr_base rnd n s 0) with
    | Done true => mr_rounds rnd k n d r (S s)
    | Done false => (Done false, S s)
    | Raise e => (Raise e, S s)
    | Diverge => (Diverge, S s)
    end.
Proof.
  intros Hn. cbn [mr_rounds]. unfold bind at 1. unfold randrange.
  destruct (Z.leb_spec (n - 1) 2); [lia | ].
  unfold mr_base. replace (s + 0)%nat with s by lia.
  unfold mr_round_passes. unfold bind at 1. unfold lift at 1.
  destruct (py_pow (2 + rnd s mod (n - 1 - 2)) d n) as [x | e | ]; cbn [obind];
    try reflexivity.
  destruct ((x =? 1) || (x =? n - 1)); [reflexivity | ].
  unfold bind, lift.
  destruct (mr_square_loop (Z.to_nat (r - 1)) x n) as [[ | ] | e | ]; reflexivity.
Qed.

Lemma mr_base_shift (rnd : nat -> Z) (n : Z) (s i : nat) :
  mr_base rnd n (S s) i = mr_base rnd n s (S i).
Proof. unfold mr_base. replace (S s + i)%nat with (s + S i)%nat by lia. reflexivity. Qed.

Lemma mr_base_range (rnd : nat -> Z) (n : Z) (s i : nat) :
  5 <= n -> 2 <= mr_base rnd n s i <= n - 2.
Proof.
  intros Hn. unfold mr_base.
  pose proof (Z.mod_pos_bound (rnd (s + i)%nat) (n - 1 - 2) ltac:(lia)). lia.
Qed.

Lemma mr_rounds_answer (rnd : nat -> Z) (n d r : Z) :
  5 <= n -> 0 <= d -> 1 <= r ->
  forall k s,
    exists b s',
      mr_rounds rnd k n d r s = (Done b, s') /\
      (b = true <-> forall i, (i < k)%nat -> strong_liar n d r (mr_base rnd n s i)) /\
      (b = true -> s' = (s + k)%nat) /\
      (s <= s' <= s + k)%nat.
Proof.
  intros Hn Hd Hr. induction k as [ | k IH]; intros s.
  - exists true, s. simpl. unfold ret.
    split; [reflexivity | split; [ | split; [intros _; lia | lia]]].
    split; [intros _ i Hi; lia | reflexivity].
  - rewrite mr_rounds_step by assumption.
    destruct (mr_round_liar n d r (mr_base rnd n s 0) ltac:(lia) Hd Hr) as (b0 & E0 & H0).
    rewrite E0. destruct b0.
    + destruct (IH (S s)) as (b & s' & E & Hb & Hs & Hle).
      exists b, s'.
      split; [assumption | split; [ | split; [intros Ht; rewrite (Hs Ht); lia | lia]]].
      rewrite Hb. split.
      * intros Hall i Hi. destruct i as [ | i]; [apply H0; reflexivity | ].
        rewrite <- mr_base_shift. apply Hall. lia.
      * intros Hall i Hi. rewrite mr_base_shift. apply Hall. lia.
    + exists false, (S s).
      split; [reflexivity | split; [ | split; [discriminate | lia]]].
      split; [discriminate | ].
      intros Hall. apply H0. apply Hall. lia.
Qed.

(** A strong liar is a Fermat liar. *)
Lemma strong_liar_fermat (n d r a : Z) :
  2 < n -> 0 <= d -> 0 <= r -> strong_liar n d r a ->
  (a ^ (d * 2 ^ r)) mod n = 1.
Proof.
  intros Hn Hd Hr [H1 | (j & Hj & Hm)].
  - rewrite Z.pow_mul_r by (try apply Z.pow_nonneg; lia).
    apply pow_mod_one; [lia | apply Z.pow_nonneg; lia | assumption].
  - assert (H2j : 0 <= 2 ^ j) by (apply Z.pow_nonneg; lia).
    assert (H2r : 0 <= 2 ^ (r - j - 1)) by (apply Z.pow_nonneg; lia).
    replace (d * 2 ^ r) with (d * 2 ^ j * (2 * 2 ^ (r - j - 1))).
    + set (t := d * 2 ^ j) in *.
      rewrite Z.pow_mul_r by nia. rewrite (Z.pow_mul_r _ 2) by lia.
      apply pow_mod_one; [lia | assumption | ].
      rewrite Z.pow_2_r, Z.mul_mod, Hm by lia.
      replace ((n - 1) * (n - 1)) with (1 + (n - 2) * n) by ring.
      rewrite Z.mod_add by lia. apply Z.mod_small. lia.
    + replace r with (j + 1 + (r - j - 1)) at 2 by lia.
      rewrite !Z.pow_add_r, Z.pow_1_r by lia. ring.
Qed.

(** Modulo a prime the only square roots of [1] are [1] and [-1]. *)
Lemma sqrt_one_prime (n y : Z) :
  Z.prime n -> 2 < n -> (y ^ 2) mod n = 1 -> y mod n = 1 \/ y mod n = n - 1.
Proof.
  intros Hp Hn Hy. apply mod_one_divide in Hy; [ | lia].
  replace (y ^ 2 - 1) with ((y - 1) * (y + 1)) in Hy by ring.
  apply Z.divide_prime_mul in Hy; [ | assumption].
  destruct Hy as [Hd | [k Hk]].
  - left. apply divide_mod_one; [lia | assumption].
  - right. replace y with (n - 1 + (k - 1) * n) by lia.
    rewrite Z.mod_add by lia. apply Z.mod_small. lia.
Qed.

Lemma sqrt_chain_prime (n : Z) :
  Z.prime n -> 2 < n ->
  forall r, 0 <= r ->
  forall y, (y ^ (2 ^ r)) mod n = 1 ->
    y mod n = 1 \/ exists j, 0 <= j < r /\ (y ^ (2 ^ j)) mod n = n - 1.
Proof.
  intros Hp Hn r Hr. pattern r. apply natlike_ind; [ | | assumption].
  - intros y Hy. left. rewrite Z.pow_0_r, Z.pow_1_r in Hy. assumption.
  - intros k Hk IH y Hy.
    rewrite Z.pow_succ_r, Z.pow_mul_r in Hy by (try apply Z.pow_nonneg; lia).
    destruct (IH (y ^ 2) Hy) as [H1 | (j & Hj & Hm)].
    + destruct (sqrt_one_prime n y Hp Hn H1) as [Ha | Hb]; [left; assumption | ].
      right. exists 0. split; [lia | ]. rewrite Z.pow_0_r, Z.pow_1_r. assumption.
    + right. exists (j + 1). split; [lia | ].
      rewrite Z.pow_add_r, Z.pow_1_r, Z.mul_comm, Z.pow_mul_r
        by (try apply Z.pow_nonneg; lia).
      assumption.
Qed.

(** Modulo a prime every base that is not a multiple of it is a strong
    liar. *)
Lemma prime_strong_liar (n d r a : Z) :
  Z.prime n -> 2 < n -> 0 <= d -> 0 <= r -> n - 1 = d * 2 ^ r ->
  a mod n <> 0 -> strong_liar n d r a.
Proof.
  intros Hp Hn Hd Hr Hdec Ha.
  pose proof (Z.fermat_nz n a Hp Ha) as Hf. rewrite Hdec in Hf.
  rewrite Z.pow_mul_r in Hf by (try apply Z.pow_nonneg; lia).
  destruct (sqrt_chain_prime n Hp Hn r Hr (a ^ d) Hf) as [H1 | (j & Hj & Hm)].
  - left. assumption.
  - right. exists j. split; [assumption | ].
    rewrite Z.pow_mul_r by (try apply Z.pow_nonneg; lia). assumption.
Qed.

(** The test on an odd number of at least 5. *)
Lemma miller_rabin_test_odd (rnd : nat -> Z) (n rounds : Z) (s : nat) :
  5 <= n -> Z.odd n = true ->
  exists r d,
    0 < d /\ Z.odd d = true /\ 1 <= r /\ n - 1 = d * 2 ^ r /\
    _miller_rabin_test rnd n rounds s = mr_rounds rnd (Z.to_nat rounds) n d r s.
Proof.
  intros Hn Ho. unfold _miller_rabin_test.
  destruct (Z.ltb_spec n 2); [lia | ].
  destruct (Z.eqb_spec n 2); [lia | ].
  destruct (Z.eqb_spec n 3); [lia | ]. simpl orb. cbv iota.
  rewrite Zmod_odd, Ho.
  change (1 =? 0) with false. cbv iota.
  destruct (mr_decompose_spec (n - 1) ltac:(lia)) as (r & d & E & Hr & Hd & Hod & Hdec).
  exists r, d. unfold bind, lift. rewrite E. cbn [fst snd].
  assert (Hr1 : 1 <= r).
  { destruct (Z.eq_dec r 0) as [-> | ]; [ | lia].
    rewrite Z.pow_0_r, Z.mul_1_r in Hdec. subst d.
    rewrite Z.odd_sub, Ho in Hod. discriminate. }
  repeat split; assumption.
Qed.

Lemma prime_odd_ge_5 (n : Z) :
  Z.prime n -> n <> 2 -> n <> 3 -> 5 <= n /\ Z.odd n = true.
Proof.
  intros Hp H2 H3. pose proof (Z.prime_ge_2 n Hp) as Hge.
  destruct Hp as [_ Hp].
  assert (Ho : Z.odd n = true).
  { destruct (Z.odd n) eqn:E; [reflexivity | exfalso].
    rewrite <- Z.negb_even in E. apply negb_false_iff in E.
    apply Z.even_spec in E. destruct E as [k Hk].
    apply (Hp 2); [lia | ]. exists k. lia. }
  split; [ | assumption].
  destruct (Z.eq_dec n 4) as [-> | ]; [discriminate | lia].
Qed.

(** X1. [_miller_rabin_test] never declares a prime composite: for a prime
    [n] it answers [True] whatever bases it draws and whatever the number of
    rounds, after no draw for 2 and 3 and after one draw a round
    otherwise. *)
Theorem miller_rabin_accepts_every_prime (rnd : nat -> Z) (n rounds : Z) (s : nat) :
  Z.prime n ->
  _miller_rabin_test rnd n rounds s =
    (Done true, if n <=? 3 then s else (s + Z.to_nat rounds)%nat).
Proof.
  intros Hp.
  destruct (Z.eq_dec n 2) as [-> | H2]; [reflexivity | ].
  destruct (Z.eq_dec n 3) as [-> | H3]; [reflexivity | ].
  destruct (prime_odd_ge_5 n Hp H2 H3) as [Hn Ho].
  destruct (Z.leb_spec n 3); [lia | ].
  destruct (miller_rabin_test_odd rnd n rounds s Hn Ho)
    as (r & d & Hd & Hod & Hr & Hdec & E).
  rewrite E.
  destruct (mr_rounds_answer rnd n d r Hn ltac:(lia) Hr (Z.to_nat rounds) s)
    as (b & s' & E' & Hb & Hs & _).
  assert (Hall : b = true).
  { apply Hb. intros i Hi.
    apply prime_strong_liar; try assumption; try lia.
    pose proof (mr_base_range rnd n s i Hn). rewrite Z.mod_small by lia. lia. }
  rewrite E', Hall, (Hs Hall). reflexivity.
Qed.

Lemma miller_rabin_accepts_every_prime_witness :
  Z.prime sample_p /\
  _miller_rabin_test sample_rnd sample_p 10 1%nat = (Done true, 11%nat).
Proof.
  split; [exact sample_p_prime | ].
  exact (miller_rabin_accepts_every_prime sample_rnd sample_p 10 1%nat sample_p_prime).
Defined.

(** X2. On an odd [n >= 5], with [n - 1 = d * 2 ^ r] and [d] odd,
    [_miller_rabin_test] answers [True] exactly when every base [a] it
    draws, one a round, has [a ^ d = 1] or [a ^ (d * 2 ^ j) = -1] modulo [n]
    for some [j < r]; it then has drawn one base for each round, every base
    lies in [[2, n - 2]] and satisfies [a ^ (n - 1) = 1] modulo [n]. *)
Theorem miller_rabin_accepts_strong_liars (rnd : nat -> Z) (n rounds : Z) (s : nat) :
  5 <= n -> Z.odd n = true ->
  exists d r b s',
    n - 1 = d * 2 ^ r /\ Z.odd d = true /\ 1 <= r /\
    _miller_rabin_test rnd n rounds s = (Done b, s') /\
    (b = true <->
       forall i, (i < Z.to_nat rounds)%nat ->
         (mr_base rnd n s i ^ d) mod n = 1 \/
         exists j, 0 <= j < r /\ (mr_base rnd n s i ^ (d * 2 ^ j)) mod n = n - 1) /\
    (b = true ->
       s' = (s + Z.to_nat rounds)%nat /\
       forall i, (i < Z.to_nat rounds)%nat ->
         2 <= mr_base rnd n s i <= n - 2 /\
         (mr_base rnd n s i ^ (n - 1)) mod n = 1).
Proof.
  intros Hn Ho.
  destruct (miller_rabin_test_odd rnd n rounds s Hn Ho)
    as (r & d & Hd & Hod & Hr & Hdec & E).
  destruct (mr_rounds_answer rnd n d r Hn ltac:(lia) Hr (Z.to_nat rounds) s)
    as (b & s' & E' & Hb & Hs & _).
  exists d, r, b, s'.
  split; [assumption | split; [assumption | split; [assumption | ]]].
  split; [rewrite E; assumption | ].
  split; [exact Hb | ].
  intros Ht. split; [apply Hs; assumption | ].
  intros i Hi. split; [apply mr_base_range; assumption | ].
  rewrite Hdec. apply strong_liar_fermat; try lia.
  apply Hb; assumption.
Qed.

Lemma miller_rabin_accepts_strong_liars_witness :
  5 <= 9 /\ Z.odd 9 = true /\
  exists d r b s',
    9 - 1 = d * 2 ^ r /\ Z.odd d = true /\ 1 <= r /\
    _miller_rabin_test zero_rnd 9 10 0%nat = (Done b, s') /\
    (b = true <->
       forall i, (i < Z.to_nat 10)%nat ->
         (mr_base zero_rnd 9 0 i ^ d) mod 9 = 1 \/
         exists j, 0 <= j < r /\ (mr_base zero_rnd 9 0 i ^ (d * 2 ^ j)) mod 9 = 9 - 1) /\
    (b = true ->
       s' = (0 + Z.to_nat 10)%nat /\
       forall i, (i < Z.to_nat 10)%nat ->
         2 <= mr_base zero_rnd 9 0 i <= 9 - 2 /\
         (mr_base zero_rnd 9 0 i ^ (9 - 1)) mod 9 = 1).
Proof.
  split; [lia | split; [reflexivity | ]].
  apply (miller_rabin_accepts_strong_liars zero_rnd 9 10 0%nat); [lia | reflexivity].
Defined.

(** X3. [_miller_rabin_test] always answers: it never raises, whatever [n]
    and the number of rounds, and draws at most one base a round.  For
    [n < 5] and for even [n] it answers without a draw, [True] for 2 and 3
    and [False] otherwise, so that [randrange(2, n - 1)] is only reached
    with a range that is not empty. *)
Theorem miller_rabin_always_answers (rnd : nat -> Z) (n rounds : Z) (s : nat) :
  exists b s',
    _miller_rabin_test rnd n rounds s = (Done b, s') /\
    (s <= s' <= s + Z.to_nat rounds)%nat /\
    (n < 5 \/ Z.even n = true -> s' = s /\ b = ((n =? 2) || (n =? 3))).
Proof.
  unfold _miller_rabin_test.
  destruct (Z.ltb_spec n 2) as [Hlt | Hge].
  - exists false, s. split; [reflexivity | split; [lia | ]].
    intros _. split; [reflexivity | ].
    destruct (Z.eqb_spec n 2); [lia | ]. destruct (Z.eqb_spec n 3); [lia | reflexivity].
  - destruct (Z.eqb_spec n 2) as [-> | H2].
    { exists true, s. split; [reflexivity | split; [lia | auto]]. }
    destruct (Z.eqb_spec n 3) as [-> | H3].
    { exists true, s. split; [reflexivity | split; [lia | auto]]. }
    simpl orb. cbv iota.
    destruct (Z.eqb_spec (n mod 2) 0) as [He | Hodd].
    { exists false, s. split; [reflexivity | split; [lia | auto]]. }
    assert (Hn : 5 <= n).
    { destruct (Z.eq_dec n 4) as [-> | ]; [exfalso; apply Hodd; reflexivity | lia]. }
    destruct (mr_decompose_pos (n - 1) ltac:(lia)) as (r & o & E & Ho').
    unfold bind, lift. rewrite E. cbn [fst snd].
    destruct (mr_rounds_total rnd (Z.to_nat rounds) n o r s Hn ltac:(lia))
      as (b & s' & E' & Hs').
    exists b, s'. split; [assumption | split; [assumption | ]].
    intros [Hsmall | Hev]; [lia | ].
    exfalso. apply Hodd. rewrite Zmod_even, Hev. reflexivity.
Qed.

(** ** The prime generator on its smallest bit lengths *)

(** X4. [_generate_prime] outside the bit lengths the constructor asks
    for: for a bit length of 0 or less the first iteration raises a
    [ValueError] (of [getrandbits] or of the shift); for 1 bit every
    candidate is 1, which the test refuses, and the loop never ends; for 2
    bits every candidate is 3 and the first iteration returns it. *)
Theorem generate_prime_small_bit_lengths (rnd : nat -> Z) (fuel : nat) (s : nat) :
  (forall bits, bits <= 0 ->
     exists msg s', _generate_prime rnd (S fuel) bits s = (Raise (ValueError msg), s')) /\
  fst (_generate_prime rnd fuel 1 s) = Diverge /\
  _generate_prime rnd (S fuel) 2 s = (Done 3, S s).
Proof.
  split; [ | split].
  - intros bits Hb. cbn [_generate_prime]. unfold bind at 1. unfold getrandbits.
    destruct (Z.ltb_spec bits 0).
    + eexists. eexists. reflexivity.
    + unfold bind at 1. unfold lift, py_shiftl.
      destruct (Z.ltb_spec (bits - 1) 0); [ | lia].
      eexists. eexists. reflexivity.
  - revert s. induction fuel as [ | fuel IH]; intros s; [reflexivity | ].
    cbn [_generate_prime]. unfold bind at 1. unfold getrandbits.
    change (1 <? 0) with false. cbv iota.
    unfold bind at 1. unfold lift at 1, py_shiftl.
    change (1 - 1 <? 0) with false. cbv iota.
    assert (Hc : Z.lor (Z.lor (rnd s mod 2 ^ 1) (Z.shiftl 1 (1 - 1))) 1 = 1).
    { pose proof (Z.mod_pos_bound (rnd s) (2 ^ 1) ltac:(lia)) as Hm.
      change (2 ^ 1) with 2 in *.
      assert (Hcases : rnd s mod 2 = 0 \/ rnd s mod 2 = 1) by lia.
      destruct Hcases as [-> | ->]; reflexivity. }
    rewrite Hc. change (has_small_factor 1) with false. cbv iota.
    unfold bind. change (_miller_rabin_test rnd 1 10 (S s)) with (@Done bool false, S s).
    cbv iota. apply IH.
  - cbn [_generate_prime]. unfold bind at 1. unfold getrandbits.
    change (2 <? 0) with false. cbv iota.
    unfold bind at 1. unfold lift at 1, py_shiftl.
    change (2 - 1 <? 0) with false. cbv iota.
    assert (Hc : Z.lor (Z.lor (rnd s mod 2 ^ 2) (Z.shiftl 1 (2 - 1))) 1 = 3).
    { pose proof (Z.mod_pos_bound (rnd s) (2 ^ 2) ltac:(lia)) as Hm.
      change (2 ^ 2) with 4 in *.
      assert (Hcases : rnd s mod 4 = 0 \/ rnd s mod 4 = 1 \/
                       rnd s mod 4 = 2 \/ rnd s mod 4 = 3) by lia.
      destruct Hcases as [-> | [-> | [-> | ->]]]; reflexivity. }
    rewrite Hc. change (has_small_factor 3) with false. cbv iota.
    reflexivity.
Qed.

(** ** The least common multiple *)

(** X5. [_compute_lcm(a, b)] returns the least common multiple, the
    non-negative common multiple that divides every other, unless [a] and
    [b] are both 0, where [math.gcd] is 0 and the division raises
    [ZeroDivisionError]. *)
Theorem compute_lcm_correct (a b : Z) :
  (a = 0 /\ b = 0 -> _compute_lcm a b = Raise ZeroDivisionError) /\
  (a <> 0 \/ b <> 0 ->
     exists l, _compute_lcm a b = Done l /\
               0 <= l /\ (a | l) /\ (b | l) /\
               (forall m, (a | m) -> (b | m) -> (l | m))).
Proof.
  split.
  - intros [-> ->]. reflexivity.
  - intros Hne.
    assert (Hg : Z.gcd a b <> 0).
    { intros H0. apply Z.gcd_eq_0 in H0. lia. }
    exists (Z.lcm a b). split; [apply compute_lcm_spec; assumption | ].
    split; [apply Z.lcm_nonneg | ].
    split; [apply Z.divide_lcm_l | ].
    split; [apply Z.divide_lcm_r | ].
    intros m Ha Hb. apply Z.lcm_least; assumption.
Qed.

(** ** The extended Euclidean algorithm on integers of any sign *)

(** The first component is a gcd up to its sign. *)
Lemma extended_gcd_rec_abs (frames : nat) :
  forall a b g x y,
    _extended_gcd frames a b = Done (g, x, y) -> Z.abs g = Z.gcd a b.
Proof.
  induction frames as [ | frames IH]; intros a b g x y H; simpl in H.
  - discriminate.
  - destruct (Z.eqb_spec a 0) as [Ha0 | Ha0].
    + inversion H; subst. symmetry. apply Z.gcd_0_l.
    + destruct (_extended_gcd frames (b mod a) a) as [[[g1 x1] y1] | | ] eqn:E;
        simpl in H; try discriminate.
      inversion H; subst. apply IH in E.
      rewrite E, Z.gcd_mod by assumption. reflexivity.
Qed.

(** Changing the sign of both arguments changes the sign of the first
    component only, and not the depth. *)
Lemma extended_gcd_rec_opp (frames : nat) :
  forall a b,
    _extended_gcd frames (- a) (- b) =
      omap (fun r => let '(g, x, y) := r in (- g, x, y)) (_extended_gcd frames a b).
Proof.
  induction frames as [ | frames IH]; intros a b; simpl.
  - reflexivity.
  - destruct (Z.eqb_spec a 0) as [Ha0 | Ha0].
    + subst a. simpl. reflexivity.
    + destruct (Z.eqb_spec (- a) 0) as [Hna | Hna]; [lia | ].
      rewrite Z.mod_opp_opp by assumption.
      rewrite IH. rewrite Z.div_opp_opp by assumption.
      destruct (_extended_gcd frames (b mod a) a) as [[[g1 x1] y1] | | ]; reflexivity.
Qed.

(** With a positive first argument the first component is the gcd. *)
Lemma extended_gcd_rec_pos (frames : nat) (a b g x y : Z) :
  0 < a -> _extended_gcd frames a b = Done (g, x, y) -> g = Z.gcd a b.
Proof.
  intros Ha E. pose proof (extended_gcd_rec_abs _ _ _ _ _ _ E) as Habs.
  destruct frames as [ | frames]; [discriminate | ].
  rewrite extended_gcd_rec_S in E.
  destruct (Z.eqb_spec a 0); [lia | ].
  destruct (_extended_gcd frames (b mod a) a) as [[[g1 x1] y1] | | ] eqn:E1;
    simpl in E; try discriminate.
  injection E as Hg1 _ _.
  apply extended_gcd_rec_gcd in E1; [ | apply Z.mod_pos_bound; lia | lia].
  assert (Hg : 0 <= g) by (rewrite <- Hg1, E1; apply Z.gcd_nonneg).
  rewrite Z.abs_eq in Habs by assumption. exact Habs.
Qed.

(** The first component has the sign of the first argument. *)
Lemma extended_gcd_rec_sign (frames : nat) (a b g x y : Z) :
  _extended_gcd frames a b = Done (g, x, y) ->
  g = (if a =? 0 then b else Z.sgn a * Z.gcd a b).
Proof.
  intros E. destruct (Z.lt_trichotomy a 0) as [Hneg | [-> | Hpos]].
  - destruct (Z.eqb_spec a 0); [lia | ]. rewrite Z.sgn_neg by assumption.
    pose proof (extended_gcd_rec_opp frames a b) as Ho. rewrite E in Ho. simpl in Ho.
    pose proof (extended_gcd_rec_pos frames (- a) (- b) (- g) x y ltac:(lia) Ho) as Hg.
    rewrite Z.gcd_opp_l, Z.gcd_opp_r in Hg. lia.
  - destruct frames as [ | frames]; [discriminate | ].
    rewrite extended_gcd_rec_S in E. change (0 =? 0) with true in *. cbv iota in *.
    congruence.
  - destruct (Z.eqb_spec a 0); [lia | ]. rewrite Z.sgn_pos by assumption.
    pose proof (extended_gcd_rec_pos frames a b g x y Hpos E). lia.
Qed.

(** Twice the bits of the first argument, and one, are frames enough,
    whatever the signs. *)
Lemma extended_gcd_total_signed (frames : nat) (a b : Z) :
  (2 * Z.to_nat (py_bit_length a) + 1 <= frames)%nat ->
  exists g x y, _extended_gcd frames a b = Done (g, x, y).
Proof.
  intros Hf. destruct (Z.le_gt_cases 0 a) as [Ha | Ha].
  - apply extended_gcd_total; assumption.
  - assert (Hbl : py_bit_length (- a) = py_bit_length a).
    { unfold py_bit_length. rewrite Z.abs_opp.
      destruct (Z.eqb_spec a 0), (Z.eqb_spec (- a) 0); lia || reflexivity. }
    destruct (extended_gcd_total frames (- a) (- b) ltac:(lia)) as (g & x & y & E).
    { rewrite Hbl. assumption. }
    pose proof (extended_gcd_rec_opp frames (- a) (- b)) as Ho.
    rewrite !Z.opp_involutive, E in Ho. simpl in Ho. eauto.
Qed.

Lemma bit_length_nonneg (a : Z) : 0 <= py_bit_length a.
Proof.
  unfold py_bit_length. destruct (a =? 0); [lia | ].
  pose proof (Z.log2_nonneg (Z.abs a)). lia.
Qed.

(** What a call does for every number of frames. *)
Lemma extended_gcd_signed (a b : Z) :
  exists d g x y,
    (1 <= d)%nat /\ Z.of_nat d <= 2 * py_bit_length a + 1 /\
    (forall frames, (d <= frames)%nat -> _extended_gcd frames a b = Done (g, x, y)) /\
    (forall frames, (frames < d)%nat ->
       _extended_gcd frames a b = Raise RecursionError) /\
    a * x + b * y = g /\
    Z.abs g = Z.gcd a b /\
    g = (if a =? 0 then b else Z.sgn a * Z.gcd a b).
Proof.
  pose proof (bit_length_nonneg a) as Hnn.
  destruct (extended_gcd_total_signed (2 * Z.to_nat (py_bit_length a) + 1) a b
              (Nat.le_refl _)) as (g & x & y & E).
  destruct (extended_gcd_rec_depth _ _ _ _ E) as (d & Hd & Hge & Hlt).
  exists d, g, x, y.
  split; [lia | ].
  split; [lia | ].
  split; [exact Hge | ].
  split; [exact Hlt | ].
  split; [exact (extended_gcd_rec_bezout _ _ _ _ _ _ E) | ].
  split; [exact (extended_gcd_rec_abs _ _ _ _ _ _ E) | ].
  exact (extended_gcd_rec_sign _ _ _ _ _ _ E).
Qed.

(** X6. [_extended_gcd(a, b)], for all integers [a] and [b], negative ones
    included, is [d] nested calls deep, for a [d] of at least 1 and at most
    twice the number of bits of [a], plus one.  With [d] frames or more it
    returns a triple [(g, x, y)], the same for any number of frames, with
    [a * x + b * y = g], where [g] is the gcd up to its sign, which is that
    of [a] ([g = b] when [a = 0]); with fewer frames it raises
    [RecursionError]. *)
Theorem extended_gcd_any_sign (a b : Z) :
  exists d g x y,
    (1 <= d)%nat /\ Z.of_nat d <= 2 * py_bit_length a + 1 /\
    (forall frames, (d <= frames)%nat -> _extended_gcd frames a b = Done (g, x, y)) /\
    (forall frames, (frames < d)%nat ->
       _extended_gcd frames a b = Raise RecursionError) /\
    a * x + b * y = g /\
    Z.abs g = Z.gcd a b /\
    g = (if a =? 0 then b else Z.sgn a * Z.gcd a b).
Proof. exact (extended_gcd_signed a b). Qed.

(** ** How deep the recursion goes *)

Lemma fib_le (k k' : nat) : (k <= k')%nat -> fib k <= fib k'.
Proof.
  intros Hle. induction Hle as [ | k' Hle IH]; [lia | ].
  pose proof (fib_mono k'). lia.
Qed.

(** Three frames for every two bits are enough. *)
Lemma fib_above_bits (frames : nat) (b : Z) :
  0 < b -> 3 * ((py_bit_length b + 1) / 2) <= Z.of_nat frames ->
  b < fib (S (S frames)).
Proof.
  intros Hb Hf. unfold py_bit_length in Hf.
  destruct (Z.eqb_spec b 0); [lia | ]. rewrite Z.abs_eq in Hf by lia.
  pose proof (Z.log2_nonneg b) as Hl.
  set (j := (Z.log2 b + 1 + 1) / 2) in *.
  assert (Hj : Z.log2 b + 1 <= 2 * j).
  { pose proof (Z.div_mod (Z.log2 b + 1 + 1) 2 ltac:(lia)) as Hdm.
    pose proof (Z.mod_pos_bound (Z.log2 b + 1 + 1) 2 ltac:(lia)). fold j in Hdm. lia. }
  assert (Hj0 : 0 <= j) by (apply Z.div_pos; lia).
  assert (Hlt : b < 2 ^ (Z.log2 b + 1)).
  { apply Z.log2_spec. assumption. }
  assert (Hpow : 2 ^ (Z.log2 b + 1) <= 4 ^ j).
  { change 4 with (2 ^ 2). rewrite <- Z.pow_mul_r by lia.
    apply Z.pow_le_mono_r; lia. }
  pose proof (fib_growth (Z.to_nat j)) as Hg. rewrite Z2Nat.id in Hg by assumption.
  pose proof (fib_le (3 * Z.to_nat j + 2) (S (S frames)) ltac:(lia)).
  lia.
Qed.

(** X7. How many frames [_extended_gcd(a, b)] needs for [0 <= a < b], as
    in [_modular_inverse]: [frames] frames are enough when [b] is below
    [fib (frames + 2)], and they are not on [fib (frames + 1)] and
    [fib (frames + 2)], so that bound is the best one; in bits, three frames
    for every two bits of [b] are enough. *)
Theorem extended_gcd_recursion_depth :
  (forall frames a b,
     0 <= a < b -> b < fib (S (S frames)) ->
     exists x y,
       _extended_gcd frames a b = Done (Z.gcd a b, x, y) /\
       a * x + b * y = Z.gcd a b) /\
  (forall frames,
     _extended_gcd frames (fib (S frames)) (fib (S (S frames)))
       = Raise RecursionError) /\
  (forall frames a b,
     0 <= a < b -> 3 * ((py_bit_length b + 1) / 2) <= Z.of_nat frames ->
     exists x y, _extended_gcd frames a b = Done (Z.gcd a b, x, y)).
Proof.
  split; [ | split].
  - intros frames a b Hab Hb. apply extended_gcd_fits; assumption.
  - intros [ | frames]; [reflexivity | ].
    apply extended_gcd_rec_fib; lia.
  - intros frames a b Hab Hf.
    destruct (extended_gcd_fits frames a b Hab) as (x & y & E & _).
    + apply fib_above_bits; [lia | assumption].
    + eauto.
Qed.

(** ** The modular inverse outside its domain *)

(** X8. [_modular_inverse(a, m)] for a modulus that is not positive never
    returns.  For [m = 0] the first remainder raises [ZeroDivisionError].
    For [m < 0] the recursion of [_extended_gcd] is [d] calls deep, [d]
    being at most twice the number of bits of [a % m], plus one: with [d]
    frames or more the call raises the no-inverse [ValueError] for every
    [a], coprime to [m] or not, since the gcd it computes is then never
    positive; with fewer frames it raises [RecursionError]. *)
Theorem modular_inverse_bad_modulus (a m : Z) :
  (m = 0 -> forall frames, _modular_inverse frames a m = Raise ZeroDivisionError) /\
  (m < 0 ->
   exists d,
     (1 <= d)%nat /\ Z.of_nat d <= 2 * py_bit_length (a mod m) + 1 /\
     (forall frames, (d <= frames)%nat ->
        _modular_inverse frames a m = Raise (ValueError NoModularInverse)) /\
     (forall frames, (frames < d)%nat ->
        _modular_inverse frames a m = Raise RecursionError)).
Proof.
  split.
  - intros -> frames. reflexivity.
  - intros Hm.
    pose proof (Z.mod_neg_bound a m Hm) as Hb.
    destruct (extended_gcd_signed (a mod m) m)
      as (d & g & x & y & Hd1 & Hd2 & Hge & Hlt & _ & _ & Hg).
    assert (Hne : g <> 1).
    { subst g. destruct (Z.eqb_spec (a mod m) 0); [lia | ].
      rewrite Z.sgn_neg by lia. pose proof (Z.gcd_nonneg (a mod m) m). lia. }
    exists d. split; [assumption | split; [assumption | split]].
    + intros frames Hf. unfold _modular_inverse.
      rewrite py_mod_spec by lia. cbn [obind].
      rewrite (Hge frames Hf). cbn [obind].
      destruct (Z.eqb_spec g 1); [contradiction | reflexivity].
    + intros frames Hf. unfold _modular_inverse.
      rewrite py_mod_spec by lia. cbn [obind].
      rewrite (Hlt frames Hf). reflexivity.
Qed.

(** ** The frames the modular inverse needs *)

(** X23. For a positive modulus, [_modular_inverse(a, m)] needs as many
    frames as the recursion of [_extended_gcd] on [a % m] and [m] is deep, a
    number [d] of at least 1 and at most twice the number of bits of
    [a % m], plus one.  With fewer frames it raises [RecursionError]; with
    [d] frames or more it does not, and what it does is the same for any
    such number of frames.  Frames for which [m] is below [fib (frames + 2)]
    are enough, and no more can be said from the size of [m]: on the coprime
    numbers [fib (frames + 1)] and [fib (frames + 2)] the call raises
    [RecursionError]. *)
Theorem modular_inverse_needs_frames (a m : Z) :
  0 < m ->
  (exists d,
     (1 <= d)%nat /\ Z.of_nat d <= 2 * py_bit_length (a mod m) + 1 /\
     (forall frames, (frames < d)%nat ->
        _modular_inverse frames a m = Raise RecursionError) /\
     (forall frames, (d <= frames)%nat ->
        _modular_inverse frames a m = _modular_inverse d a m /\
        _modular_inverse frames a m <> Raise RecursionError) /\
     (forall frames, m < fib (S (S frames)) -> (d <= frames)%nat)) /\
  (forall frames,
     Z.gcd (fib (S frames)) (fib (S (S frames))) = 1 /\
     _modular_inverse frames (fib (S frames)) (fib (S (S frames)))
       = Raise RecursionError).
Proof.
  intros Hm. split; [ | intros frames; split; [apply fib_coprime | apply modular_inverse_fib]].
  assert (Ham : 0 <= a mod m < m) by (apply Z.mod_pos_bound; lia).
  destruct (extended_gcd_signed (a mod m) m)
    as (d & g & x & y & Hd1 & Hd2 & Hge & Hlt & _).
  assert (Hrun : forall frames, (d <= frames)%nat ->
            _modular_inverse frames a m =
              if negb (g =? 1) then Raise (ValueError NoModularInverse)
              else Done ((x mod m + m) mod m)).
  { intros frames Hf. unfold _modular_inverse.
    rewrite py_mod_spec by lia. cbn [obind]. rewrite (Hge frames Hf). cbn [obind].
    destruct (negb (g =? 1)); [reflexivity | ].
    rewrite py_mod_spec by lia. cbn [obind]. apply py_mod_spec. lia. }
  exists d. split; [assumption | split; [assumption | split; [ | split]]].
  - intros frames Hf. unfold _modular_inverse.
    rewrite py_mod_spec by lia. cbn [obind]. rewrite (Hlt frames Hf). reflexivity.
  - intros frames Hf. rewrite (Hrun frames Hf), (Hrun d (Nat.le_refl d)).
    split; [reflexivity | ]. destruct (negb (g =? 1)); discriminate.
  - intros frames Hfib. destruct (Nat.le_gt_cases d frames) as [ | Hgt]; [assumption | ].
    destruct (extended_gcd_fits frames (a mod m) m Ham Hfib) as (x' & y' & E & _).
    rewrite (Hlt frames Hgt) in E. discriminate.
Qed.

Lemma modular_inverse_needs_frames_witness :
  0 < 7 /\
  (exists d,
     (1 <= d)%nat /\ Z.of_nat d <= 2 * py_bit_length (3 mod 7) + 1 /\
     (forall frames, (frames < d)%nat ->
        _modular_inverse frames 3 7 = Raise RecursionError) /\
     (forall frames, (d <= frames)%nat ->
        _modular_inverse frames 3 7 = _modular_inverse d 3 7 /\
        _modular_inverse frames 3 7 <> Raise RecursionError) /\
     (forall frames, 7 < fib (S (S frames)) -> (d <= frames)%nat)) /\
  (forall frames,
     Z.gcd (fib (S frames)) (fib (S (S frames))) = 1 /\
     _modular_inverse frames (fib (S frames)) (fib (S (S frames)))
       = Raise RecursionError).
Proof.
  split; [lia | apply (modular_inverse_needs_frames 3 7); lia].
Defined.

(** ** How the constructor can fail *)



(** ** The checks of the bit length *)

(** X24. [create_paillier_instance] checks the bit length before anything
    else: below 512, or odd, it raises the key-size error without a single
    draw from the random source, whatever the source and the loop budget,
    and returns no object.  The constructor checks the lower bound only:
    below 512 it raises the key-size error without a draw, and from 512 on
    it never raises that error.  For an odd bit length of 512 or more it
    does what it does for the even number below it, which has the same half,
    and only the [bit_length] it stores differs. *)
Theorem bit_length_validation (rnd : nat -> Z) (frames fuel : nat)
    (bits : Z) (s : nat) :
  (bits < 512 \/ bits mod 2 <> 0 ->
   exists e,
     create_paillier_instance rnd frames fuel bits s = (Raise e, s) /\
     InvalidKeySizeError e) /\
  (bits < 512 ->
   __init__ rnd frames fuel bits s = (Raise (ValueError BitLengthTooSmall), s)) /\
  (512 <= bits ->
   forall e s', __init__ rnd frames fuel bits s = (Raise e, s') ->
                ~ InvalidKeySizeError e) /\
  (512 <= bits -> bits mod 2 <> 0 ->
   match __init__ rnd frames fuel (bits - 1) s with
   | (Done pc, s') =>
       exists pc',
         __init__ rnd frames fuel bits s = (Done pc', s') /\
         bit_length pc = bits - 1 /\ bit_length pc' = bits /\
         public_key pc' = public_key pc /\
         private_key pc' = private_key pc /\
         n_squared pc' = n_squared pc
   | (Raise e, s') => __init__ rnd frames fuel bits s = (Raise e, s')
   | (Diverge, s') => __init__ rnd frames fuel bits s = (Diverge, s')
   end).
Proof.
  split; [ | split; [ | split]].
  - intros Hb. unfold create_paillier_instance.
    destruct (Z.ltb_spec bits 512).
    + eexists. split; [reflexivity | left; reflexivity].
    + destruct (Z.eqb_spec (bits mod 2) 0); [lia | ].
      eexists. split; [reflexivity | right; reflexivity].
  - intros Hlt. unfold __init__. destruct (Z.ltb_spec bits 512); [reflexivity | lia].
  - intros Hb e s' E [He | He].
    + pose proof (init_outcome rnd frames fuel bits s Hb) as Ho.
      rewrite E in Ho. destruct Ho as (p & q & _ & _ & _ & _ & [[H1 _] | [H1 _]]);
        congruence.
    + pose proof (init_outcome rnd frames fuel bits s Hb) as Ho.
      rewrite E in Ho. destruct Ho as (p & q & _ & _ & _ & _ & [[H1 _] | [H1 _]]);
        congruence.
  - apply init_odd_bit_length.
Qed.

(** ** What the object reports about its key *)

(** The number of bits of a product of two numbers of [k] bits. *)
Lemma product_bit_length (k p q : Z) :
  1 <= k ->
  2 ^ (k - 1) <= p < 2 ^ k -> 2 ^ (k - 1) <= q < 2 ^ k ->
  py_bit_length (p * q) = 2 * k \/ py_bit_length (p * q) = 2 * k - 1.
Proof.
  intros Hk Hp Hq.
  assert (Hpos : 0 < 2 ^ (k - 1)) by (apply Z.pow_pos_nonneg; lia).
  assert (Hlo : 2 ^ (2 * k - 2) <= p * q).
  { replace (2 * k - 2) with ((k - 1) + (k - 1)) by lia.
    rewrite Z.pow_add_r by lia. nia. }
  assert (Hhi : p * q < 2 ^ (2 * k)).
  { replace (2 * k) with (k + k) by lia. rewrite Z.pow_add_r by lia. nia. }
  unfold py_bit_length.
  assert (Hn : 0 < p * q) by nia.
  destruct (Z.eqb_spec (p * q) 0); [lia | ].
  rewrite Z.abs_eq by lia.
  assert (H1 : 2 * k - 2 <= Z.log2 (p * q)).
  { apply Z.log2_le_pow2; [lia | assumption]. }
  assert (H2 : Z.log2 (p * q) < 2 * k).
  { apply Z.log2_lt_pow2; [lia | assumption]. }
  lia.
Qed.

(** X10. On an object the constructor returned for the bit length [bits],
    [get_public_key] returns [n] and [g = n + 1] and [get_key_info] reports
    the requested [bits] (also as the security level), [n] and [g]; [n] is
    odd and has [2 * (bits // 2)] bits or one bit less, so the modulus can be
    up to two bits shorter than the bit length reported. *)
Theorem key_info_of_constructed_object (rnd : nat -> Z) (frames fuel : nat)
    (bits : Z) (s s' : nat) (pc : PaillierCore) :
  __init__ rnd frames fuel bits s = (Done pc, s') ->
  exists n,
    get_public_key pc = Done {| pk_n := n; pk_g := n + 1 |} /\
    get_key_info pc = KeyInfo bits (py_bit_length n) bits n (n + 1) /\
    Z.odd n = true /\
    (py_bit_length n = 2 * (bits / 2) \/ py_bit_length n = 2 * (bits / 2) - 1).
Proof.
  intros E. apply init_probable_primes in E.
  destruct E as (Hb & Hbl & p & q & Hpq & Hp & Hq & Hk).
  destruct Hp as (Hp1 & Hp2 & _). destruct Hq as (Hq1 & Hq2 & _).
  exists (p * q).
  unfold get_public_key, get_key_info. rewrite (key_public _ _ _ Hk), Hbl. cbn [pk_n pk_g].
  split; [reflexivity | split; [reflexivity | split]].
  - rewrite Z.odd_mul, Hp2, Hq2. reflexivity.
  - apply product_bit_length; try assumption.
    pose proof (half_bits bits Hb). lia.
Qed.

Lemma key_info_of_constructed_object_witness :
  __init__ sample_rnd script_frames 2 512 0%nat = (Done sample_key, 23%nat) /\
  exists n,
    get_public_key sample_key = Done {| pk_n := n; pk_g := n + 1 |} /\
    get_key_info sample_key = KeyInfo 512 (py_bit_length n) 512 n (n + 1) /\
    Z.odd n = true /\
    (py_bit_length n = 2 * (512 / 2) \/ py_bit_length n = 2 * (512 / 2) - 1).
Proof.
  split; [exact sample_run | ].
  exact (key_info_of_constructed_object sample_rnd script_frames 2 512 0%nat 23%nat
           sample_key
           sample_run).
Defined.

(** ** The operations on a constructed object *)

Lemma homomorphic_add_spec (pc : PaillierCore) (p q c1 c2 : Z) :
  2 <= p -> 2 <= q -> key_of pc p q ->
  homomorphic_add pc c1 c2 = Done ((c1 * c2) mod (p * q * (p * q))).
Proof.
  intros Hp Hq Hk. unfold homomorphic_add, get_n_squared.
  rewrite (key_public _ _ _ Hk), (key_n_squared _ _ _ Hk). cbn [obind].
  apply py_mod_spec. nia.
Qed.

Lemma homomorphic_multiply_constant_spec (pc : PaillierCore) (p q c k : Z) :
  2 <= p -> 2 <= q -> key_of pc p q -> 0 <= k ->
  homomorphic_multiply_constant pc c k = Done ((c ^ k) mod (p * q * (p * q))).
Proof.
  intros Hp Hq Hk Hk0. unfold homomorphic_multiply_constant, pow_n_squared.
  rewrite (key_public _ _ _ Hk), (key_n_squared _ _ _ Hk).
  destruct (Z.ltb_spec k 0); [lia | ]. cbn [obind].
  apply py_pow_spec; [assumption | nia].
Qed.

Lemma homomorphic_multiply_constant_negative (pc : PaillierCore) (p q c k : Z) :
  key_of pc p q -> k < 0 ->
  homomorphic_multiply_constant pc c k = Raise (ValueError ConstantNegative).
Proof.
  intros Hk Hneg. unfold homomorphic_multiply_constant.
  rewrite (key_public _ _ _ Hk). destruct (Z.ltb_spec k 0); [reflexivity | lia].
Qed.

(** X11. On a constructed object no public method raises anything but
    the errors of its input validation: [encrypt] raises only the two
    plaintext errors, [homomorphic_multiply_constant] only the
    negative-constant error and only for a negative constant, and
    [decrypt], [homomorphic_add], [get_public_key] and [get_key_info] never
    raise; there is no [TypeError], no [ZeroDivisionError], no missing-key
    error and no error of [pow].  Only [encrypt] has a loop that can keep
    running. *)
Theorem constructed_object_raises_only_input_errors (pc : PaillierCore) :
  ready pc ->
  forall rnd c s,
    match fst (fst (invoke rnd pc c s)) with
    | Done _ => True
    | Raise e =>
        match c with
        | CallEncrypt _ _ =>
            e = ValueError PlaintextNegative \/ e = ValueError PlaintextTooLarge
        | CallHomomorphicMultiplyConstant _ k =>
            e = ValueError ConstantNegative /\ k < 0
        | _ => False
        end
    | Diverge => exists fuel m, c = CallEncrypt fuel m
    end.
Proof.
  intros Hr rnd c s.
  destruct (ready_key pc Hr) as (p & q & Hp & Hq & Hpq & Hk).
  destruct c as [fuel m | c | c1 c2 | c k | | ]; cbn [invoke].
  - destruct (Z.lt_ge_cases m 0) as [Hneg | Hnn];
      [ | destruct (Z.lt_ge_cases m (p * q)) as [Hlt | Hbig] ].
    + destruct (encrypt_invalid rnd pc p q m fuel s Hk (or_introl Hneg)) as (e & E & He).
      rewrite E. cbn. exact He.
    + pose proof (encrypt_outcome rnd pc p q m fuel s Hp Hq Hk (conj Hnn Hlt)) as Ho.
      destruct (encrypt rnd fuel pc m s) as [[c | e | ] s1]; cbn;
        [exact I | contradiction | exists fuel, m; reflexivity].
    + destruct (encrypt_invalid rnd pc p q m fuel s Hk (or_intror Hbig)) as (e & E & He).
      rewrite E. cbn. exact He.
  - destruct (decrypt_spec pc p q c Hp Hq Hk) as (mu & _ & _ & E). rewrite E. exact I.
  - rewrite (homomorphic_add_spec pc p q) by assumption. exact I.
  - destruct (Z.lt_ge_cases k 0) as [Hneg | Hnn].
    + rewrite (homomorphic_multiply_constant_negative pc p q) by assumption.
      cbn. split; [reflexivity | assumption].
    + rewrite (homomorphic_multiply_constant_spec pc p q) by assumption. exact I.
  - unfold get_public_key. rewrite (key_public _ _ _ Hk). exact I.
  - exact I.
Qed.

Lemma constructed_object_raises_only_input_errors_witness :
  ready sample_key /\
  forall rnd c s,
    match fst (fst (invoke rnd sample_key c s)) with
    | Done _ => True
    | Raise e =>
        match c with
        | CallEncrypt _ _ =>
            e = ValueError PlaintextNegative \/ e = ValueError PlaintextTooLarge
        | CallHomomorphicMultiplyConstant _ k =>
            e = ValueError ConstantNegative /\ k < 0
        | _ => False
        end
    | Diverge => exists fuel m, c = CallEncrypt fuel m
    end.
Proof.
  split; [exact sample_ready | ].
  exact (constructed_object_raises_only_input_errors sample_key sample_ready).
Defined.

Lemma encrypt_run_well_formed (rnd : nat -> Z) (pc : PaillierCore) (p q m : Z)
    (fuel : nat) (s s' : nat) (c : Z) :
  2 <= p -> 2 <= q -> key_of pc p q -> 0 <= m < p * q ->
  encrypt rnd fuel pc m s = (Done c, s') ->
  exists r,
    1 <= r < p * q /\ Z.gcd r (p * q) = 1 /\
    c = ((1 + p * q) ^ m * r ^ (p * q)) mod (p * q * (p * q)).
Proof.
  intros Hp Hq Hk Hm E.
  pose proof (encrypt_outcome rnd pc p q m fuel s Hp Hq Hk Hm) as Ho.
  rewrite E in Ho. destruct Ho as (_ & r & Hr & Hg & Ew).
  rewrite encrypt_with_spec in Ew by (assumption || lia).
  injection Ew as Hc.
  assert (Hnn : p * q * (p * q) <> 0) by nia.
  rewrite <- Z.mul_mod in Hc by assumption.
  rewrite (Z.add_comm (p * q) 1) in Hc.
  exists r. split; [assumption | split; [assumption | symmetry; assumption]].
Qed.

Lemma encrypt_run_encrypts_any_key (rnd : nat -> Z) (pc : PaillierCore) (p q m : Z)
    (fuel : nat) (s s' : nat) (c : Z) :
  2 <= p -> 2 <= q -> key_of pc p q -> 0 <= m < p * q ->
  encrypt rnd fuel pc m s = (Done c, s') -> encrypts (p * q) m c.
Proof.
  intros Hp Hq Hk Hm E.
  destruct (encrypt_run_well_formed rnd pc p q m fuel s s' c Hp Hq Hk Hm E)
    as (r & _ & Hg & Hc).
  exists r. split; [assumption | ].
  rewrite Hc. apply Z.mod_mod. nia.
Qed.

(** X12. Whatever the key, a ciphertext [encrypt] returns on a
    constructed object is [(1 + n) ^ m * r ^ n mod n * n] for the plaintext
    [m], which lies in [[0, n)], and for some [r] in [[1, n - 1]] coprime to
    [n]; modulo [n] it is [r ^ n], free of the plaintext; it is coprime to
    [n] and so never 0. *)
Theorem ciphertext_shape (pc : PaillierCore) :
  ready pc ->
  exists pk,
    public_key pc = Some pk /\
    forall rnd fuel m s c s',
      encrypt rnd fuel pc m s = (Done c, s') ->
      0 <= m < pk_n pk /\
      (exists r,
         1 <= r < pk_n pk /\ Z.gcd r (pk_n pk) = 1 /\
         c = ((1 + pk_n pk) ^ m * r ^ pk_n pk) mod (pk_n pk * pk_n pk) /\
         c mod pk_n pk = (r ^ pk_n pk) mod pk_n pk) /\
      Z.gcd c (pk_n pk) = 1 /\ 0 < c < pk_n pk * pk_n pk.
Proof.
  intros Hr. destruct (ready_key pc Hr) as (p & q & Hp & Hq & Hpq & Hk).
  exists {| pk_n := p * q; pk_g := p * q + 1 |}. cbn [pk_n].
  assert (Hn : 1 < p * q) by nia.
  assert (Hnn : p * q * (p * q) <> 0) by nia.
  split; [apply (key_public _ _ _ Hk) | ].
  intros rnd fuel m s c s' E.
  assert (Hm : 0 <= m < p * q).
  { destruct (Z.lt_ge_cases m 0) as [Hneg | Hnn0];
      [ | destruct (Z.lt_ge_cases m (p * q)) as [Hlt | Hbig]; [lia | ] ].
    - destruct (encrypt_invalid rnd pc p q m fuel s Hk (or_introl Hneg)) as (e & E' & _).
      rewrite E' in E. discriminate.
    - destruct (encrypt_invalid rnd pc p q m fuel s Hk (or_intror Hbig)) as (e & E' & _).
      rewrite E' in E. discriminate. }
  pose proof (encrypt_outcome rnd pc p q m fuel s Hp Hq Hk Hm) as Ho.
  rewrite E in Ho. destruct Ho as (Hc & _).
  destruct (encrypt_run_well_formed rnd pc p q m fuel s s' c Hp Hq Hk Hm E)
    as (r & Hr1 & Hg & Hceq).
  assert (Hmodn : c mod (p * q) = (r ^ (p * q)) mod (p * q)).
  { rewrite Hceq. apply plaintext_factor_mod_n; lia. }
  assert (Hgc : Z.gcd c (p * q) = 1).
  { rewrite Z.gcd_comm, <- Z.gcd_mod, Hmodn, Z.gcd_mod, Z.gcd_comm by lia.
    apply Z.coprime_pow_l; [lia | assumption]. }
  split; [assumption | ].
  split.
  { exists r. split; [assumption | split; [assumption | split; assumption]]. }
  split; [assumption | ].
  split; [ | apply Hc].
  destruct (Z.eq_dec c 0) as [Hc0 | ]; [ | lia].
  rewrite Hc0, Z.gcd_0_l, Z.abs_eq in Hgc by lia. lia.
Qed.

Lemma ciphertext_shape_witness :
  ready sample_key /\
  exists pk,
    public_key sample_key = Some pk /\
    forall rnd fuel m s c s',
      encrypt rnd fuel sample_key m s = (Done c, s') ->
      0 <= m < pk_n pk /\
      (exists r,
         1 <= r < pk_n pk /\ Z.gcd r (pk_n pk) = 1 /\
         c = ((1 + pk_n pk) ^ m * r ^ pk_n pk) mod (pk_n pk * pk_n pk) /\
         c mod pk_n pk = (r ^ pk_n pk) mod pk_n pk) /\
      Z.gcd c (pk_n pk) = 1 /\ 0 < c < pk_n pk * pk_n pk.
Proof.
  split; [exact sample_ready | exact (ciphertext_shape sample_key sample_ready)].
Defined.

(** X13. On a constructed object [decrypt] reads its argument modulo
    [n * n] only: a number and the same number plus a multiple of [n * n],
    or reduced modulo [n * n], decrypt alike, so nothing tells a ciphertext
    in [[0, n * n)] from one outside. *)
Theorem decrypt_ignores_multiples_of_n_squared (pc : PaillierCore) :
  ready pc ->
  exists pk,
    public_key pc = Some pk /\
    forall c t,
      decrypt pc (c + t * (pk_n pk * pk_n pk)) = decrypt pc c /\
      decrypt pc (c mod (pk_n pk * pk_n pk)) = decrypt pc c.
Proof.
  intros Hr. destruct (ready_key pc Hr) as (p & q & Hp & Hq & Hpq & Hk).
  exists {| pk_n := p * q; pk_g := p * q + 1 |}. cbn [pk_n].
  assert (Hnn : p * q * (p * q) <> 0) by nia.
  split; [apply (key_public _ _ _ Hk) | ].
  intros c t.
  destruct (decrypt_spec pc p q c Hp Hq Hk) as (mu & Hsk & _ & E).
  destruct (decrypt_spec pc p q (c + t * (p * q * (p * q))) Hp Hq Hk)
    as (mu1 & Hsk1 & _ & E1).
  destruct (decrypt_spec pc p q (c mod (p * q * (p * q))) Hp Hq Hk)
    as (mu2 & Hsk2 & _ & E2).
  rewrite Hsk in Hsk1, Hsk2. inversion Hsk1; inversion Hsk2; subst mu1 mu2.
  rewrite E, E1, E2. split; f_equal.
  - rewrite <- (Z.mod_pow_l (c + _)), Z.mod_add, Z.mod_pow_l by assumption. reflexivity.
  - rewrite Z.mod_pow_l. reflexivity.
Qed.

Lemma decrypt_ignores_multiples_of_n_squared_witness :
  ready sample_key /\
  exists pk,
    public_key sample_key = Some pk /\
    forall c t,
      decrypt sample_key (c + t * (pk_n pk * pk_n pk)) = decrypt sample_key c /\
      decrypt sample_key (c mod (pk_n pk * pk_n pk)) = decrypt sample_key c.
Proof.
  split; [exact sample_ready | ].
  exact (decrypt_ignores_multiples_of_n_squared sample_key sample_ready).
Defined.

(** X14. On a constructed object [homomorphic_add] never fails, returns a
    number in [[0, n * n)], and is commutative and associative, for
    arbitrary integers and whatever the key: the order in which ciphertexts
    are added up does not change the sum. *)
Theorem homomorphic_add_commutative_associative (pc : PaillierCore) :
  ready pc ->
  exists pk,
    public_key pc = Some pk /\
    (forall c1 c2,
       exists c, homomorphic_add pc c1 c2 = Done c /\
                 homomorphic_add pc c2 c1 = Done c /\
                 0 <= c < pk_n pk * pk_n pk) /\
    (forall c1 c2 c3 c12 c23,
       homomorphic_add pc c1 c2 = Done c12 ->
       homomorphic_add pc c2 c3 = Done c23 ->
       homomorphic_add pc c12 c3 = homomorphic_add pc c1 c23).
Proof.
  intros Hr. destruct (ready_key pc Hr) as (p & q & Hp & Hq & Hpq & Hk).
  exists {| pk_n := p * q; pk_g := p * q + 1 |}. cbn [pk_n].
  assert (Hnn : p * q * (p * q) <> 0) by nia.
  split; [apply (key_public _ _ _ Hk) | split].
  - intros c1 c2. exists ((c1 * c2) mod (p * q * (p * q))).
    rewrite !(homomorphic_add_spec pc p q) by assumption.
    split; [reflexivity | split; [rewrite Z.mul_comm; reflexivity | ]].
    apply Z.mod_pos_bound. nia.
  - intros c1 c2 c3 c12 c23 E12 E23.
    rewrite !(homomorphic_add_spec pc p q) in * by assumption.
    inversion E12; inversion E23; subst c12 c23. f_equal.
    rewrite Z.mul_mod_idemp_l, Z.mul_mod_idemp_r by assumption.
    f_equal. ring.
Qed.

Lemma homomorphic_add_commutative_associative_witness :
  ready sample_key /\
  exists pk,
    public_key sample_key = Some pk /\
    (forall c1 c2,
       exists c, homomorphic_add sample_key c1 c2 = Done c /\
                 homomorphic_add sample_key c2 c1 = Done c /\
                 0 <= c < pk_n pk * pk_n pk) /\
    (forall c1 c2 c3 c12 c23,
       homomorphic_add sample_key c1 c2 = Done c12 ->
       homomorphic_add sample_key c2 c3 = Done c23 ->
       homomorphic_add sample_key c12 c3 = homomorphic_add sample_key c1 c23).
Proof.
  split; [exact sample_ready | ].
  exact (homomorphic_add_commutative_associative sample_key sample_ready).
Defined.

(** X15. On a constructed object, whatever the key and the number [c]:
    scaling by 0 gives the ciphertext 1, which decrypts to 0; scaling by 1
    reduces [c] modulo [n * n]; scaling by [k1] and then by [k2] is scaling
    by [k1 * k2]; and the homomorphic sum of the scalings by [k1] and by [k2]
    is the scaling by [k1 + k2]. *)
Theorem scaling_composes (pc : PaillierCore) :
  ready pc ->
  exists pk,
    public_key pc = Some pk /\
    (forall c, homomorphic_multiply_constant pc c 0 = Done 1) /\
    decrypt pc 1 = Done 0 /\
    (forall c, homomorphic_multiply_constant pc c 1 = Done (c mod (pk_n pk * pk_n pk))) /\
    (forall c k1 k2 c1,
       0 <= k1 -> 0 <= k2 ->
       homomorphic_multiply_constant pc c k1 = Done c1 ->
       homomorphic_multiply_constant pc c1 k2 =
         homomorphic_multiply_constant pc c (k1 * k2)) /\
    (forall c k1 k2 c1 c2,
       0 <= k1 -> 0 <= k2 ->
       homomorphic_multiply_constant pc c k1 = Done c1 ->
       homomorphic_multiply_constant pc c k2 = Done c2 ->
       homomorphic_add pc c1 c2 = homomorphic_multiply_constant pc c (k1 + k2)).
Proof.
  intros Hr. destruct (ready_key pc Hr) as (p & q & Hp & Hq & Hpq & Hk).
  exists {| pk_n := p * q; pk_g := p * q + 1 |}. cbn [pk_n].
  assert (Hn : 1 < p * q) by nia.
  assert (Hnn : p * q * (p * q) <> 0) by nia.
  assert (H1 : 1 < p * q * (p * q)) by nia.
  split; [apply (key_public _ _ _ Hk) | ].
  split; [ | split; [ | split; [ | split]]].
  - intros c. rewrite (homomorphic_multiply_constant_spec pc p q) by (assumption || lia).
    rewrite Z.pow_0_r, Z.mod_small by lia. reflexivity.
  - destruct (decrypt_spec pc p q 1 Hp Hq Hk) as (mu & _ & _ & E). rewrite E.
    rewrite Z.pow_1_l by apply Z.lcm_nonneg.
    rewrite (Z.mod_small 1) by lia. rewrite Z.sub_diag, Z.div_0_l by lia.
    rewrite Z.mul_0_l, Z.mod_0_l by lia. reflexivity.
  - intros c. rewrite (homomorphic_multiply_constant_spec pc p q) by (assumption || lia).
    rewrite Z.pow_1_r. reflexivity.
  - intros c k1 k2 c1 Hk1 Hk2 E1.
    rewrite (homomorphic_multiply_constant_spec pc p q) in E1 by assumption.
    inversion E1; subst c1.
    rewrite !(homomorphic_multiply_constant_spec pc p q) by (assumption || nia).
    rewrite Z.mod_pow_l, <- Z.pow_mul_r by assumption. reflexivity.
  - intros c k1 k2 c1 c2 Hk1 Hk2 E1 E2.
    rewrite (homomorphic_multiply_constant_spec pc p q) in E1, E2 by assumption.
    inversion E1; inversion E2; subst c1 c2.
    rewrite (homomorphic_add_spec pc p q) by assumption.
    rewrite (homomorphic_multiply_constant_spec pc p q) by (assumption || lia).
    rewrite <- Z.mul_mod, Z.pow_add_r by assumption. reflexivity.
Qed.

Lemma scaling_composes_witness :
  ready sample_key /\
  exists pk,
    public_key sample_key = Some pk /\
    (forall c, homomorphic_multiply_constant sample_key c 0 = Done 1) /\
    decrypt sample_key 1 = Done 0 /\
    (forall c, homomorphic_multiply_constant sample_key c 1
               = Done (c mod (pk_n pk * pk_n pk))) /\
    (forall c k1 k2 c1,
       0 <= k1 -> 0 <= k2 ->
       homomorphic_multiply_constant sample_key c k1 = Done c1 ->
       homomorphic_multiply_constant sample_key c1 k2 =
         homomorphic_multiply_constant sample_key c (k1 * k2)) /\
    (forall c k1 k2 c1 c2,
       0 <= k1 -> 0 <= k2 ->
       homomorphic_multiply_constant sample_key c k1 = Done c1 ->
       homomorphic_multiply_constant sample_key c k2 = Done c2 ->
       homomorphic_add sample_key c1 c2
         = homomorphic_multiply_constant sample_key c (k1 + k2)).
Proof.
  split; [exact sample_ready | exact (scaling_composes sample_key sample_ready)].
Defined.

(** ** The security analyzer *)

Lemma prime_by_trial (l : Z) :
  1 < l ->
  forallb (fun n => negb (l mod n =? 0)) (map Z.of_nat (seq 2 (Z.to_nat l - 2))) = true ->
  Z.prime l.
Proof.
  intros Hl Hall. split; [assumption | ].
  intros n Hn Hd. rewrite forallb_forall in Hall.
  assert (Hin : In n (map Z.of_nat (seq 2 (Z.to_nat l - 2)))).
  { apply in_map_iff. exists (Z.to_nat n). split; [lia | ].
    apply in_seq. lia. }
  apply Hall in Hin. apply negb_true_iff in Hin.
  apply Z.eqb_neq in Hin. apply Hin.
  apply Z.mod_divide; [lia | assumption].
Qed.

Lemma analyzer_small_primes_prime : Forall Z.prime Security.small_primes.
Proof.
  unfold Security.small_primes.
  repeat (constructor; [apply prime_by_trial; [lia | vm_compute; reflexivity] | ]).
  constructor.
Qed.

Lemma In_analyzer_small_primes (l : Z) :
  In l Security.small_primes <->
  l = 2 \/ In l small_primes \/ In l [37; 41; 43; 47].
Proof.
  unfold Security.small_primes, small_primes. simpl. intuition lia.
Qed.

(** The filter of the prime generator, on a candidate beyond 31. *)
Lemma no_small_factor (c l : Z) :
  31 < c -> has_small_factor c = false -> In l small_primes -> c mod l <> 0.
Proof.
  intros Hc Hf Hin. unfold has_small_factor in Hf.
  assert (Hfilter : filter (fun p => negb (c =? p)) small_primes = small_primes).
  { unfold small_primes. simpl.
    repeat match goal with
           | |- context [c =? ?l] => destruct (Z.eqb_spec c l); [lia | ]
           end.
    reflexivity. }
  rewrite Hfilter in Hf.
  intros H0. apply not_true_iff_false in Hf. apply Hf.
  apply existsb_exists. exists l. split; [assumption | apply Z.eqb_eq; assumption].
Qed.

Lemma product_mod_prime (l p q : Z) :
  Z.prime l -> p mod l <> 0 -> q mod l <> 0 -> (p * q) mod l <> 0.
Proof.
  intros Hl Hp Hq H0. pose proof (Z.prime_ge_2 l Hl).
  apply Z.mod_divide in H0; [ | lia].
  apply Z.divide_prime_mul in H0; [ | assumption].
  destruct H0 as [H0 | H0]; apply Z.mod_divide in H0; try lia; contradiction.
Qed.

Lemma prime_mod_smaller_prime (l p : Z) :
  Z.prime l -> Z.prime p -> l < p -> p mod l <> 0.
Proof.
  intros Hl Hp Hlt H0. pose proof (Z.prime_ge_2 l Hl).
  apply Z.mod_divide in H0; [ | lia].
  apply Z.divide_prime_prime in H0; [lia | assumption | assumption].
Qed.

Lemma odd_mod_2 (n : Z) : Z.odd n = true -> n mod 2 <> 0.
Proof. intros Ho. rewrite Zmod_odd, Ho. discriminate. Qed.

(** The result of [test_key_strength], by the bits of [n] and its small
    factors. *)
Lemma test_key_strength_result (self : Security.PaillierSecurityAnalyzer) (n : Z) :
  public_n (Security.paillier self) = Done n ->
  exists result,
    Security.test_key_strength self = Done (Security.record_result self result) /\
    Security.test_name result = "Key Strength Analysis"%string /\
    Security.passed result =
      (py_bit_length n >=? 1024)
      && match filter (fun p => n mod p =? 0) Security.small_primes with
         | [] => true
         | _ :: _ => false
         end /\
    (Security.risk_level result = "CRITICAL"%string <->
     filter (fun p => n mod p =? 0) Security.small_primes <> []).
Proof.
  intros En. unfold Security.test_key_strength. rewrite En. cbn [obind].
  destruct (filter (fun p => n mod p =? 0) Security.small_primes) as [ | l fs];
    destruct (py_bit_length n >=? 3072);
    [ | destruct (py_bit_length n >=? 2048);
        [ | destruct (py_bit_length n >=? 1024)] | |
      destruct (py_bit_length n >=? 2048);
        [ | destruct (py_bit_length n >=? 1024)] ];
    (eexists; split; [reflexivity | ]; cbn;
     split; [reflexivity | ];
     split; [rewrite ?andb_true_r, ?andb_false_r; reflexivity | ];
     split; intros H; try discriminate; try reflexivity; try congruence).
Qed.

(** X16. [test_key_strength] on an object the constructor returned: 2 and
    the primes from 3 to 31, which the prime generator filters out, never
    divide [n], so the only small factors the test can find are 37, 41, 43
    and 47; the test passes exactly when [n] has at least 1024 bits and none
    of these four divides it, and reports the risk CRITICAL exactly when one
    of them does.  When the key was built from two primes the risk is never
    CRITICAL and the test passes exactly when [n] has at least 1024 bits
    (which can fail for a requested bit length of 1024, [n] having 1023
    bits).  The result is appended to [test_results]. *)
Theorem key_strength_of_constructed_object (rnd : nat -> Z) (frames fuel : nat)
    (bits : Z) (s s' : nat) (pc : PaillierCore)
    (results : list Security.SecurityTestResult) :
  __init__ rnd frames fuel bits s = (Done pc, s') ->
  exists n result,
    public_key pc = Some {| pk_n := n; pk_g := n + 1 |} /\
    Security.test_key_strength
      {| Security.paillier := pc; Security.test_results := results |} =
      Done (result,
            {| Security.paillier := pc; Security.test_results := results ++ [result] |}) /\
    Security.test_name result = "Key Strength Analysis"%string /\
    (forall l, In l [2; 3; 5; 7; 11; 13; 17; 19; 23; 29; 31] -> n mod l <> 0) /\
    (Security.passed result = true <->
     1024 <= py_bit_length n /\ forall l, In l [37; 41; 43; 47] -> n mod l <> 0) /\
    (Security.risk_level result = "CRITICAL"%string <->
     exists l, In l [37; 41; 43; 47] /\ n mod l = 0) /\
    (forall p q,
       key_of pc p q -> Z.prime p -> Z.prime q -> 47 < p -> 47 < q ->
       Security.passed result = (py_bit_length n >=? 1024) /\
       Security.risk_level result <> "CRITICAL"%string).
Proof.
  intros E. apply init_probable_primes in E.
  destruct E as (Hb & Hbl & p & q & Hpq & Hp & Hq & Hk).
  destruct Hp as (Hp1 & Hp2 & Hp3 & _). destruct Hq as (Hq1 & Hq2 & Hq3 & _).
  pose proof (half_bits bits Hb) as Hbits.
  assert (Hbig : 2 ^ 6 <= 2 ^ (bits / 2 - 1)) by (apply Z.pow_le_mono_r; lia).
  change (2 ^ 6) with 64 in Hbig.
  set (self := {| Security.paillier := pc; Security.test_results := results |}).
  assert (En : public_n (Security.paillier self) = Done (p * q)).
  { unfold public_n. simpl. rewrite (key_public _ _ _ Hk). reflexivity. }
  destruct (test_key_strength_result self (p * q) En)
    as (result & Er & Hname & Hpass & Hrisk).
  assert (Hsmall : forall l, In l [2; 3; 5; 7; 11; 13; 17; 19; 23; 29; 31] ->
                             (p * q) mod l <> 0).
  { intros l Hl. destruct Hl as [<- | Hl].
    - apply odd_mod_2. rewrite Z.odd_mul, Hp2, Hq2. reflexivity.
    - assert (Hl' : In l Security.small_primes).
      { apply In_analyzer_small_primes. right. left. exact Hl. }
      pose proof analyzer_small_primes_prime as Hall. rewrite Forall_forall in Hall.
      apply product_mod_prime; [apply Hall; assumption | | ];
        apply no_small_factor; assumption || lia. }
  assert (Hfilter : forall l,
            In l (filter (fun l => (p * q) mod l =? 0) Security.small_primes)
            <-> In l [37; 41; 43; 47] /\ (p * q) mod l = 0).
  { intros l. rewrite filter_In, In_analyzer_small_primes, Z.eqb_eq. split.
    - intros [[-> | [Hl | Hl]] H0]; [ | | tauto].
      + exfalso. apply (Hsmall 2); simpl; auto.
      + exfalso. apply (Hsmall l); [right; exact Hl | assumption].
    - tauto. }
  assert (Hnil : match filter (fun l => (p * q) mod l =? 0) Security.small_primes with
                 | [] => true
                 | _ :: _ => false
                 end = true
                 <-> forall l, In l [37; 41; 43; 47] -> (p * q) mod l <> 0).
  { destruct (filter _ Security.small_primes) as [ | l0 fs] eqn:Ef; simpl.
    - split; [intros _ l Hl H0 | reflexivity].
      exact (proj2 (Hfilter l) (conj Hl H0)).
    - split; [discriminate | intros Hall].
      destruct (proj1 (Hfilter l0) (or_introl eq_refl)) as [Hin H0].
      exfalso. exact (Hall l0 Hin H0). }
  exists (p * q), result.
  split; [apply (key_public _ _ _ Hk) | ].
  split; [exact Er | ].
  split; [exact Hname | ].
  split; [exact Hsmall | ].
  split; [ | split].
  - rewrite Hpass, andb_true_iff, Hnil. rewrite Z.geb_le. tauto.
  - rewrite Hrisk. split.
    + intros Hne. destruct (filter _ Security.small_primes) as [ | l0 fs] eqn:Ef;
        [contradiction | ].
      exists l0. apply Hfilter. left. reflexivity.
    + intros (l & Hl) Hf. apply Hfilter in Hl. rewrite Hf in Hl. destruct Hl.
  - intros p' q' Hk' Hpp Hqp Hp47 Hq47.
    assert (Hn : p * q = p' * q').
    { pose proof (key_public _ _ _ Hk) as K1. pose proof (key_public _ _ _ Hk') as K2.
      rewrite K1 in K2. inversion K2. reflexivity. }
    assert (Hnone : forall l, In l [37; 41; 43; 47] -> (p * q) mod l <> 0).
    { intros l Hl. rewrite Hn.
      assert (Hl' : In l Security.small_primes).
      { apply In_analyzer_small_primes. right. right. exact Hl. }
      pose proof analyzer_small_primes_prime as Hall. rewrite Forall_forall in Hall.
      assert (Hl47 : l <= 47) by (simpl in Hl; lia).
      apply product_mod_prime; [apply Hall; assumption | | ];
        apply prime_mod_smaller_prime; try (apply Hall; assumption); assumption || lia. }
    split.
    + rewrite Hpass. rewrite (proj2 Hnil Hnone). apply andb_true_r.
    + rewrite Hrisk. intros Hne. apply Hne.
      destruct (filter _ Security.small_primes) as [ | l0 fs] eqn:Ef; [reflexivity | ].
      destruct (proj1 (Hfilter l0) (or_introl eq_refl)) as [Hin H0].
      exfalso. exact (Hnone l0 Hin H0).
Qed.

Lemma key_strength_of_constructed_object_witness :
  __init__ sample_rnd script_frames 2 512 0%nat = (Done sample_key, 23%nat) /\
  exists n result,
    public_key sample_key = Some {| pk_n := n; pk_g := n + 1 |} /\
    Security.test_key_strength
      {| Security.paillier := sample_key; Security.test_results := [] |} =
      Done (result,
            {| Security.paillier := sample_key;
               Security.test_results := [] ++ [result] |}) /\
    Security.test_name result = "Key Strength Analysis"%string /\
    (forall l, In l [2; 3; 5; 7; 11; 13; 17; 19; 23; 29; 31] -> n mod l <> 0) /\
    (Security.passed result = true <->
     1024 <= py_bit_length n /\ forall l, In l [37; 41; 43; 47] -> n mod l <> 0) /\
    (Security.risk_level result = "CRITICAL"%string <->
     exists l, In l [37; 41; 43; 47] /\ n mod l = 0) /\
    (forall p q,
       key_of sample_key p q -> Z.prime p -> Z.prime q -> 47 < p -> 47 < q ->
       Security.passed result = (py_bit_length n >=? 1024) /\
       Security.risk_level result <> "CRITICAL"%string).
Proof.
  split; [exact sample_run | ].
  exact (key_strength_of_constructed_object sample_rnd script_frames 2 512 0%nat 23%nat
           sample_key
           [] sample_run).
Defined.

Lemma bind_Done {A B : Type} (x : M A) (k : A -> M B) (s s1 : nat) (a : A) :
  x s = (Done a, s1) -> bind x k s = k a s1.
Proof. intros E. unfold bind. rewrite E. reflexivity. Qed.

Lemma try_append_handled {A : Type} (body : M A) (handled : exn -> bool)
    (issue : string) (issues : list string) (s s' : nat) (e : exn) :
  body s = (Raise e, s') -> handled e = true ->
  Security.try_append body handled issue issues s = (Done issues, s').
Proof. intros E H. unfold Security.try_append. rewrite E, H. reflexivity. Qed.

(** X17. [test_input_validation] cannot fail on a constructed object: it
    raises nothing and, when it returns, returns the passing result with
    the risk LOW and appends it to [test_results], since the three probes
    [encrypt(-1)], [encrypt(n + 1)] and [encrypt(3.14)] are all refused with
    a [ValueError].  For [n <= 2 ^ 4096] it returns without a single draw;
    only for a larger [n] does it encrypt [2 ^ 4096], and may then still be
    running in the rejection loop of [encrypt]. *)
Theorem input_validation_always_passes (rnd : nat -> Z) (fuel : nat) (s : nat)
    (self : Security.PaillierSecurityAnalyzer) :
  ready (Security.paillier self) ->
  exists pk result,
    public_key (Security.paillier self) = Some pk /\
    result = {| Security.test_name := "Input Validation";
                Security.passed := true;
                Security.details := "Semua input validation tests passed";
                Security.risk_level := "LOW";
                Security.recommendation := "Input validation implementation baik" |} /\
    match Security.test_input_validation rnd fuel self s with
    | (Done r, _) =>
        r = (result,
             {| Security.paillier := Security.paillier self;
                Security.test_results := Security.test_results self ++ [result] |})
    | (Raise _, _) => False
    | (Diverge, _) => 2 ^ 4096 < pk_n pk
    end /\
    (pk_n pk <= 2 ^ 4096 ->
     Security.test_input_validation rnd fuel self s =
       (Done (result,
              {| Security.paillier := Security.paillier self;
                 Security.test_results := Security.test_results self ++ [result] |}),
        s)).
Proof.
  intros Hr. destruct (ready_key _ Hr) as (p & q & Hp & Hq & Hpq & Hk).
  exists {| pk_n := p * q; pk_g := p * q + 1 |}.
  eexists. cbn [pk_n].
  split; [apply (key_public _ _ _ Hk) | ].
  split; [reflexivity | ].
  assert (Hn : 1 < p * q) by nia.
  assert (E1 : encrypt rnd fuel (Security.paillier self) (-1) s
               = (Raise (ValueError PlaintextNegative), s)).
  { unfold encrypt. rewrite (key_public _ _ _ Hk). reflexivity. }
  assert (E2 : encrypt rnd fuel (Security.paillier self) (p * q + 1) s
               = (Raise (ValueError PlaintextTooLarge), s)).
  { unfold encrypt. rewrite (key_public _ _ _ Hk). cbn [pk_n pk_g].
    destruct (Z.ltb_spec (p * q + 1) 0); [lia | ].
    destruct (Z.geb_spec (p * q + 1) (p * q)); [reflexivity | lia]. }
  assert (E3 : encrypt_non_int (Security.paillier self) s
               = (Raise (ValueError PlaintextNegative), s)).
  { unfold encrypt_non_int. rewrite (key_public _ _ _ Hk). reflexivity. }
  assert (En : public_n (Security.paillier self) = Done (p * q)).
  { unfold public_n. rewrite (key_public _ _ _ Hk). reflexivity. }
  set (result := {| Security.test_name := "Input Validation";
                    Security.passed := true;
                    Security.details := "Semua input validation tests passed";
                    Security.risk_level := "LOW";
                    Security.recommendation := "Input validation implementation baik" |}).
  assert (Hshape : Security.test_input_validation rnd fuel self s =
            match (if 2 ^ 4096 <? p * q
                   then bind (encrypt rnd fuel (Security.paillier self) (2 ^ 4096))
                             (fun _ => ret tt) s
                   else (Done tt, s)) with
            | (Done _, s') => (Done (Security.record_result self result), s')
            | (Raise e, s') =>
                if is_ValueError e
                then (Done (Security.record_result self result), s')
                else (Raise e, s')
            | (Diverge, s') => (Diverge, s')
            end).
  { unfold Security.test_input_validation.
    rewrite (bind_Done _ _ s s [])
      by (apply try_append_handled with (1 := E1); reflexivity).
    rewrite (bind_Done _ _ s s []).
    2:{ apply try_append_handled with (e := ValueError PlaintextTooLarge);
          [ | reflexivity].
        rewrite (bind_Done _ _ s s (p * q)) by (unfold lift; rewrite En; reflexivity).
        exact E2. }
    rewrite (bind_Done _ _ s s [])
      by (apply try_append_handled with (1 := E3); reflexivity).
    unfold bind at 1. unfold Security.try_pass.
    rewrite (bind_Done _ _ s s (p * q)) by (unfold lift; rewrite En; reflexivity).
    destruct (2 ^ 4096 <? p * q).
    - destruct (bind (encrypt rnd fuel (Security.paillier self) (2 ^ 4096))
                     (fun _ => ret tt) s)
        as [[u | e | ] s1]; [reflexivity | | reflexivity].
      destruct (is_ValueError e); reflexivity.
    - reflexivity. }
  rewrite Hshape. split.
  - destruct (Z.ltb_spec (2 ^ 4096) (p * q)) as [Hlt | Hge]; [ | reflexivity].
    pose proof (encrypt_outcome rnd (Security.paillier self) p q (2 ^ 4096) fuel s
                  Hp Hq Hk) as Ho.
    assert (H0 : 0 <= 2 ^ 4096) by (apply Z.pow_nonneg; lia).
    specialize (Ho (conj H0 Hlt)).
    unfold bind.
    destruct (encrypt rnd fuel (Security.paillier self) (2 ^ 4096) s)
      as [[c | e | ] s1]; [reflexivity | destruct Ho | assumption].
  - intros Hle. destruct (Z.ltb_spec (2 ^ 4096) (p * q)); [lia | reflexivity].
Qed.

Lemma input_validation_always_passes_witness :
  ready (Security.paillier
           {| Security.paillier := sample_key; Security.test_results := [] |}) /\
  exists pk result,
    public_key sample_key = Some pk /\
    result = {| Security.test_name := "Input Validation";
                Security.passed := true;
                Security.details := "Semua input validation tests passed";
                Security.risk_level := "LOW";
                Security.recommendation := "Input validation implementation baik" |} /\
    match Security.test_input_validation sample_rnd 1
            {| Security.paillier := sample_key; Security.test_results := [] |} 23%nat
    with
    | (Done r, _) =>
        r = (result,
             {| Security.paillier := sample_key;
                Security.test_results := [] ++ [result] |})
    | (Raise _, _) => False
    | (Diverge, _) => 2 ^ 4096 < pk_n pk
    end /\
    (pk_n pk <= 2 ^ 4096 ->
     Security.test_input_validation sample_rnd 1
       {| Security.paillier := sample_key; Security.test_results := [] |} 23%nat =
       (Done (result,
              {| Security.paillier := sample_key;
                 Security.test_results := [] ++ [result] |}),
        23%nat)).
Proof.
  split; [exact sample_ready | ].
  exact (input_validation_always_passes sample_rnd 1 23%nat
           {| Security.paillier := sample_key; Security.test_results := [] |}
           sample_ready).
Defined.

(** ** The financial demonstration *)

Lemma encrypt_transactions_outcome (rnd : nat -> Z) (fuel : nat) (pc : PaillierCore)
    (p q : Z) :
  2 <= p -> 2 <= q -> key_of pc p q ->
  forall transactions acc plain s,
    Forall2 (fun c m => 0 <= m /\ encrypts (p * q) m c) acc plain ->
    match Financial.encrypt_transactions rnd fuel pc transactions acc s with
    | (Done cs, _) =>
        Forall2 (fun c m => 0 <= m /\ encrypts (p * q) m c) cs
                (plain ++ kept_amounts transactions) /\
        Forall (fun amount => amount < p * q) transactions
    | (Raise e, _) =>
        e = ValueError PlaintextTooLarge /\
        exists amount, In amount transactions /\ p * q <= amount
    | (Diverge, _) => True
    end.
Proof.
  intros Hp Hq Hk.
  induction transactions as [ | amount rest IH]; intros acc plain s Hacc.
  - simpl. unfold ret. rewrite app_nil_r. split; [assumption | constructor].
  - cbn [Financial.encrypt_transactions kept_amounts filter].
    destruct (Z.ltb_spec amount 0) as [Hneg | Hnn]; cbn [negb].
    + specialize (IH acc plain s Hacc). fold (kept_amounts rest).
      destruct (Financial.encrypt_transactions rnd fuel pc rest acc s) as [[cs | e | ] s1].
      * destruct IH as [H1 H2]. split; [assumption | constructor; [nia | assumption]].
      * destruct IH as [He (a & Ha & Hbig)]. split; [assumption | ].
        exists a. split; [right; assumption | assumption].
      * exact I.
    + fold (kept_amounts rest). unfold bind.
      destruct (Z.lt_ge_cases amount (p * q)) as [Hlt | Hbig].
      * pose proof (encrypt_outcome rnd pc p q amount fuel s Hp Hq Hk (conj Hnn Hlt)) as Ho.
        destruct (encrypt rnd fuel pc amount s) as [[c | e | ] s1] eqn:E;
          [ | destruct Ho | exact I].
        assert (Hc : encrypts (p * q) amount c).
        { apply (encrypt_run_encrypts_any_key rnd pc p q amount fuel s s1 c); auto. }
        specialize (IH (acc ++ [c]) (plain ++ [amount]) s1).
        assert (Hacc' : Forall2 (fun c m => 0 <= m /\ encrypts (p * q) m c)
                          (acc ++ [c]) (plain ++ [amount])).
        { apply Forall2_app; [assumption | constructor; [split; assumption | constructor]]. }
        specialize (IH Hacc').
        destruct (Financial.encrypt_transactions rnd fuel pc rest (acc ++ [c]) s1)
          as [[cs | e | ] s2].
        -- destruct IH as [H1 H2]. rewrite <- app_assoc in H1.
           split; [exact H1 | constructor; assumption].
        -- destruct IH as [He (a & Ha & Hbig)]. split; [assumption | ].
           exists a. split; [right; assumption | assumption].
        -- exact I.
      * destruct (encrypt_invalid rnd pc p q amount fuel s Hk (or_intror Hbig))
          as (e & E & He).
        rewrite E. split.
        -- unfold encrypt in E. rewrite (key_public _ _ _ Hk) in E. cbn [pk_n pk_g] in E.
           destruct (Z.ltb_spec amount 0); [lia | ].
           destruct (Z.geb_spec amount (p * q)); [ | lia].
           inversion E. reflexivity.
        -- exists amount. split; [left; reflexivity | assumption].
Qed.

Lemma dict_set_mirrors (n : Z) (banks_data ledger : list (string * list Z))
    (bank_name : string) (cs ms : list Z) :
  mirrors n banks_data ledger ->
  Forall2 (fun c m => 0 <= m /\ encrypts n m c) cs ms ->
  mirrors n (dict_set banks_data bank_name cs) (dict_set ledger bank_name ms).
Proof.
  intros Hm Hcs. induction Hm as [ | [k1 v1] [k2 v2] bs ls [Hkey Hv] Hrest IH]; simpl.
  - constructor; [split; [reflexivity | assumption] | constructor].
  - simpl in Hkey. subst k2.
    destruct (String.eqb k1 bank_name).
    + constructor; [split; [reflexivity | assumption] | assumption].
    + constructor; [split; [reflexivity | assumption] | assumption].
Qed.

(** Assigning to a key: the key then holds the value, the other keys hold
    what they held, a key that was present keeps its place, and a new key
    goes to the end. *)
Lemma dict_get_set_same {V : Type} (d : list (string * V)) (k : string) (v : V) :
  dict_get (dict_set d k v) k = Some v.
Proof.
  induction d as [ | [k' v'] d IH]; simpl.
  - rewrite String.eqb_refl. reflexivity.
  - destruct (String.eqb k' k) eqn:Ek; simpl; rewrite Ek; [reflexivity | exact IH].
Qed.

Lemma dict_get_set_other {V : Type} (d : list (string * V)) (k k0 : string) (v : V) :
  k0 <> k -> dict_get (dict_set d k v) k0 = dict_get d k0.
Proof.
  intros Hne. induction d as [ | [k' v'] d IH]; simpl.
  - destruct (String.eqb_spec k k0); [congruence | reflexivity].
  - destruct (String.eqb_spec k' k) as [-> | Hk]; simpl.
    + destruct (String.eqb_spec k k0); [congruence | reflexivity].
    + destruct (String.eqb k' k0); [reflexivity | exact IH].
Qed.

Lemma dict_set_present {V : Type} (d : list (string * V)) (k : string) (v : V) :
  In k (map fst d) -> map fst (dict_set d k v) = map fst d.
Proof.
  induction d as [ | [k' v'] d IH]; simpl; [contradiction | ].
  intros Hin. destruct (String.eqb_spec k' k) as [-> | Hk]; simpl; [reflexivity | ].
  f_equal. apply IH. destruct Hin; [contradiction | assumption].
Qed.

Lemma dict_set_absent {V : Type} (d : list (string * V)) (k : string) (v : V) :
  ~ In k (map fst d) -> dict_set d k v = d ++ [(k, v)].
Proof.
  induction d as [ | [k' v'] d IH]; simpl; [reflexivity | ].
  intros Hin. destruct (String.eqb_spec k' k) as [-> | Hk]; [tauto | ].
  f_equal. apply IH. tauto.
Qed.

Lemma add_bank_transactions_outcome (rnd : nat -> Z) (fuel : nat)
    (self : Financial.FinancialComputation) (p q : Z)
    (bank_name : string) (transactions : list Z) (s : nat) :
  2 <= p -> 2 <= q -> key_of (Financial.paillier self) p q ->
  match Financial.add_bank_transactions rnd fuel self bank_name transactions s with
  | (Done _, self', _) =>
      Forall (fun amount => amount < p * q) transactions /\
      Financial.paillier self' = Financial.paillier self /\
      exists encrypted_transactions,
        Forall2 (fun c m => 0 <= m /\ encrypts (p * q) m c)
                encrypted_transactions (kept_amounts transactions) /\
        Financial.banks_data self' =
          dict_set (Financial.banks_data self) bank_name encrypted_transactions
  | (Raise e, self', _) =>
      self' = self /\
      e = ValueError PlaintextTooLarge /\
      exists amount, In amount transactions /\ p * q <= amount
  | (Diverge, self', _) => self' = self
  end.
Proof.
  intros Hp Hq Hk. unfold Financial.add_bank_transactions.
  pose proof (encrypt_transactions_outcome rnd fuel (Financial.paillier self) p q
                Hp Hq Hk transactions [] [] s (Forall2_nil _)) as Ho.
  destruct (Financial.encrypt_transactions rnd fuel (Financial.paillier self)
              transactions [] s) as [[cs | e | ] s1].
  - cbn [Financial.paillier Financial.banks_data].
    destruct Ho as [H1 H2]. simpl in H1.
    split; [assumption | split; [reflexivity | ]].
    exists cs. split; [assumption | reflexivity].
  - split; [reflexivity | exact Ho].
  - reflexivity.
Qed.

(** X18. [add_bank_transactions], whatever the key and whatever the store
    holds: negative amounts are dropped without an error.  When the call
    returns, every amount was below [n], the key is unchanged, and the
    bank's entry holds, in order, one encryption of each amount that is not
    negative; every other bank has the entry it had; the banks are in the
    order they were in, a new bank being added at the end; and a store that
    mirrored a ledger mirrors the ledger with that bank's amounts set.  The
    only exception is the too-large error of [encrypt], for an amount of [n]
    or more, and then, as while the call is still running, the object is as
    it was. *)
Theorem add_bank_transactions_stores_encryptions (rnd : nat -> Z) (fuel : nat)
    (self : Financial.FinancialComputation) (p q : Z)
    (bank_name : string) (transactions : list Z) (s : nat) :
  2 <= p -> 2 <= q -> key_of (Financial.paillier self) p q ->
  match Financial.add_bank_transactions rnd fuel self bank_name transactions s with
  | (Done _, self', _) =>
      Forall (fun amount => amount < p * q) transactions /\
      Financial.paillier self' = Financial.paillier self /\
      (exists encrypted_transactions,
         Forall2 (fun c m => 0 <= m /\ encrypts (p * q) m c)
                 encrypted_transactions (kept_amounts transactions) /\
         dict_get (Financial.banks_data self') bank_name
           = Some encrypted_transactions /\
         (~ In bank_name (map fst (Financial.banks_data self)) ->
          Financial.banks_data self' =
            Financial.banks_data self ++ [(bank_name, encrypted_transactions)])) /\
      (forall name,
         name <> bank_name ->
         dict_get (Financial.banks_data self') name
           = dict_get (Financial.banks_data self) name) /\
      (In bank_name (map fst (Financial.banks_data self)) ->
       map fst (Financial.banks_data self') = map fst (Financial.banks_data self)) /\
      (forall ledger,
         mirrors (p * q) (Financial.banks_data self) ledger ->
         mirrors (p * q) (Financial.banks_data self')
                 (dict_set ledger bank_name (kept_amounts transactions)))
  | (Raise e, self', _) =>
      self' = self /\
      e = ValueError PlaintextTooLarge /\
      exists amount, In amount transactions /\ p * q <= amount
  | (Diverge, self', _) => self' = self
  end.
Proof.
  intros Hp Hq Hk.
  pose proof (add_bank_transactions_outcome rnd fuel self p q bank_name transactions s
                Hp Hq Hk) as Ho.
  destruct (Financial.add_bank_transactions rnd fuel self bank_name transactions s)
    as [[[[] | e | ] self'] s']; [ | exact Ho | exact Ho].
  destruct Ho as (Hsmall & Hpc & cs & Hcs & Hd).
  split; [assumption | split; [assumption | ]].
  rewrite Hd. split; [ | split; [ | split]].
  - exists cs. split; [assumption | split].
    + apply dict_get_set_same.
    + apply dict_set_absent.
  - intros name Hne. apply dict_get_set_other. assumption.
  - apply dict_set_present.
  - intros ledger Hm. apply dict_set_mirrors; assumption.
Qed.

Lemma add_bank_transactions_stores_encryptions_witness :
  2 <= sample_p /\ 2 <= sample_q /\
  key_of (Financial.paillier
            {| Financial.paillier := sample_key;
               Financial.banks_data := [("Bank A"%string, [7]); ("Bank B"%string, [8])] |})
         sample_p sample_q /\
  match Financial.add_bank_transactions sample_rnd 1
          {| Financial.paillier := sample_key;
             Financial.banks_data := [("Bank A"%string, [7]); ("Bank B"%string, [8])] |}
          "Bank A" [100; -5; 200] 23%nat
  with
  | (Done _, self', _) =>
      Forall (fun amount => amount < sample_p * sample_q) [100; -5; 200] /\
      Financial.paillier self' = sample_key /\
      (exists encrypted_transactions,
         Forall2 (fun c m => 0 <= m /\ encrypts (sample_p * sample_q) m c)
                 encrypted_transactions (kept_amounts [100; -5; 200]) /\
         dict_get (Financial.banks_data self') "Bank A"
           = Some encrypted_transactions /\
         (~ In "Bank A"%string (map fst [("Bank A"%string, [7]); ("Bank B"%string, [8])]) ->
          Financial.banks_data self' =
            [("Bank A"%string, [7]); ("Bank B"%string, [8])]
              ++ [("Bank A"%string, encrypted_transactions)])) /\
      (forall name,
         name <> "Bank A"%string ->
         dict_get (Financial.banks_data self') name
           = dict_get [("Bank A"%string, [7]); ("Bank B"%string, [8])] name) /\
      (In "Bank A"%string (map fst [("Bank A"%string, [7]); ("Bank B"%string, [8])]) ->
       map fst (Financial.banks_data self') = ["Bank A"%string; "Bank B"%string]) /\
      (forall ledger,
         mirrors (sample_p * sample_q)
                 [("Bank A"%string, [7]); ("Bank B"%string, [8])] ledger ->
         mirrors (sample_p * sample_q) (Financial.banks_data self')
                 (dict_set ledger "Bank A" (kept_amounts [100; -5; 200])))
  | (Raise e, self', _) =>
      self' = {| Financial.paillier := sample_key;
                 Financial.banks_data :=
                   [("Bank A"%string, [7]); ("Bank B"%string, [8])] |} /\
      e = ValueError PlaintextTooLarge /\
      exists amount, In amount [100; -5; 200] /\ sample_p * sample_q <= amount
  | (Diverge, self', _) =>
      self' = {| Financial.paillier := sample_key;
                 Financial.banks_data :=
                   [("Bank A"%string, [7]); ("Bank B"%string, [8])] |}
  end.
Proof.
  assert (Hp : 2 <= sample_p) by (vm_compute; discriminate).
  assert (Hq : 2 <= sample_q) by (vm_compute; discriminate).
  split; [exact Hp | ].
  split; [exact Hq | ].
  split; [exact sample_key_of | ].
  exact (add_bank_transactions_stores_encryptions sample_rnd 1
           {| Financial.paillier := sample_key;
              Financial.banks_data := [("Bank A"%string, [7]); ("Bank B"%string, [8])] |}
           sample_p sample_q "Bank A" [100; -5; 200] 23%nat
           Hp Hq sample_key_of).
Defined.

Lemma amounts_nonneg (n : Z) (cs ms : list Z) :
  Forall2 (fun c m => 0 <= m /\ encrypts n m c) cs ms -> 0 <= fold_right Z.add 0 ms.
Proof. intros H. induction H as [ | c m cs ms [Hm _] _ IH]; simpl; lia. Qed.

Lemma ledger_total_cons (k : string) (ms : list Z) (ls : list (string * list Z)) :
  ledger_total ((k, ms) :: ls) = fold_right Z.add 0 ms + ledger_total ls.
Proof.
  unfold ledger_total. simpl. rewrite fold_right_app.
  generalize (fold_right Z.add 0 (concat (map snd ls))). intros z.
  induction ms as [ | m ms IHms]; simpl; [reflexivity | ].
  rewrite IHms. ring.
Qed.

Lemma ledger_total_nonneg (n : Z) (banks ledger : list (string * list Z)) :
  mirrors n banks ledger -> 0 <= ledger_total ledger.
Proof.
  intros Hm. induction Hm as [ | [k1 cs] [k2 ms] bs ls [_ Hv] _ IH].
  - unfold ledger_total. simpl. lia.
  - rewrite ledger_total_cons. simpl in Hv. apply amounts_nonneg in Hv. lia.
Qed.

(** The inner loop on the encryptions of [ms]: the running total stays an
    encryption of the sum. *)
Lemma add_transactions_encrypts (pc : PaillierCore) (p q : Z) :
  2 <= p -> 2 <= q -> key_of pc p q ->
  forall cs ms,
    Forall2 (fun c m => 0 <= m /\ encrypts (p * q) m c) cs ms ->
    (forall t a,
       0 <= a -> encrypts (p * q) a t ->
       exists t',
         Financial.add_transactions pc cs (Some t) = Done (Some t') /\
         encrypts (p * q) (a + fold_right Z.add 0 ms) t') /\
    (cs = [] /\ Financial.add_transactions pc cs None = Done None \/
     exists t',
       cs <> [] /\
       Financial.add_transactions pc cs None = Done (Some t') /\
       encrypts (p * q) (fold_right Z.add 0 ms) t').
Proof.
  intros Hp Hq Hk cs ms Hcs.
  assert (Hsome : forall cs ms,
            Forall2 (fun c m => 0 <= m /\ encrypts (p * q) m c) cs ms ->
            forall t a,
              0 <= a -> encrypts (p * q) a t ->
              exists t',
                Financial.add_transactions pc cs (Some t) = Done (Some t') /\
                encrypts (p * q) (a + fold_right Z.add 0 ms) t').
  { clear cs ms Hcs. intros cs ms H.
    induction H as [ | c m cs ms [Hm Hc] Hrest IH]; intros t a Ha Ht; simpl.
    - exists t. rewrite Z.add_0_r. split; [reflexivity | assumption].
    - rewrite (homomorphic_add_spec pc p q) by assumption. cbn [obind].
      destruct (IH ((t * c) mod (p * q * (p * q))) (a + m) ltac:(lia))
        as (t' & E' & He').
      { apply encrypts_product; assumption || nia. }
      exists t'. split; [assumption | ].
      replace (a + (m + fold_right Z.add 0 ms)) with (a + m + fold_right Z.add 0 ms)
        by ring.
      assumption. }
  split; [apply Hsome; assumption | ].
  destruct Hcs as [ | c m cs ms [Hm Hc] Hrest].
  - left. split; reflexivity.
  - right. simpl.
    destruct (Hsome cs ms Hrest c m Hm Hc) as (t' & E' & He').
    exists t'. split; [discriminate | split; assumption].
Qed.

Lemma add_banks_encrypts (pc : PaillierCore) (p q : Z) :
  2 <= p -> 2 <= q -> key_of pc p q ->
  forall banks ledger,
    mirrors (p * q) banks ledger ->
    (forall t a,
       0 <= a -> encrypts (p * q) a t ->
       exists t',
         Financial.add_banks pc banks (Some t) = Done (Some t') /\
         encrypts (p * q) (a + ledger_total ledger) t') /\
    (concat (map snd ledger) = [] /\ Financial.add_banks pc banks None = Done None \/
     exists t',
       concat (map snd ledger) <> [] /\
       Financial.add_banks pc banks None = Done (Some t') /\
       encrypts (p * q) (ledger_total ledger) t').
Proof.
  intros Hp Hq Hk banks ledger Hm.
  induction Hm as [ | [k1 cs] [k2 ms] bs ls [Hkey Hv] Hrest [IHsome IHnone]].
  - split.
    + intros t a Ha Ht. exists t. unfold ledger_total. simpl. rewrite Z.add_0_r.
      split; [reflexivity | assumption].
    + left. split; reflexivity.
  - cbn [fst snd] in Hkey, Hv.
    destruct (add_transactions_encrypts pc p q Hp Hq Hk cs ms Hv) as [Hsome Hnone].
    pose proof (ledger_total_cons k2 ms ls) as Htot.
    pose proof (amounts_nonneg _ _ _ Hv) as Hnn.
    split.
    + intros t a Ha Ht. cbn [Financial.add_banks].
      destruct (Hsome t a Ha Ht) as (t1 & E1 & He1). rewrite E1. cbn [obind].
      destruct (IHsome t1 (a + fold_right Z.add 0 ms) ltac:(lia) He1) as (t2 & E2 & He2).
      exists t2. split; [assumption | ]. rewrite Htot.
      replace (a + (fold_right Z.add 0 ms + ledger_total ls))
        with (a + fold_right Z.add 0 ms + ledger_total ls) by ring.
      assumption.
    + cbn [Financial.add_banks map concat snd].
      destruct Hnone as [[Hcs E0] | (t1 & Hcs & E1 & He1)].
      * rewrite E0. cbn [obind]. subst cs. inversion Hv; subst. simpl app.
        destruct IHnone as [[Hl E] | (t' & Hl & E & He)].
        -- left. split; assumption.
        -- right. exists t'. split; [assumption | split; [assumption | ]].
           rewrite Htot. simpl. assumption.
      * right. rewrite E1. cbn [obind].
        destruct (IHsome t1 (fold_right Z.add 0 ms) Hnn He1) as (t2 & E2 & He2).
        exists t2. split; [ | split; [assumption | rewrite Htot; assumption]].
        destruct ms as [ | m ms]; [inversion Hv; subst; contradiction | discriminate].
Qed.

(** X19. Under a key built from two different primes, when every number
    stored for a bank is an encryption of the amount at its place in a
    ledger of non-negative amounts, [calculate_total_transaction_volume]
    returns the sum of all amounts of all banks modulo [n]; when no bank
    holds a transaction (no bank, or only banks with empty lists) it raises
    its [ValueError]. *)
Theorem total_volume_is_the_sum (self : Financial.FinancialComputation) (p q : Z)
    (ledger : list (string * list Z)) :
  Z.prime p -> Z.prime q -> p <> q -> key_of (Financial.paillier self) p q ->
  mirrors (p * q) (Financial.banks_data self) ledger ->
  Financial.calculate_total_transaction_volume self =
    match concat (map snd ledger) with
    | [] => Financial.RaisedValueError "Tidak ada data transaksi tersedia"
    | _ :: _ => Financial.Returned (ledger_total ledger mod (p * q))
    end.
Proof.
  intros Hpp Hqp Hpq Hk Hm.
  pose proof (Z.prime_ge_2 p Hpp) as Hp. pose proof (Z.prime_ge_2 q Hqp) as Hq.
  destruct (add_banks_encrypts _ p q Hp Hq Hk _ _ Hm) as [_ Hnone].
  unfold Financial.calculate_total_transaction_volume.
  destruct Hnone as [[Hl E] | (t & Hl & E & He)]; rewrite E.
  - rewrite Hl. reflexivity.
  - destruct (concat (map snd ledger)) as [ | m0 ms0] eqn:Ec; [contradiction | ].
    pose proof (ledger_total_nonneg _ _ _ Hm) as Hnn.
    rewrite (decrypt_encrypts _ p q Hpp Hqp Hpq Hk t (ledger_total ledger) Hnn He).
    reflexivity.
Qed.

Lemma total_volume_is_the_sum_witness :
  Z.prime sample_p /\ Z.prime sample_q /\ sample_p <> sample_q /\
  exists self',
    Financial.add_bank_transactions sample_rnd 1
      {| Financial.paillier := sample_key; Financial.banks_data := [] |}
      "Bank A" [100; -5; 200] 23%nat = (Done tt, self', 25%nat) /\
    key_of (Financial.paillier self') sample_p sample_q /\
    mirrors (sample_p * sample_q) (Financial.banks_data self')
            [("Bank A"%string, [100; 200])] /\
    Financial.calculate_total_transaction_volume self' =
      Financial.Returned
        (ledger_total [("Bank A"%string, [100; 200])] mod (sample_p * sample_q)).
Proof.
  assert (Hp : 2 <= sample_p) by (vm_compute; discriminate).
  assert (Hq : 2 <= sample_q) by (vm_compute; discriminate).
  assert (E : exists self',
            Financial.add_bank_transactions sample_rnd 1
              {| Financial.paillier := sample_key; Financial.banks_data := [] |}
              "Bank A" [100; -5; 200] 23%nat = (Done tt, self', 25%nat))
    by (eexists; vm_compute; reflexivity).
  destruct E as [self' E].
  pose proof (add_bank_transactions_outcome sample_rnd 1
                {| Financial.paillier := sample_key; Financial.banks_data := [] |}
                sample_p sample_q "Bank A" [100; -5; 200] 23%nat
                Hp Hq sample_key_of) as Ho.
  rewrite E in Ho. destruct Ho as (_ & Hpc & cs & Hcs & Hd).
  assert (Hmir : mirrors (sample_p * sample_q) (Financial.banks_data self')
                         [("Bank A"%string, [100; 200])]).
  { rewrite Hd. exact (dict_set_mirrors _ [] [] "Bank A" cs _ (Forall2_nil _) Hcs). }
  assert (Hk : key_of (Financial.paillier self') sample_p sample_q)
    by (rewrite Hpc; exact sample_key_of).
  split; [exact sample_p_prime | ].
  split; [exact sample_q_prime | ].
  split; [exact sample_primes_differ | ].
  exists self'.
  split; [exact E | ].
  split; [exact Hk | ].
  split; [exact Hmir | ].
  exact (total_volume_is_the_sum self' sample_p sample_q
           [("Bank A"%string, [100; 200])]
           sample_p_prime sample_q_prime sample_primes_differ Hk Hmir).
Defined.

(** ** The blinding loop of [encrypt] *)

(** The loop stops at the first draw that gives a unit, having consumed the
    draws before it; with fewer iterations than that it is still running. *)
Lemma draw_blinding_first (rnd : nat -> Z) (n : Z) (k : nat) :
  1 < n ->
  forall s,
    (forall i, (i < k)%nat -> Z.gcd (1 + rnd (s + i)%nat mod (n - 1)) n <> 1) ->
    forall fuel,
      ((k < fuel)%nat ->
       Z.gcd (1 + rnd (s + k)%nat mod (n - 1)) n = 1 ->
       draw_blinding rnd fuel n s
         = (Done (1 + rnd (s + k)%nat mod (n - 1)), S (s + k))) /\
      ((fuel <= k)%nat ->
       draw_blinding rnd fuel n s = (Diverge, (s + fuel)%nat)).
Proof.
  intros Hn. induction k as [ | k IH]; intros s Hbad fuel.
  - split.
    + intros Hf Hg. destruct fuel as [ | fuel]; [lia | ].
      replace (s + 0)%nat with s in * by lia.
      cbn [draw_blinding]. unfold bind, randrange.
      destruct (Z.leb_spec n 1); [lia | ].
      rewrite Hg. reflexivity.
    + intros Hf. replace fuel with 0%nat by lia.
      replace (s + 0)%nat with s by lia. reflexivity.
  - destruct fuel as [ | fuel].
    + split; [lia | ]. intros _. replace (s + 0)%nat with s by lia. reflexivity.
    + pose proof (Hbad 0%nat ltac:(lia)) as H0.
      replace (s + 0)%nat with s in H0 by lia.
      assert (Hbad' : forall i, (i < k)%nat ->
                Z.gcd (1 + rnd (S s + i)%nat mod (n - 1)) n <> 1).
      { intros i Hi. replace (S s + i)%nat with (s + S i)%nat by lia.
        apply Hbad. lia. }
      destruct (IH (S s) Hbad' fuel) as [IH1 IH2].
      assert (Estep : draw_blinding rnd (S fuel) n s
                      = draw_blinding rnd fuel n (S s)).
      { cbn [draw_blinding]. unfold bind at 1. unfold randrange at 1.
        destruct (Z.leb_spec n 1); [lia | ].
        destruct (Z.eqb_spec (Z.gcd (1 + rnd s mod (n - 1)) n) 1) as [ | _];
          [contradiction | reflexivity]. }
      rewrite Estep.
      replace (s + S k)%nat with (S s + k)%nat by lia.
      replace (s + S fuel)%nat with (S s + fuel)%nat by lia.
      split; intros; [apply IH1 | apply IH2]; assumption || lia.
Qed.

(** X20. On a constructed object and a plaintext in [[0, n)], [encrypt]
    draws from [randrange(1, n)] until a draw is coprime to [n]: if the
    first [k] draws are not and the next one, [r], is, it returns
    [(1 + n) ^ m * r ^ n mod n * n] having consumed exactly [k + 1] draws,
    and after [k] iterations or fewer the loop is still running. *)
Theorem encrypt_uses_first_unit_drawn (pc : PaillierCore) :
  ready pc ->
  exists pk,
    public_key pc = Some pk /\
    forall rnd m s k,
      0 <= m < pk_n pk ->
      (forall i, (i < k)%nat ->
         Z.gcd (1 + rnd (s + i)%nat mod (pk_n pk - 1)) (pk_n pk) <> 1) ->
      Z.gcd (1 + rnd (s + k)%nat mod (pk_n pk - 1)) (pk_n pk) = 1 ->
      forall fuel,
        ((k < fuel)%nat ->
         encrypt rnd fuel pc m s
           = (Done (((1 + pk_n pk) ^ m
                     * (1 + rnd (s + k)%nat mod (pk_n pk - 1)) ^ pk_n pk)
                    mod (pk_n pk * pk_n pk)),
              S (s + k))) /\
        ((fuel <= k)%nat ->
         encrypt rnd fuel pc m s = (Diverge, (s + fuel)%nat)).
Proof.
  intros Hr. destruct (ready_key pc Hr) as (p & q & Hp & Hq & Hpq & Hk).
  exists {| pk_n := p * q; pk_g := p * q + 1 |}. cbn [pk_n pk_g].
  assert (Hn : 1 < p * q) by nia.
  split; [apply (key_public _ _ _ Hk) | ].
  intros rnd m s k Hm Hbad Hg fuel.
  destruct (draw_blinding_first rnd (p * q) k Hn s Hbad fuel) as [D1 D2].
  unfold encrypt. rewrite (key_public _ _ _ Hk). cbn [pk_n pk_g].
  destruct (Z.ltb_spec m 0); [lia | ].
  destruct (Z.geb_spec m (p * q)); [lia | ].
  unfold bind. split; intros Hf.
  - rewrite (D1 Hf Hg). unfold lift.
    rewrite encrypt_with_spec by (assumption || lia).
    rewrite <- Z.mul_mod by nia. rewrite (Z.add_comm (p * q) 1). reflexivity.
  - rewrite (D2 Hf). reflexivity.
Qed.

Lemma encrypt_uses_first_unit_drawn_witness :
  ready sample_key /\
  exists pk,
    public_key sample_key = Some pk /\
    encrypt sample_rnd 1 sample_key 5 23%nat
      = (Done (((1 + pk_n pk) ^ 5
                * (1 + sample_rnd 23%nat mod (pk_n pk - 1)) ^ pk_n pk)
               mod (pk_n pk * pk_n pk)), 24%nat).
Proof.
  split; [exact sample_ready | ].
  destruct (encrypt_uses_first_unit_drawn sample_key sample_ready)
    as (pk & Hpk & H).
  exists pk. split; [exact Hpk | ].
  assert (Epk : pk = {| pk_n := sample_p * sample_q;
                        pk_g := sample_p * sample_q + 1 |}).
  { rewrite (key_public _ _ _ sample_key_of) in Hpk. congruence. }
  assert (Hm : 0 <= 5 < pk_n pk) by (rewrite Epk; vm_compute; split; congruence).
  assert (Hbad : forall i, (i < 0)%nat ->
            Z.gcd (1 + sample_rnd (23 + i)%nat mod (pk_n pk - 1)) (pk_n pk) <> 1)
    by (intros i Hi; lia).
  assert (Hg : Z.gcd (1 + sample_rnd (23 + 0)%nat mod (pk_n pk - 1)) (pk_n pk) = 1)
    by (rewrite Epk; vm_compute; reflexivity).
  exact (proj1 (H sample_rnd 5 23%nat 0%nat Hm Hbad Hg 1%nat) ltac:(lia)).
Defined.

(** ** The results of the homomorphic operations are encryptions *)

(** [(y + t n) ^ (j + 1)] is [y ^ (j + 1) + (j + 1) t n y ^ j] up to a
    multiple of [n * n]. *)
Lemma pow_plus_multiple (n y t j : Z) :
  0 <= j ->
  exists w,
    (y + t * n) ^ (j + 1) = y ^ (j + 1) + (j + 1) * t * n * y ^ j + w * (n * n).
Proof.
  intros Hj. pattern j. apply natlike_ind; [ | | assumption].
  - exists 0. change (0 + 1) with 1. rewrite !Z.pow_1_r, Z.pow_0_r. ring.
  - intros i Hi [w IH].
    exists (w * y + (i + 1) * t * t * y ^ i + t * n * w).
    rewrite <- Z.add_1_r.
    rewrite (Z.pow_add_r (y + t * n) (i + 1) 1), Z.pow_1_r, IH by lia.
    rewrite (Z.pow_add_r y (i + 1) 1), (Z.pow_add_r y i 1), !Z.pow_1_r by lia.
    ring.
Qed.

(** Modulo [n * n] an [n]-th power depends on its base modulo [n] only. *)
Lemma nth_power_mod (n x : Z) :
  0 < n -> ((x mod n) ^ n) mod (n * n) = (x ^ n) mod (n * n).
Proof.
  intros Hn.
  pose proof (Z.div_mod x n ltac:(lia)) as Hx.
  destruct (pow_plus_multiple n (x mod n) (x / n) (n - 1) ltac:(lia)) as [w Hw].
  replace (n - 1 + 1) with n in Hw by lia.
  replace (x mod n + x / n * n) with x in Hw by lia.
  rewrite Hw.
  replace ((x mod n) ^ n + n * (x / n) * n * (x mod n) ^ (n - 1) + w * (n * n))
    with ((x mod n) ^ n + ((x / n) * (x mod n) ^ (n - 1) + w) * (n * n)) by ring.
  rewrite Z.mod_add by nia. reflexivity.
Qed.

(** Modulo [n * n] a power of [1 + n] depends on its exponent modulo [n]
    only. *)
Lemma generator_power_mod (n a : Z) :
  0 < n -> 0 <= a ->
  ((1 + n) ^ (a mod n)) mod (n * n) = ((1 + n) ^ a) mod (n * n).
Proof.
  intros Hn Ha.
  pose proof (Z.mod_pos_bound a n Hn) as Hb.
  pose proof (Z.div_mod a n ltac:(lia)) as Hdm.
  replace (1 + n) with (1 + 1 * n) by ring.
  rewrite !one_plus_multiple_pow by lia.
  replace (1 + a * 1 * n) with (1 + a mod n * 1 * n + (a / n) * (n * n)) by nia.
  rewrite Z.mod_add by nia. reflexivity.
Qed.

Lemma encrypt_with_mod (pc : PaillierCore) (p q m r : Z) :
  2 <= p -> 2 <= q -> key_of pc p q -> 0 <= m ->
  encrypt_with pc (p * q) (p * q + 1) m r =
    Done (((1 + p * q) ^ m * r ^ (p * q)) mod (p * q * (p * q))).
Proof.
  intros Hp Hq Hk Hm. rewrite encrypt_with_spec by assumption.
  rewrite <- Z.mul_mod by nia. rewrite (Z.add_comm (p * q) 1). reflexivity.
Qed.

Lemma Done_eq {A : Type} (x y : A) : @Done A x = Done y -> x = y.
Proof. congruence. Qed.

Lemma unit_mod (n r : Z) :
  1 < n -> Z.gcd r n = 1 -> 1 <= r mod n < n /\ Z.gcd (r mod n) n = 1.
Proof.
  intros Hn Hg.
  assert (Hg' : Z.gcd (r mod n) n = 1).
  { rewrite Z.gcd_mod, Z.gcd_comm by lia. assumption. }
  split; [ | assumption].
  pose proof (Z.mod_pos_bound r n ltac:(lia)) as Hb.
  destruct (Z.eq_dec (r mod n) 0) as [H0 | ]; [ | lia].
  rewrite H0, Z.gcd_0_l, Z.abs_eq in Hg' by lia. lia.
Qed.

(** X21. On a constructed object, whatever the key, [homomorphic_add] of
    the encryptions of [a] and [b] under the blinding factors [r1] and [r2]
    is the very ciphertext [encrypt] computes for the plaintext
    [(a + b) mod n] under the blinding factor [r1 * r2 mod n], and that
    plaintext and that factor are ones [encrypt] accepts and can draw. *)
Theorem homomorphic_add_is_an_encryption (pc : PaillierCore) :
  ready pc ->
  exists pk,
    public_key pc = Some pk /\
    forall a b r1 r2 c1 c2,
      0 <= a -> 0 <= b -> Z.gcd r1 (pk_n pk) = 1 -> Z.gcd r2 (pk_n pk) = 1 ->
      encrypt_with pc (pk_n pk) (pk_g pk) a r1 = Done c1 ->
      encrypt_with pc (pk_n pk) (pk_g pk) b r2 = Done c2 ->
      homomorphic_add pc c1 c2 =
        encrypt_with pc (pk_n pk) (pk_g pk)
                     ((a + b) mod pk_n pk) ((r1 * r2) mod pk_n pk) /\
      0 <= (a + b) mod pk_n pk < pk_n pk /\
      1 <= (r1 * r2) mod pk_n pk < pk_n pk /\
      Z.gcd ((r1 * r2) mod pk_n pk) (pk_n pk) = 1.
Proof.
  intros Hr. destruct (ready_key pc Hr) as (p & q & Hp & Hq & Hpq & Hk).
  exists {| pk_n := p * q; pk_g := p * q + 1 |}. cbn [pk_n pk_g].
  assert (Hn : 1 < p * q) by nia.
  assert (Hnn : p * q * (p * q) <> 0) by nia.
  split; [apply (key_public _ _ _ Hk) | ].
  intros a b r1 r2 c1 c2 Ha Hb Hg1 Hg2 E1 E2.
  pose proof (Z.mod_pos_bound (a + b) (p * q) ltac:(lia)) as Hab.
  rewrite encrypt_with_mod in E1, E2 by assumption.
  apply Done_eq in E1, E2. subst c1 c2.
  split; [ | split; [assumption | ]].
  - rewrite (homomorphic_add_spec pc p q) by assumption.
    rewrite encrypt_with_mod by (assumption || lia). f_equal.
    rewrite <- Z.mul_mod by assumption.
    rewrite (Z.mul_mod ((1 + p * q) ^ ((a + b) mod (p * q)))) by assumption.
    rewrite generator_power_mod, nth_power_mod by lia.
    rewrite <- Z.mul_mod by assumption.
    f_equal. rewrite Z.pow_add_r, Z.pow_mul_l by lia. ring.
  - apply unit_mod; [assumption | ]. apply Z.coprime_mul_l; assumption.
Qed.

Lemma homomorphic_add_is_an_encryption_witness :
  ready sample_key /\
  exists pk,
    public_key sample_key = Some pk /\
    forall a b r1 r2 c1 c2,
      0 <= a -> 0 <= b -> Z.gcd r1 (pk_n pk) = 1 -> Z.gcd r2 (pk_n pk) = 1 ->
      encrypt_with sample_key (pk_n pk) (pk_g pk) a r1 = Done c1 ->
      encrypt_with sample_key (pk_n pk) (pk_g pk) b r2 = Done c2 ->
      homomorphic_add sample_key c1 c2 =
        encrypt_with sample_key (pk_n pk) (pk_g pk)
                     ((a + b) mod pk_n pk) ((r1 * r2) mod pk_n pk) /\
      0 <= (a + b) mod pk_n pk < pk_n pk /\
      1 <= (r1 * r2) mod pk_n pk < pk_n pk /\
      Z.gcd ((r1 * r2) mod pk_n pk) (pk_n pk) = 1.
Proof.
  split; [exact sample_ready | ].
  exact (homomorphic_add_is_an_encryption sample_key sample_ready).
Defined.

(** X22. On a constructed object, whatever the key,
    [homomorphic_multiply_constant] of the encryption of [a] under the
    blinding factor [r] by a constant [k >= 0] is the very ciphertext
    [encrypt] computes for the plaintext [(a * k) mod n] under the blinding
    factor [r ^ k mod n], and that plaintext and that factor are ones
    [encrypt] accepts and can draw. *)
Theorem scaling_is_an_encryption (pc : PaillierCore) :
  ready pc ->
  exists pk,
    public_key pc = Some pk /\
    forall a k r c,
      0 <= a -> 0 <= k -> Z.gcd r (pk_n pk) = 1 ->
      encrypt_with pc (pk_n pk) (pk_g pk) a r = Done c ->
      homomorphic_multiply_constant pc c k =
        encrypt_with pc (pk_n pk) (pk_g pk)
                     ((a * k) mod pk_n pk) ((r ^ k) mod pk_n pk) /\
      0 <= (a * k) mod pk_n pk < pk_n pk /\
      1 <= (r ^ k) mod pk_n pk < pk_n pk /\
      Z.gcd ((r ^ k) mod pk_n pk) (pk_n pk) = 1.
Proof.
  intros Hr. destruct (ready_key pc Hr) as (p & q & Hp & Hq & Hpq & Hk).
  exists {| pk_n := p * q; pk_g := p * q + 1 |}. cbn [pk_n pk_g].
  assert (Hn : 1 < p * q) by nia.
  assert (Hnn : p * q * (p * q) <> 0) by nia.
  split; [apply (key_public _ _ _ Hk) | ].
  intros a k r c Ha Hk0 Hg E.
  pose proof (Z.mod_pos_bound (a * k) (p * q) ltac:(lia)) as Hak.
  rewrite encrypt_with_mod in E by assumption.
  apply Done_eq in E. subst c.
  split; [ | split; [assumption | ]].
  - rewrite (homomorphic_multiply_constant_spec pc p q) by assumption.
    rewrite encrypt_with_mod by (assumption || lia). f_equal.
    rewrite Z.mod_pow_l.
    rewrite (Z.mul_mod ((1 + p * q) ^ ((a * k) mod (p * q)))) by assumption.
    rewrite generator_power_mod, nth_power_mod by nia.
    rewrite <- Z.mul_mod by assumption.
    f_equal. rewrite Z.pow_mul_l, <- !Z.pow_mul_r by lia.
    f_equal. f_equal. ring.
  - apply unit_mod; [assumption | ]. apply Z.coprime_pow_l; assumption.
Qed.

Lemma scaling_is_an_encryption_witness :
  ready sample_key /\
  exists pk,
    public_key sample_key = Some pk /\
    forall a k r c,
      0 <= a -> 0 <= k -> Z.gcd r (pk_n pk) = 1 ->
      encrypt_with sample_key (pk_n pk) (pk_g pk) a r = Done c ->
      homomorphic_multiply_constant sample_key c k =
        encrypt_with sample_key (pk_n pk) (pk_g pk)
                     ((a * k) mod pk_n pk) ((r ^ k) mod pk_n pk) /\
      0 <= (a * k) mod pk_n pk < pk_n pk /\
      1 <= (r ^ k) mod pk_n pk < pk_n pk /\
      Z.gcd ((r ^ k) mod pk_n pk) (pk_n pk) = 1.
Proof.
  split; [exact sample_ready | ].
  exact (scaling_is_an_encryption sample_key sample_ready).
Defined.
